(** * Register allocation for ILOC (p5-regalloc.c)

    A shallow embedding of the local register allocator of
    [src/p5-regalloc/src/p5-regalloc.c] and the properties its
    specification states about it.

    The instruction stream is a singly linked list of heap-allocated
    [ILOCInsn] nodes that the allocator mutates in place.  The embedding
    keeps that shape: the heap is an arena of nodes addressed by stable
    indices, a pointer is an [option addr] ([None] is NULL), and every
    function of the source is a function on the heap and the two working
    arrays.  A C [int] is a [Z] within the range of 32 bits.  The source
    has two computations on [int]: [imm - WORD_SIZE] in [insert_spill],
    whose result is stored as an [int] and is wrapped into the range
    here ([int_wrap]), and [dist++], which counts the nodes of a list
    and stays below the number of nodes of the heap.  A result of [None] stands
    for an execution without a normal return: a NULL or dangling
    dereference, an array access out of bounds, or a traversal that does
    not end. *)

From Stdlib Require Import ZArith Lia Bool String.
From stdpp Require Import base option list.

Local Open Scope Z_scope.

(** ** Data model

    The source includes [p5-regalloc.h], which is not part of src/; the
    types below hold what the source file uses of them. *)

(** Modelled from the spec: the operand tags (virtual register,
    physical register, immediate, other).  The source tests for
    [VIRTUAL_REG] and writes [PHYSICAL_REG]; [base_register()] and
    [int_const()] build the two other tags the allocator produces. *)
Inductive OperandType : Type :=
  | EMPTY
  | VIRTUAL_REG
  | PHYSICAL_REG
  | BASE_REG
  | INT_CONST
  | OTHER_OPERAND.

#[global] Instance OperandType_eq_dec : EqDecision OperandType.
Proof. solve_decision. Defined.

(** Modelled from the spec: an operand, with the three members the
    source accesses ([type], [id], [imm]).  The source reads [id] of
    register operands only and [imm] of the frame allocator's constant
    only, and the two members are kept apart here. *)
Record Operand : Type := mkOperand {
  type : OperandType;
  id : Z;
  imm : Z
}.

(** Modelled from the spec: the instruction forms.  The six forms the
    source names, and [FORM n] for every other form of the instruction
    set. *)
Inductive InsnForm : Type :=
  | PUSH
  | I2I
  | ADD_I
  | CALL
  | STORE_AI
  | LOAD_AI
  | FORM (n : nat).

#[global] Instance InsnForm_eq_dec : EqDecision InsnForm.
Proof. solve_decision. Defined.

(** A pointer to a node is its index in the heap. *)
Abbreviation addr := nat (only parsing).

(** Modelled from the spec: an instruction, "an operation code plus
    exactly three operand slots, plus a link to the next instruction (or
    none, marking stream end)". *)
Record ILOCInsn : Type := mkInsn {
  form : InsnForm;
  op0 : Operand;
  op1 : Operand;
  op2 : Operand;
  next : option addr
}.

(** [insn->op[i]] *)
Definition op (insn : ILOCInsn) (i : nat) : Operand :=
  match i with
  | 0%nat => op0 insn
  | 1%nat => op1 insn
  | _ => op2 insn
  end.

(** Modelled from the spec: the list handed to [allocate_registers];
    FOR_EACH starts at its head. *)
Record InsnList : Type := mkList { head : option addr }.

(** The mutable state the functions of the source share: the nodes of
    the stream, [phys_reg_map] and [offset_arr]. *)
Record state : Type := mkState {
  heap : list ILOCInsn;
  phys_reg_map : list Z;
  offset_arr : list Z
}.

(** Modelled from the spec: the operand constructors of the ILOC
    headers; an unused slot is an empty operand. *)
Definition empty_operand : Operand := mkOperand EMPTY 0 0.
Definition physical_register (pr : Z) : Operand := mkOperand PHYSICAL_REG pr 0.
Definition base_register : Operand := mkOperand BASE_REG 0 0.
Definition int_const (v : Z) : Operand := mkOperand INT_CONST 0 v.

(** Modelled from the spec: [ILOCInsn_new_3op], a fresh node that is
    not linked yet. *)
Definition ILOCInsn_new_3op (f : InsnForm) (a b c : Operand) : ILOCInsn :=
  mkInsn f a b c None.

(** A C [int] has 32 bits.  [int_wrap z] is what an [int] holds when
    the arithmetic result [z] is stored in it: [z] itself inside the
    range, and outside it [z] reduced modulo 2^32 into the range, which
    is what the compiled subtraction of [insert_spill] does. *)
Definition INT_MIN : Z := -2147483648.
Definition INT_MAX : Z := 2147483647.

Definition int_wrap (z : Z) : Z := (z - INT_MIN) mod 4294967296 + INT_MIN.

(** [a[i]] and [a[i] = v] on a C array indexed by an [int]; out of
    bounds there is no defined result. *)
Definition arr_get (a : list Z) (i : Z) : option Z :=
  if decide (0 ≤ i) then a !! Z.to_nat i else None.

Definition arr_set (a : list Z) (i v : Z) : option (list Z) :=
  if decide (0 ≤ i < Z.of_nat (length a)) then Some (<[Z.to_nat i := v]> a) else None.

(** What the allocator is compiled against and src/ does not hold: the
    two constants, and the instruction-set description that says, per
    form, which operand slots are read and which slot, if any, is
    written.  Every definition and theorem below is parametric in it. *)
Class Target : Type := mkTarget {
  MAX_VIRTUAL_REGS : Z;
  WORD_SIZE : Z;
  reads : InsnForm → nat → bool;
  writes : InsnForm → option nat
}.

Section Allocator.

Context {T : Target}.

(** Modelled from the spec: [ILOCInsn_get_read_registers], which is not
    part of the source file.  The instruction-set description says, per
    form, which operand slots are read; the result carries the operand
    of every read slot and an empty operand elsewhere. *)
Definition ILOCInsn_get_read_registers (insn : ILOCInsn) : list Operand :=
  (λ i, if reads (form insn) i then op insn i else empty_operand) <$> [0; 1; 2]%nat.

(** Modelled from the spec: [ILOCInsn_get_write_register], which is not
    part of the source file: the operand of the one slot the form
    writes, if it writes any. *)
Definition ILOCInsn_get_write_register (insn : ILOCInsn) : Operand :=
  match writes (form insn) with
  | Some i => op insn i
  | None => empty_operand
  end.

(** ** replace_register *)

Definition is_vr (vr : Z) (o : Operand) : bool :=
  bool_decide (type o = VIRTUAL_REG) && (id o =? vr).

Definition replace_operand (vr pr : Z) (o : Operand) : Operand :=
  if is_vr vr o then mkOperand PHYSICAL_REG pr (imm o) else o.

Definition replace_insn (vr pr : Z) (insn : ILOCInsn) : ILOCInsn :=
  mkInsn (form insn)
         (replace_operand vr pr (op0 insn))
         (replace_operand vr pr (op1 insn))
         (replace_operand vr pr (op2 insn))
         (next insn).

Definition replace_register (vr pr : Z) (insn : addr) (h : list ILOCInsn)
  : option (list ILOCInsn) :=
  i ← h !! insn;
  Some (<[insn := replace_insn vr pr i]> h).

(** ** insert_spill, insert_load, spill *)

Definition set_next (insn : ILOCInsn) (n : option addr) : ILOCInsn :=
  mkInsn (form insn) (op0 insn) (op1 insn) (op2 insn) n.

Definition set_op1_imm (insn : ILOCInsn) (v : Z) : ILOCInsn :=
  mkInsn (form insn) (op0 insn)
         (mkOperand (type (op1 insn)) (id (op1 insn)) v)
         (op2 insn) (next insn).

(** [new_insn->next = prev_insn->next; prev_insn->next = new_insn;]
    where [new_insn] is freshly allocated. *)
Definition insert_after (new_insn : ILOCInsn) (prev_insn : option addr)
    (h : list ILOCInsn) : option (list ILOCInsn) :=
  p ← prev_insn;
  pi ← h !! p;
  let a := length h in
  Some (<[p := set_next pi (Some a)]> (h ++ [set_next new_insn (next pi)])).

(** [int bp_offset = local_allocator->op[1].imm - WORD_SIZE;] is an
    [int] subtraction whose result is kept in an [int]. *)
Definition insert_spill (pr : Z) (prev_insn local_allocator : option addr)
    (h : list ILOCInsn) : option (Z * list ILOCInsn) :=
  la ← local_allocator;
  lai ← h !! la;
  let bp_offset := int_wrap (imm (op1 lai) - WORD_SIZE) in
  let h1 := <[la := set_op1_imm lai bp_offset]> h in
  let new_insn :=
    ILOCInsn_new_3op STORE_AI (physical_register pr) base_register (int_const bp_offset) in
  h2 ← insert_after new_insn prev_insn h1;
  Some (bp_offset, h2).

Definition insert_load (bp_offset pr : Z) (prev_insn : option addr)
    (h : list ILOCInsn) : option (list ILOCInsn) :=
  let new_insn :=
    ILOCInsn_new_3op LOAD_AI base_register (int_const bp_offset) (physical_register pr) in
  insert_after new_insn prev_insn h.

Definition spill (pr : Z) (prev_insn local_allocator : option addr) (st : state)
  : option state :=
  '(offset, h) ← insert_spill pr prev_insn local_allocator (heap st);
  vr ← arr_get (phys_reg_map st) pr;
  offs ← arr_set (offset_arr st) vr offset;
  map ← arr_set (phys_reg_map st) pr (-1);
  Some (mkState h map offs).

(** ** dist *)

Definition reads_vr (vr : Z) (insn : ILOCInsn) : bool :=
  existsb (is_vr vr) (ILOCInsn_get_read_registers insn).

(** The [while (search_insn)] loop.  A NULL-terminated chain inside a
    heap of [n] nodes has at most [n] nodes; [fuel] starts there. *)
Fixpoint dist_loop (fuel : nat) (h : list ILOCInsn) (vr : Z)
    (search_insn : option addr) (dist : Z) : option Z :=
  match search_insn with
  | None => Some MAX_VIRTUAL_REGS
  | Some a =>
    match fuel with
    | O => None
    | S fuel' =>
      i ← h !! a;
      if reads_vr vr i then Some dist
      else dist_loop fuel' h vr (next i) (dist + 1)
    end
  end.

Definition dist (h : list ILOCInsn) (vr : Z) (current_insn : addr) : option Z :=
  c ← h !! current_insn;
  dist_loop (length h) h vr (next c) 1.

(** ** allocate *)

(** [for (i = 0; i < n; i++) if (phys_reg_map[i] == x) return i;]
    over the indices [ixs]. *)
Fixpoint find_reg (map : list Z) (x : Z) (ixs : list Z) : option (option Z) :=
  match ixs with
  | [] => Some None
  | i :: ixs' =>
    v ← arr_get map i;
    if v =? x then Some (Some i) else find_reg map x ixs'
  end.

(** The loop that finds the register whose resident is used furthest
    away; [(max_pr, max_pr_dist)] is its pair of running variables. *)
Fixpoint find_max_dist (h : list ILOCInsn) (map : list Z) (current_insn : addr)
    (ixs : list Z) (max_pr max_pr_dist : Z) : option (Z * Z) :=
  match ixs with
  | [] => Some (max_pr, max_pr_dist)
  | i :: ixs' =>
    vr ← arr_get map i;
    current_dist ← dist h vr current_insn;
    if current_dist >? max_pr_dist
    then find_max_dist h map current_insn ixs' i current_dist
    else find_max_dist h map current_insn ixs' max_pr max_pr_dist
  end.

Definition set_map (st : state) (map : list Z) : state :=
  mkState (heap st) map (offset_arr st).

Definition set_heap (st : state) (h : list ILOCInsn) : state :=
  mkState h (phys_reg_map st) (offset_arr st).

Definition allocate (st : state) (num_physical_registers vr : Z)
    (current_insn : addr) (local_allocator_insn prev_insn : option addr)
  : option (Z * state) :=
  free ← find_reg (phys_reg_map st) (-1) (seqZ 0 num_physical_registers);
  match free with
  | Some i =>
    map ← arr_set (phys_reg_map st) i vr;
    Some (i, set_map st map)
  | None =>
    '(max_pr, _) ← find_max_dist (heap st) (phys_reg_map st) current_insn
                     (seqZ 0 num_physical_registers) (-1) (-1);
    st1 ← spill max_pr prev_insn local_allocator_insn st;
    map ← arr_set (phys_reg_map st1) max_pr vr;
    Some (max_pr, set_map st1 map)
  end.

(** ** ensure *)

Definition ensure (st : state) (num_physical_registers vr : Z)
    (current_insn : addr) (local_allocator_insn prev_insn : option addr)
  : option (Z * state) :=
  found ← find_reg (phys_reg_map st) vr (seqZ 0 num_physical_registers);
  match found with
  | Some i => Some (i, st)
  | None =>
    '(pr, st1) ← allocate st num_physical_registers vr current_insn
                   local_allocator_insn prev_insn;
    off ← arr_get (offset_arr st1) vr;
    if off =? -1 then Some (pr, st1)
    else
      h ← insert_load off pr prev_insn (heap st1);
      Some (pr, set_heap st1 h)
  end.

(** ** allocate_registers *)

(** The test that latches the frame allocator: a PUSH followed by an
    I2I followed by an ADD_I. *)
Definition find_local_allocator (h : list ILOCInsn) (insn : ILOCInsn)
    (local_allocator_insn : option addr) : option (option addr) :=
  if decide (form insn = PUSH) then
    match next insn with
    | None => Some local_allocator_insn
    | Some a1 =>
      i1 ← h !! a1;
      if decide (form i1 = I2I) then
        match next i1 with
        | None => Some local_allocator_insn
        | Some a2 =>
          i2 ← h !! a2;
          if decide (form i2 = ADD_I) then Some (Some a2)
          else Some local_allocator_insn
        end
      else Some local_allocator_insn
    end
  else Some local_allocator_insn.

(** The loop over the three read registers of one instruction. *)
Fixpoint process_reads (st : state) (num_physical_registers : Z) (insn : addr)
    (local_allocator_insn last_processed_insn : option addr)
    (read_regs : list Operand) : option state :=
  match read_regs with
  | [] => Some st
  | o :: rest =>
    if decide (type o = VIRTUAL_REG) then
      let vr := id o in
      '(pr, st1) ← ensure st num_physical_registers vr insn
                     local_allocator_insn last_processed_insn;
      h2 ← replace_register vr pr insn (heap st1);
      d ← dist h2 vr insn;
      st3 ← (if d =? MAX_VIRTUAL_REGS
             then map ← arr_set (phys_reg_map st1) pr (-1); Some (mkState h2 map (offset_arr st1))
             else Some (set_heap st1 h2));
      process_reads st3 num_physical_registers insn
                    local_allocator_insn last_processed_insn rest
    else
      process_reads st num_physical_registers insn
                    local_allocator_insn last_processed_insn rest
  end.

Definition process_write (st : state) (num_physical_registers : Z) (insn : addr)
    (local_allocator_insn last_processed_insn : option addr) : option state :=
  i ← heap st !! insn;
  let write_reg := ILOCInsn_get_write_register i in
  if decide (type write_reg = VIRTUAL_REG) then
    let vr := id write_reg in
    '(pr, st1) ← allocate st num_physical_registers vr insn
                   local_allocator_insn last_processed_insn;
    h2 ← replace_register vr pr insn (heap st1);
    Some (set_heap st1 h2)
  else Some st.

(** The loop that spills every resident register before a call. *)
Fixpoint spill_all (st : state) (local_allocator_insn last_processed_insn : option addr)
    (ixs : list Z) : option state :=
  match ixs with
  | [] => Some st
  | i :: ixs' =>
    v ← arr_get (phys_reg_map st) i;
    if v =? -1 then spill_all st local_allocator_insn last_processed_insn ixs'
    else
      st1 ← spill i last_processed_insn local_allocator_insn st;
      spill_all st1 local_allocator_insn last_processed_insn ixs'
  end.

Definition process_call (st : state) (num_physical_registers : Z) (insn : addr)
    (local_allocator_insn last_processed_insn : option addr) : option state :=
  i ← heap st !! insn;
  if decide (form i = CALL) then
    match last_processed_insn with
    | None => Some st
    | Some _ =>
      spill_all st local_allocator_insn last_processed_insn
                (seqZ 0 num_physical_registers)
    end
  else Some st.

(** The body of the FOR_EACH loop; it returns the state and the frame
    allocator in force after the instruction. *)
Definition process_insn (st : state) (num_physical_registers : Z) (insn : addr)
    (local_allocator_insn last_processed_insn : option addr)
  : option (state * option addr) :=
  i ← heap st !! insn;
  la ← find_local_allocator (heap st) i local_allocator_insn;
  st1 ← process_reads st num_physical_registers insn la last_processed_insn
          (ILOCInsn_get_read_registers i);
  st2 ← process_write st1 num_physical_registers insn la last_processed_insn;
  st3 ← process_call st2 num_physical_registers insn la last_processed_insn;
  Some (st3, la).

(** Modelled from the spec: [FOR_EACH(ILOCInsn *, insn, list)], a
    macro that is not part of src/, visits the stream in order: from
    [list->head], following [insn->next] after each body, until NULL.
    A NULL-terminated list inside a heap of [n] nodes has at most [n]
    nodes; [fuel] starts there. *)
Fixpoint allocate_loop (fuel : nat) (st : state) (num_physical_registers : Z)
    (local_allocator_insn last_processed_insn insn : option addr) : option state :=
  match insn with
  | None => Some st
  | Some a =>
    match fuel with
    | O => None
    | S fuel' =>
      '(st1, la) ← process_insn st num_physical_registers a
                     local_allocator_insn last_processed_insn;
      i ← heap st1 !! a;
      allocate_loop fuel' st1 num_physical_registers la (Some a) (next i)
    end
  end.

(** The line printed on stderr before [exit(1)]. *)
Definition no_registers_message : string :=
  "Error: no physical registers available for allocation
".

(** What a call of [allocate_registers] does to the process. *)
Inductive outcome : Type :=
  | Exit (status : Z) (stderr : string) (h : list ILOCInsn)
  | Returned (h : list ILOCInsn)
  | Undefined.

Definition initial_state (h : list ILOCInsn) (num_physical_registers : Z) : state :=
  mkState h (replicate (Z.to_nat num_physical_registers) (-1))
            (replicate (Z.to_nat MAX_VIRTUAL_REGS) (-1)).

Definition allocate_registers (h : list ILOCInsn) (list : option InsnList)
    (num_physical_registers : Z) : outcome :=
  if decide (num_physical_registers ≤ 0) then
    Exit 1 no_registers_message h
  else
    match list with
    | None => Returned h
    | Some l =>
      match allocate_loop (length h) (initial_state h num_physical_registers)
                          num_physical_registers None None (head l) with
      | Some st => Returned (heap st)
      | None => Undefined
      end
    end.

End Allocator.

(** ** Reading a stream back *)

(** The addresses of the nodes reached from [p] by [next], in order. *)
Fixpoint stream_addrs (fuel : nat) (h : list ILOCInsn) (p : option addr) : option (list addr) :=
  match p with
  | None => Some []
  | Some a =>
    match fuel with
    | O => None
    | S fuel' =>
      i ← h !! a;
      l ← stream_addrs fuel' h (next i);
      Some (a :: l)
    end
  end.

(** One instruction without its link: form and operands. *)
Definition insn_view : Type := (InsnForm * Operand * Operand * Operand)%type.

Definition view (i : ILOCInsn) : insn_view := (form i, op0 i, op1 i, op2 i).

Definition stream (h : list ILOCInsn) (p : option addr) : option (list insn_view) :=
  l ← stream_addrs (length h) h p;
  mapM (λ a, view <$> h !! a) l.

(** A stream laid out in a fresh heap: node [k] links to node [k+1]. *)
Fixpoint build_from (k : nat) (l : list insn_view) : list ILOCInsn :=
  match l with
  | [] => []
  | (f, a, b, c) :: l' =>
    mkInsn f a b c (match l' with [] => None | _ => Some (S k) end) :: build_from (S k) l'
  end.

Definition build (l : list insn_view) : list ILOCInsn := build_from 0 l.

Definition list_of (l : list insn_view) : option InsnList :=
  Some (mkList (match l with [] => None | _ => Some 0%nat end)).

(** ** The ILOC reading of the six named forms

    push r; i2i r1 => r2; addI r1, c => r2; call l;
    storeAI r1 => [r2 + c]; loadAI [r1 + c] => r2.  The other forms are
    left without register operands. *)
Definition iloc_reads (f : InsnForm) (i : nat) : bool :=
  match f, i with
  | PUSH, 0%nat | I2I, 0%nat | ADD_I, 0%nat | LOAD_AI, 0%nat => true
  | STORE_AI, 0%nat | STORE_AI, 1%nat => true
  | _, _ => false
  end.

Definition iloc_writes (f : InsnForm) : option nat :=
  match f with
  | I2I => Some 1%nat
  | ADD_I | LOAD_AI => Some 2%nat
  | _ => None
  end.

Definition iloc : Target := mkTarget 2048 8 iloc_reads iloc_writes.

Definition vreg (n : Z) : Operand := mkOperand VIRTUAL_REG n 0.
Definition E : Operand := empty_operand.
Definition BP : Operand := base_register.
Definition SP : Operand := mkOperand OTHER_OPERAND 0 0.
Definition prologue (frame : Z) : list insn_view :=
  [(PUSH, BP, E, E); (I2I, SP, BP, E); (ADD_I, SP, int_const frame, SP)].

Definition run (T : Target) (l : list insn_view) (n : Z) : option (list insn_view) :=
  match @allocate_registers T (build l) (list_of l) n with
  | Returned h => stream h (Some 0%nat)
  | _ => None
  end.

(** ** Example streams *)

Definition NOP : insn_view := (FORM 0, E, E, E).

(** A stream in which virtual register 1 is first read exactly [S m]
    instructions after its first instruction. *)
Definition far_use (f : InsnForm) (m : nat) : list insn_view :=
  NOP :: replicate m NOP ++ [(f, vreg 1, E, E)].

(** Four residents whose next uses lie 3, 7, 7 and 1 instructions after
    instruction 3, which needs a register for virtual register 99. *)
Definition ex_tie : list insn_view :=
  prologue 0 ++
  [ (LOAD_AI, BP, int_const 8, vreg 99);
    (PUSH, vreg 13, E, E);
    (CALL, E, E, E);
    (PUSH, vreg 10, E, E);
    NOP; NOP; NOP;
    (STORE_AI, vreg 11, vreg 12, int_const 0) ].

Definition st_tie : state :=
  mkState (build ex_tie) [10; 11; 12; 13] (replicate 2048 (-1)).

(** Virtual register 1 is written, lives across a call and is read
    after it. *)
Definition ex_call : list insn_view :=
  prologue 0 ++
  [ (LOAD_AI, BP, int_const 8, vreg 1);
    (CALL, E, E, E);
    (PUSH, vreg 1, E, E) ].

(** The same in a function whose frame already holds two words of
    local variables. *)
Definition ex_locals : list insn_view :=
  prologue (-16) ++
  [ (LOAD_AI, BP, int_const 8, vreg 1);
    (CALL, E, E, E);
    (PUSH, vreg 1, E, E) ].

(** Virtual register 1 lives across two calls. *)
Definition ex_twice : list insn_view :=
  prologue 0 ++
  [ (LOAD_AI, BP, int_const 8, vreg 1);
    (CALL, E, E, E);
    (PUSH, vreg 1, E, E);
    (CALL, E, E, E);
    (PUSH, vreg 1, E, E) ].

(** Virtual register 1 is written twice before it is read. *)
Definition ex_rewrite : list insn_view :=
  prologue 0 ++
  [ (LOAD_AI, BP, int_const 8, vreg 1);
    (LOAD_AI, BP, int_const 16, vreg 1);
    (PUSH, vreg 1, E, E) ].

(** Register 1 holds virtual register 3 when [storeAI r1 => [r3 + 0]]
    needs a register for virtual register 1, and virtual register 3 is
    the resident whose next use is furthest away. *)
Definition ex_evict : list insn_view :=
  prologue 0 ++
  [ (LOAD_AI, BP, int_const 8, vreg 1);
    (CALL, E, E, E);
    (LOAD_AI, BP, int_const 16, vreg 2);
    (LOAD_AI, BP, int_const 24, vreg 3);
    (STORE_AI, vreg 1, vreg 3, int_const 0);
    (PUSH, vreg 2, E, E);
    (PUSH, vreg 3, E, E) ].

(** Two writes and no frame allocator before them. *)
Definition ex_no_frame : list insn_view :=
  [ (LOAD_AI, BP, int_const 8, vreg 1);
    (LOAD_AI, BP, int_const 16, vreg 2) ].



(** Code that names physical registers only. *)
Definition ex_physical : list insn_view :=
  prologue (-8) ++
  [ (LOAD_AI, BP, int_const 8, physical_register 0);
    (CALL, E, E, E);
    (PUSH, physical_register 0, E, E) ].

(** Virtual registers 1 and 2 live across a call; the store after it
    reads both, and reads virtual register 1 for the last time. *)
Definition ex_last_use : list insn_view :=
  prologue 0 ++
  [ (LOAD_AI, BP, int_const 8, vreg 1);
    (LOAD_AI, BP, int_const 16, vreg 2);
    (CALL, E, E, E);
    (STORE_AI, vreg 1, vreg 2, int_const 0) ].

(** ** Linked lists in the heap *)

#[global] Instance ILOCInsn_inhabited : Inhabited ILOCInsn :=
  populate (ILOCInsn_new_3op (FORM 0) empty_operand empty_operand empty_operand).

(** [lseg h p l q]: following [next] from [p] visits exactly the
    addresses [l] and arrives at [q]. *)
Fixpoint lseg (h : list ILOCInsn) (p : option addr) (l : list addr) (q : option addr) : Prop :=
  match l with
  | [] => p = q
  | a :: l' => p = Some a ∧ ∃ i, h !! a = Some i ∧ lseg h (next i) l' q
  end.

Section Definitions.

Context {T : Target}.

(** Position of the first instruction of [l] that reads [vr]. *)
Fixpoint first_read (vr : Z) (l : list ILOCInsn) : option nat :=
  match l with
  | [] => None
  | i :: l' => if reads_vr vr i then Some 0%nat else S <$> first_read vr l'
  end.

(** ** Well-formed streams *)

(** The contents of the nodes at the addresses [l]. *)
Definition nodes (h : list ILOCInsn) (l : list addr) : list ILOCInsn := (h !!!.) <$> l.

Definition ops (i : ILOCInsn) : list Operand := [op0 i; op1 i; op2 i].

(** A virtual-register id the spill table has an entry for. *)
Definition id_ok (o : Operand) : Prop :=
  type o = VIRTUAL_REG → 0 ≤ id o < MAX_VIRTUAL_REGS.

Definition ids_ok (i : ILOCInsn) : Prop := Forall id_ok (ops i).

(** No operand is tagged as a virtual register. *)
Definition no_vr (i : ILOCInsn) : Prop := Forall (λ o, type o ≠ VIRTUAL_REG) (ops i).

(** Every virtual-register operand sits in a slot the form reads or
    writes. *)
Definition covered (i : ILOCInsn) : Prop :=
  ∀ s, (s < 3)%nat → type (op i s) = VIRTUAL_REG →
       reads (form i) s = true ∨ writes (form i) = Some s.

(** The instruction neither reads nor writes a virtual register. *)
Definition vr_free (i : ILOCInsn) : Prop :=
  Forall (λ o, type o ≠ VIRTUAL_REG) (ILOCInsn_get_read_registers i) ∧
  type (ILOCInsn_get_write_register i) ≠ VIRTUAL_REG.

Definition is_prologue (l : list ILOCInsn) : Prop :=
  match l with
  | i0 :: i1 :: i2 :: _ => form i0 = PUSH ∧ form i1 = I2I ∧ form i2 = ADD_I
  | _ => False
  end.

(** No virtual register is touched before the first PUSH, I2I, ADD_I
    triple has been seen (a stream that touches none at all qualifies). *)
Fixpoint safe_start (l : list ILOCInsn) : Prop :=
  match l with
  | [] => True
  | i :: l' => vr_free i ∧ (is_prologue (i :: l') ∨ safe_start l')
  end.

(** A well-formed stream: a NULL-terminated list whose virtual-register
    ids are below [MAX_VIRTUAL_REGS] and whose first use of a virtual
    register comes after a frame allocator has been seen.  With [strict]
    every virtual-register operand is moreover in a read or written
    slot of its instruction. *)
Definition well_formed (strict : Prop) (h : list ILOCInsn) (hd : option addr) : Prop :=
  ∃ l, lseg h hd l None ∧
       Forall ids_ok (nodes h l) ∧
       safe_start (nodes h l) ∧
       (strict → Forall covered (nodes h l)).

(** ** The loop of [allocate_registers], one iteration at a time *)

Record config : Type := mkConfig {
  c_state : state;
  c_local_allocator : option addr;
  c_last_processed : option addr;
  c_insn : option addr
}.

(** One iteration of FOR_EACH: [None] when the loop is over or the body
    does not return. *)
Definition loop_next (n : Z) (c : config) : option config :=
  a ← c_insn c;
  '(st1, la) ← process_insn (c_state c) n a (c_local_allocator c) (c_last_processed c);
  i ← heap st1 !! a;
  Some (mkConfig st1 la (Some a) (next i)).

Definition initial_config (h : list ILOCInsn) (l : InsnList) (n : Z) : config :=
  mkConfig (initial_state h n) None None (head l).

(** The configurations the loop goes through. *)
Inductive reaches (n : Z) (c : config) : config → Prop :=
  | reaches_refl : reaches n c c
  | reaches_step c1 c2 : reaches n c c1 → loop_next n c1 = Some c2 → reaches n c c2.

(** [k] iterations of the loop. *)
Fixpoint run_loop (k : nat) (n : Z) (c : config) : option config :=
  match k with
  | O => Some c
  | S k' => c1 ← loop_next n c; run_loop k' n c1
  end.

(** The registers that hold a virtual register, among [ixs]. *)
Definition residents (map : list Z) (ixs : list Z) : list Z :=
  filter (λ i, arr_get map i ≠ Some (-1)) ixs.

(** ** Invariants of the pass *)

(** Same tag and id: what [insert_spill] keeps of an operand when it
    writes the frame size into it. *)
Definition same_op (o o' : Operand) : Prop := type o = type o' ∧ id o = id o'.

Definition same_sig (i i' : ILOCInsn) : Prop :=
  form i = form i' ∧ same_op (op0 i) (op0 i') ∧
  same_op (op1 i) (op1 i') ∧ same_op (op2 i) (op2 i').

(** An operand as it was, or rewritten to a physical register. *)
Definition shrinks_op (o o' : Operand) : Prop := same_op o o' ∨ type o' = PHYSICAL_REG.

Definition shrinks (i i' : ILOCInsn) : Prop :=
  form i = form i' ∧ shrinks_op (op0 i) (op0 i') ∧
  shrinks_op (op1 i) (op1 i') ∧ shrinks_op (op2 i) (op2 i').

(** The heap while instruction [a] is processed, with [p] the last
    processed instruction and [l] the frame allocator: the stream is
    [d1], [p], the instructions [ins] inserted so far, [a], [rest];
    [i0] is what [a] was when its processing began. *)
Record heap_inv (strict : Prop) (hd : option addr) (d1 : list addr) (p a : addr)
    (rest : list addr) (l : addr) (i0 : ILOCInsn)
    (h : list ILOCInsn) (ins : list addr) : Prop := mkHeapInv {
  hi_done : lseg h hd (d1 ++ p :: ins) (Some a);
  hi_rest : lseg h (Some a) (a :: rest) None;
  hi_la : (l < length h)%nat;
  hi_cur : shrinks i0 (h !!! a);
  hi_ids : Forall ids_ok (nodes h rest);
  hi_strict : strict →
    Forall covered (nodes h rest) ∧ Forall no_vr (nodes h (d1 ++ p :: ins))
}.

(** The two working arrays: [n] registers, each free or holding an id
    the spill table has an entry for. *)
Record regs_inv (n : Z) (st : state) : Prop := mkRegsInv {
  ri_len : Z.of_nat (length (phys_reg_map st)) = n;
  ri_ids : Forall (λ v, v = -1 ∨ 0 ≤ v < MAX_VIRTUAL_REGS) (phys_reg_map st);
  ri_offs : MAX_VIRTUAL_REGS ≤ Z.of_nat (length (offset_arr st))
}.

(** No operand of [i] is virtual register [v]. *)
Definition gone (v : Z) (i : ILOCInsn) : Prop := ∀ s, is_vr v (op i s) = false.

Definition all_free (map : list Z) : Prop := Forall (λ v, v = -1) map.

(** The invariant of the FOR_EACH loop: [done] has been processed,
    [rest] is still to come.  Either a frame allocator is latched and
    some instruction has been processed, or no register is in use yet
    and the stream has not touched a virtual register so far. *)
Record loop_inv (strict : Prop) (hd : option addr) (n : Z) (c : config)
    (done rest : list addr) : Prop := mkLoopInv {
  li_done : lseg (heap (c_state c)) hd done (c_insn c);
  li_rest : lseg (heap (c_state c)) (c_insn c) rest None;
  li_prev : c_last_processed c = last done;
  li_regs : regs_inv n (c_state c);
  li_ids : Forall ids_ok (nodes (heap (c_state c)) rest);
  li_strict : strict →
    Forall covered (nodes (heap (c_state c)) rest) ∧
    Forall no_vr (nodes (heap (c_state c)) done);
  li_mode :
    (∃ l, c_local_allocator c = Some l ∧ (l < length (heap (c_state c)))%nat ∧ done ≠ []) ∨
    (all_free (phys_reg_map (c_state c)) ∧ safe_start (nodes (heap (c_state c)) rest))
}.

(** ** The frame reservation and the stores of the pass *)

(** [local_allocator->op[1].imm], the frame reservation. *)
Definition frame_imm (h : list ILOCInsn) (la : option addr) : Z :=
  match la with
  | Some l => imm (op1 (h !!! l))
  | None => 0
  end.

(** The offset [insert_spill] computes from a frame reservation of
    [frame]: one word below it, as an [int]. *)
Definition next_slot (frame : Z) : Z := int_wrap (frame - WORD_SIZE).

(** The frame reservation after [k] slots have been created below
    [frame]. *)
Definition nth_slot (k : nat) (frame : Z) : Z := Nat.iter k next_slot frame.

(** Number of store instructions among [L]. *)
Definition stores (L : list ILOCInsn) : nat :=
  length (filter (λ i, form i = STORE_AI) L).

(** The stores that spilling the registers [prs] one after the other
    creates, from a frame reservation of [frame]. *)
Fixpoint spill_stores (prs : list Z) (frame : Z) : list insn_view :=
  match prs with
  | [] => []
  | pr :: prs' =>
    (STORE_AI, physical_register pr, base_register, int_const (next_slot frame))
      :: spill_stores prs' (next_slot frame)
  end.

(** [h'] is [h] with nodes added: the nodes of [h] are as they were up
    to operands rewritten to physical registers, and the frame
    reservation of [la] went down by one word per store added, in
    [int] arithmetic. *)
Definition evolves (la : option addr) (h h' : list ILOCInsn) : Prop :=
  (length h ≤ length h')%nat ∧
  (∀ x, (x < length h)%nat → shrinks (h !!! x) (h' !!! x)) ∧
  (∀ l, la = Some l → (l < length h)%nat →
        frame_imm h' la
        = nth_slot (stores (drop (length h) h')) (frame_imm h la)).

(** Iterations of the loop during all of which [l] is the frame
    allocator in force. *)
Inductive reaches_latched (n : Z) (l : addr) : config → config → Prop :=
  | latched_refl c : reaches_latched n l c c
  | latched_step c c1 c' :
      loop_next n c = Some c1 → c_local_allocator c1 = Some l →
      reaches_latched n l c1 c' → reaches_latched n l c c'.

(** The spill table after some steps: an entry is as it was, or it
    names one of the slots created in between. *)
Definition offsets_rel (la : option addr) (st st' : state) : Prop :=
  match la with
  | None => offset_arr st' = offset_arr st
  | Some l =>
    (l < length (heap st))%nat → ∀ w,
      arr_get (offset_arr st') w = arr_get (offset_arr st) w ∨
      ∃ k, (1 ≤ k ≤ stores (drop (length (heap st)) (heap st')))%nat ∧
           arr_get (offset_arr st') w
           = Some (nth_slot k (frame_imm (heap st) la))
  end.

Definition tracks (la : option addr) (st st' : state) : Prop :=
  evolves la (heap st) (heap st') ∧ offsets_rel la st st'.


(** ** What the pass does to the code *)

(** Operand [s] of an instruction of form [f], before and after: its tag
    and id are as they were, or it was a virtual register and is now one
    of the [n] physical registers; its immediate is as it was, unless it
    is the constant of an ADD_I, where the frame reservation lives. *)
Definition allocated_op (n : Z) (f : InsnForm) (s : nat) (o o' : Operand) : Prop :=
  (same_op o o' ∨ (type o = VIRTUAL_REG ∧ type o' = PHYSICAL_REG ∧ 0 ≤ id o' < n)) ∧
  (imm o' = imm o ∨ (f = ADD_I ∧ s = 1%nat)).

Definition allocated_insn (n : Z) (i i' : ILOCInsn) : Prop :=
  form i' = form i ∧ ∀ s, allocated_op n (form i) s (op i s) (op i' s).

(** The instructions [insert_spill] and [insert_load] create, for one of
    the [n] physical registers. *)
Definition spill_code (n : Z) (i : ILOCInsn) : Prop :=
  ∃ pr off, 0 ≤ pr < n ∧
    (view i = (STORE_AI, physical_register pr, base_register, int_const off) ∨
     view i = (LOAD_AI, base_register, int_const off, physical_register pr)).

(** Of the addresses [l], those of the nodes [h] already holds. *)
Definition old_nodes (h : list ILOCInsn) (l : list addr) : list addr :=
  filter (λ x, (x < length h)%nat) l.

(** [h'] is [h] after some steps of the pass with [n] registers: the
    nodes of [h] are at their addresses, allocated; the nodes added are
    spill code; and every list of [h] is, in [h'], the same list with
    added nodes in between. *)
Definition grows (n : Z) (h h' : list ILOCInsn) : Prop :=
  (length h ≤ length h')%nat ∧
  (∀ x, (x < length h)%nat → allocated_insn n (h !!! x) (h' !!! x)) ∧
  (∀ x, (length h ≤ x < length h')%nat → spill_code n (h' !!! x)) ∧
  (∀ hd l, lseg h hd l None → ∃ l', lseg h' hd l' None ∧ old_nodes h l' = l).

(** [h'] has the nodes of [h], each with its form and with the tags and
    ids of its operands. *)
Definition keeps (h h' : list ILOCInsn) : Prop :=
  (length h ≤ length h')%nat ∧ ∀ x, (x < length h)%nat → same_sig (h !!! x) (h' !!! x).

(** ** One instruction and what follows it *)

(** The instruction [a], the instructions [l] after it, and the
    instruction [p] to insert after, which is not among them. *)
Record at_insn (a : addr) (l : list addr) (p : addr) (h : list ILOCInsn) : Prop := mkAtInsn {
  ai_seg : lseg h (Some a) (a :: l) None;
  ai_prev : (p < length h)%nat;
  ai_out : p ∉ a :: l
}.

(** The frame allocator, when there is one, is an ADD_I. *)
Definition frame_allocator_ok (h : list ILOCInsn) (la : option addr) : Prop :=
  ∀ l, la = Some l → form (h !!! l) = ADD_I.

End Definitions.

(** Proves the predicates above on a concrete instruction. *)
Ltac solve_insn_pred :=
  repeat match goal with
  | |- Forall _ _ => constructor
  | |- _ ∧ _ => split
  | |- ids_ok _ => unfold ids_ok, ops
  | |- id_ok _ => unfold id_ok; simpl; intros; try discriminate; lia
  | |- vr_free _ => unfold vr_free, ILOCInsn_get_read_registers, ILOCInsn_get_write_register
  | |- covered _ =>
      let s := fresh "s" in
      intros s ? ?; destruct s as [|[|[|s]]]; simpl in *; try discriminate; try lia; auto
  | |- _ ≠ _ => simpl; discriminate
  | |- True => exact I
  end.

(** Proves [lseg] on a concrete heap. *)
Ltac solve_lseg :=
  repeat (simpl; first [ reflexivity
                       | split; [reflexivity|]
                       | eexists; split; [reflexivity|] ]).

(** * Properties *)

Section Lseg.

Implicit Types (h : list ILOCInsn) (p q : option addr) (l : list addr).

Lemma lseg_app h p l1 l2 q :
  lseg h p (l1 ++ l2) q ↔ ∃ r, lseg h p l1 r ∧ lseg h r l2 q.
Proof.
  revert p. induction l1 as [|a l1 IH]; intros p; simpl.
  - split; [intros H; exists p; auto | intros (r & -> & H); auto].
  - split.
    + intros (-> & i & Hi & H). apply IH in H as (r & H1 & H2).
      exists r. split; auto. split; auto. exists i. auto.
    + intros (r & (-> & i & Hi & H1) & H2). split; auto.
      exists i. split; auto. apply IH. eauto.
Qed.

Lemma lseg_valid h p l q a :
  lseg h p l q → a ∈ l → (a < length h)%nat.
Proof.
  revert p. induction l as [|b l IH]; intros p; simpl.
  - intros _ Hin. inversion Hin.
  - intros (-> & i & Hi & H) Hin. apply elem_of_cons in Hin as [->|Hin].
    + eapply lookup_lt_Some; eauto.
    + eauto.
Qed.

(** Only the links of the visited nodes matter. *)
Lemma lseg_ext h h' p l q :
  (∀ a i, a ∈ l → h !! a = Some i → ∃ i', h' !! a = Some i' ∧ next i' = next i) →
  lseg h p l q → lseg h' p l q.
Proof.
  revert p. induction l as [|b l IH]; intros p Hext; simpl; auto.
  intros (-> & i & Hi & H). split; auto.
  destruct (Hext b i) as (i' & Hi' & Hn); [left | auto |].
  exists i'. split; auto. rewrite Hn. apply IH; auto.
  intros a j Ha. apply Hext. now right.
Qed.

Lemma lseg_functional h p l l' :
  lseg h p l None → lseg h p l' None → l = l'.
Proof.
  revert p l'. induction l as [|a l IH]; intros p [|a' l']; simpl; auto.
  - intros -> (? & _). discriminate.
  - intros (-> & _) ?. discriminate.
  - intros (-> & i & Hi & H) (Heq & i' & Hi' & H'). injection Heq as <-.
    rewrite Hi in Hi'. injection Hi' as <-. f_equal. eauto.
Qed.

(** A NULL-terminated list never visits a node twice. *)
Lemma lseg_NoDup h p l : lseg h p l None → NoDup l.
Proof.
  revert p. induction l as [|a l IH]; intros p; simpl.
  - intros _. constructor.
  - intros (-> & i & Hi & H). constructor; [|eauto].
    intros Hin. apply list_elem_of_split in Hin as (l1 & l2 & ->).
    pose proof H as H0.
    apply lseg_app in H as (r & H1 & H2). simpl in H2.
    destruct H2 as (-> & i' & Hi' & H2). rewrite Hi in Hi'. injection Hi' as <-.
    pose proof (lseg_functional _ _ _ _ H0 H2) as Heq.
    apply (f_equal length) in Heq. rewrite length_app in Heq. simpl in Heq. lia.
Qed.

Lemma NoDup_bounded_length l (n : nat) :
  NoDup l → (∀ a, a ∈ l → (a < n)%nat) → (length l ≤ n)%nat.
Proof.
  intros Hnd Hb.
  assert (l ⊆+ seq 0 n) as Hsub.
  { apply NoDup_submseteq; auto. intros a Ha. apply elem_of_seq. specialize (Hb a Ha). lia. }
  apply submseteq_length in Hsub. now rewrite length_seq in Hsub.
Qed.

Lemma lseg_length h p l : lseg h p l None → (length l ≤ length h)%nat.
Proof.
  intros H. apply NoDup_bounded_length; [eapply lseg_NoDup; eauto|].
  intros a Ha. eapply lseg_valid; eauto.
Qed.

Lemma stream_addrs_lseg fuel h p l :
  lseg h p l None → (length l ≤ fuel)%nat → stream_addrs fuel h p = Some l.
Proof.
  revert p l. induction fuel as [|fuel IH]; intros p [|a l]; simpl.
  - now intros ->.
  - lia.
  - now intros ->.
  - intros (-> & i & Hi & H) Hlen. rewrite Hi. simpl.
    rewrite (IH _ l); auto. lia.
Qed.

Lemma stream_lseg h p l :
  lseg h p l None → stream h p = Some (view <$> ((h !!!.) <$> l)).
Proof.
  intros H. unfold stream.
  rewrite (stream_addrs_lseg _ _ _ l) by eauto using lseg_length. simpl.
  apply mapM_Some. apply Forall2_fmap_r, Forall2_fmap_r.
  apply Forall_Forall2_diag, Forall_forall. intros a Ha.
  destruct (lookup_lt_is_Some_2 h a) as [i Hi]; [eapply lseg_valid; eauto|].
  unfold compose. rewrite Hi. simpl. f_equal. f_equal. symmetry. now apply list_lookup_total_correct.
Qed.

End Lseg.

(** ** Streams laid out by [build] *)

Lemma build_from_lseg (pfx : list ILOCInsn) (k : nat) (l : list insn_view) :
  length pfx = k →
  lseg (pfx ++ build_from k l) (match l with [] => None | _ => Some k end)
       (seq k (length l)) None.
Proof.
  revert pfx k. induction l as [|[[[f a] b] c] l IH]; intros pfx k Hk; simpl; auto.
  split; auto. eexists. split.
  { apply list_lookup_middle. auto. }
  simpl. specialize (IH (pfx ++ [mkInsn f a b c (match l with [] => None | _ => Some (S k) end)]) (S k)).
  rewrite <- app_assoc in IH. simpl in IH. apply IH.
  rewrite length_app. simpl. lia.
Qed.

Lemma build_lseg (l : list insn_view) :
  lseg (build l) (match l with [] => None | _ => Some 0%nat end) (seq 0 (length l)) None.
Proof. apply (build_from_lseg [] 0%nat l). reflexivity. Qed.

Lemma build_from_length k l : length (build_from k l) = length l.
Proof.
  revert k. induction l as [|[[[f a] b] c] l IH]; intros k; simpl; auto.
Qed.

Lemma build_from_lookup k l j f a b c :
  l !! j = Some (f, a, b, c) →
  ∃ n, build_from k l !! j = Some (mkInsn f a b c n).
Proof.
  revert k j. induction l as [|[[[f' a'] b'] c'] l IH]; intros k [|j]; simpl; try discriminate.
  - intros [= -> -> -> ->]. eauto.
  - intros H. eapply IH; eauto.
Qed.

(** ** [int] arithmetic *)

Lemma int_wrap_range z : INT_MIN ≤ int_wrap z ≤ INT_MAX.
Proof.
  unfold int_wrap, INT_MIN, INT_MAX.
  pose proof (Z.mod_pos_bound (z - -2147483648) 4294967296). lia.
Qed.

Lemma int_wrap_id z : INT_MIN ≤ z ≤ INT_MAX → int_wrap z = z.
Proof.
  unfold int_wrap, INT_MIN, INT_MAX. intros H.
  rewrite Z.mod_small by lia. lia.
Qed.

(** Below the least [int] the subtraction of [insert_spill] comes out
    at the other end of the range. *)
Lemma next_slot_wraps : @next_slot iloc INT_MIN = 2147483640.
Proof. reflexivity. Qed.

Section Properties.

Context {T : Target}.

(** While the reservation stays within [int], [k] slots lower it by
    [k] words. *)
Lemma nth_slot_exact (k : nat) frame :
  0 ≤ WORD_SIZE → frame ≤ INT_MAX → INT_MIN ≤ frame - WORD_SIZE * Z.of_nat k →
  nth_slot k frame = frame - WORD_SIZE * Z.of_nat k.
Proof.
  intros HW Hmax. unfold nth_slot. induction k as [|k IH]; intros Hmin.
  - simpl. lia.
  - simpl. rewrite IH by nia. unfold next_slot. rewrite int_wrap_id by nia. nia.
Qed.

Lemma nth_slot_add (j k : nat) frame :
  nth_slot (j + k) frame = nth_slot k (nth_slot j frame).
Proof.
  unfold nth_slot. rewrite Nat.add_comm. apply Nat.iter_add.
Qed.

(** ** What [dist] computes *)

Lemma dist_loop_spec fuel h vr p l d :
  lseg h p l None → (length l ≤ fuel)%nat →
  dist_loop fuel h vr p d =
    Some (match first_read vr ((h !!!.) <$> l) with
          | Some k => d + Z.of_nat k
          | None => MAX_VIRTUAL_REGS
          end).
Proof.
  revert p l d. induction fuel as [|fuel IH]; intros p [|a l] d; simpl.
  - now intros ->.
  - lia.
  - now intros ->.
  - intros (-> & i & Hi & H) Hlen. rewrite Hi. simpl.
    rewrite (list_lookup_total_correct _ _ _ Hi).
    destruct (reads_vr vr i).
    + f_equal. lia.
    + rewrite (IH _ l) by (auto; lia).
      destruct (first_read vr _); simpl; f_equal; lia.
Qed.

Lemma dist_spec h vr cur c l :
  h !! cur = Some c → lseg h (next c) l None →
  dist h vr cur =
    Some (match first_read vr ((h !!!.) <$> l) with
          | Some k => 1 + Z.of_nat k
          | None => MAX_VIRTUAL_REGS
          end).
Proof.
  intros Hc H. unfold dist. rewrite Hc. simpl.
  apply dist_loop_spec; eauto using lseg_length.
Qed.

Lemma first_read_Some vr l k :
  first_read vr l = Some k →
  (∃ i, l !! k = Some i ∧ reads_vr vr i = true) ∧
  (∀ j i, (j < k)%nat → l !! j = Some i → reads_vr vr i = false).
Proof.
  revert k. induction l as [|i l IH]; intros k; simpl; [discriminate|].
  destruct (reads_vr vr i) eqn:E.
  - intros [= <-]. split; [eauto|]. intros; lia.
  - destruct (first_read vr l) as [k'|]; simpl; [|discriminate].
    intros [= <-]. destruct (IH k' eq_refl) as [H1 H2]. split; auto.
    intros [|j] i' Hj; simpl; [now intros [= <-]|]. apply H2. lia.
Qed.

Lemma first_read_None vr l :
  first_read vr l = None → ∀ i, i ∈ l → reads_vr vr i = false.
Proof.
  induction l as [|i l IH]; simpl; intros H i' Hin; [inversion Hin|].
  destruct (reads_vr vr i) eqn:E; [discriminate|].
  destruct (first_read vr l); [discriminate|].
  apply elem_of_cons in Hin as [->|Hin]; auto.
Qed.

(** Whatever the heap, a distance is a step count from [1] on or the
    constant [MAX_VIRTUAL_REGS]. *)
Lemma dist_loop_range fuel h vr p d r :
  dist_loop fuel h vr p d = Some r → d ≤ r ∨ r = MAX_VIRTUAL_REGS.
Proof.
  revert p d. induction fuel as [|fuel IH]; intros [a|] d; simpl; try discriminate.
  - intros [= Hr]. right. congruence.
  - destruct (h !! a) as [i|]; simpl; [|discriminate].
    destruct (reads_vr vr i).
    + intros [= Hr]. left. lia.
    + intros H. apply IH in H as [H|H]; auto. left. lia.
  - intros [= Hr]. right. congruence.
Qed.

Lemma dist_range h vr cur r :
  dist h vr cur = Some r → 1 ≤ r ∨ r = MAX_VIRTUAL_REGS.
Proof.
  unfold dist. destruct (h !! cur); simpl; [|discriminate]. apply dist_loop_range.
Qed.

(** ** The two register searches *)

Lemma arr_get_Some (a : list Z) i v :
  arr_get a i = Some v ↔ 0 ≤ i ∧ a !! Z.to_nat i = Some v.
Proof. unfold arr_get. destruct (decide (0 ≤ i)); intuition congruence. Qed.

Lemma arr_get_length (a : list Z) i v :
  arr_get a i = Some v → 0 ≤ i < Z.of_nat (length a).
Proof.
  intros [? H]%arr_get_Some. apply lookup_lt_Some in H. lia.
Qed.

Lemma arr_get_is_Some (a : list Z) i :
  0 ≤ i < Z.of_nat (length a) → ∃ v, arr_get a i = Some v.
Proof.
  intros H. destruct (lookup_lt_is_Some_2 a (Z.to_nat i)) as [v Hv]; [lia|].
  exists v. apply arr_get_Some. split; [lia|auto].
Qed.

Lemma arr_set_Some (a : list Z) i v :
  0 ≤ i < Z.of_nat (length a) → arr_set a i v = Some (<[Z.to_nat i := v]> a).
Proof. intros H. unfold arr_set. now rewrite decide_True. Qed.

Lemma arr_set_inv (a a' : list Z) i v :
  arr_set a i v = Some a' → 0 ≤ i < Z.of_nat (length a) ∧ a' = <[Z.to_nat i := v]> a.
Proof. unfold arr_set. destruct (decide _); [|discriminate]. intros [= <-]. auto. Qed.

Lemma arr_get_set (a : list Z) i j v :
  0 ≤ i < Z.of_nat (length a) → 0 ≤ j →
  arr_get (<[Z.to_nat i := v]> a) j = if decide (i = j) then Some v else arr_get a j.
Proof.
  intros Hi Hj. unfold arr_get. destruct (decide (0 ≤ j)) as [_|]; [|lia].
  destruct (decide (i = j)) as [->|Hne].
  - apply list_lookup_insert_eq. lia.
  - apply list_lookup_insert_ne. lia.
Qed.

(** [find_reg] over [m, m+1, ..., m+len-1]: the least index holding [x]. *)
Lemma find_reg_seqZ (map : list Z) x m len :
  0 ≤ m → m + len ≤ Z.of_nat (length map) →
  (∃ i, find_reg map x (seqZ m len) = Some (Some i) ∧ m ≤ i < m + len ∧
        arr_get map i = Some x ∧
        ∀ j, m ≤ j < i → ∃ v, arr_get map j = Some v ∧ v ≠ x) ∨
  (find_reg map x (seqZ m len) = Some None ∧
   ∀ j, m ≤ j < m + len → ∃ v, arr_get map j = Some v ∧ v ≠ x).
Proof.
  remember (Z.to_nat len) as k eqn:Hk. revert m len Hk.
  induction k as [|k IH]; intros m len Hk Hm Hlen.
  - right. rewrite seqZ_nil by lia. simpl. split; auto. intros; lia.
  - rewrite seqZ_cons by lia. simpl.
    destruct (arr_get_is_Some map m) as [v Hv]; [lia|]. rewrite Hv. simpl.
    destruct (Z.eqb_spec v x) as [->|Hne].
    + left. exists m. repeat split; auto; try lia; intros; lia.
    + destruct (IH (Z.succ m) (Z.pred len)) as [(i & H1 & H2 & H3 & H4)|[H1 H2]]; try lia.
      * left. exists i. repeat split; auto; try lia.
        intros j Hj. destruct (decide (j = m)) as [->|]; [eauto|]. apply H4. lia.
      * right. split; auto.
        intros j Hj. destruct (decide (j = m)) as [->|]; [eauto|]. apply H2. lia.
Qed.

(** [find_max_dist] over [m, ..., m+len-1], when the residents'
    distances are [ds]: the running maximum moves to the first index
    whose distance exceeds everything before it. *)
Lemma find_max_dist_seqZ h (map : list Z) cur (ds : Z → Z) m len mp md :
  (∀ j, m ≤ j < m + len →
        ∃ v, arr_get map j = Some v ∧ dist h v cur = Some (ds j)) →
  ∃ mp' md', find_max_dist h map cur (seqZ m len) mp md = Some (mp', md') ∧
    (∀ j, m ≤ j < m + len → ds j ≤ md') ∧
    ((mp' = mp ∧ md' = md) ∨
     (m ≤ mp' < m + len ∧ ds mp' = md' ∧ md < md' ∧
      ∀ j, m ≤ j < mp' → ds j < md')).
Proof.
  remember (Z.to_nat len) as k eqn:Hk. revert m len mp md Hk.
  induction k as [|k IH]; intros m len mp md Hk Hds.
  - rewrite seqZ_nil by lia. simpl. exists mp, md. split; auto. split; [intros; lia|auto].
  - rewrite seqZ_cons by lia. simpl.
    destruct (Hds m) as (v & Hv & Hd); [lia|]. rewrite Hv. simpl. rewrite Hd. simpl.
    destruct (Z.gtb_spec (ds m) md) as [Hgt|Hle].
    + destruct (IH (Z.succ m) (Z.pred len) m (ds m)) as (mp' & md' & H1 & H2 & H3); [lia| |].
      { intros j Hj. apply Hds. lia. }
      exists mp', md'. split; auto.
      destruct H3 as [[-> ->]|(Hr & He & Hlt & Hfirst)].
      * split.
        { intros j Hj. destruct (decide (j = m)) as [->|]; [lia|]. apply H2. lia. }
        right. repeat split; auto; try lia; intros; lia.
      * split.
        { intros j Hj. destruct (decide (j = m)) as [->|]; [lia|]. apply H2. lia. }
        right. repeat split; auto; try lia.
        intros j Hj. destruct (decide (j = m)) as [->|]; [lia|]. apply Hfirst. lia.
    + destruct (IH (Z.succ m) (Z.pred len) mp md) as (mp' & md' & H1 & H2 & H3); [lia| |].
      { intros j Hj. apply Hds. lia. }
      exists mp', md'. split; auto.
      destruct H3 as [[-> ->]|(Hr & He & Hlt & Hfirst)].
      * split; [|auto].
        intros j Hj. destruct (decide (j = m)) as [->|]; [lia|]. apply H2. lia.
      * split.
        { intros j Hj. destruct (decide (j = m)) as [->|]; [lia|]. apply H2. lia. }
        right. repeat split; auto; try lia.
        intros j Hj. destruct (decide (j = m)) as [->|]; [lia|]. apply Hfirst. lia.
Qed.

End Properties.

Section Policy.

Context {T : Target}.

Lemma first_read_intro vr (l : list ILOCInsn) k i :
  l !! k = Some i → reads_vr vr i = true →
  (∀ j i', (j < k)%nat → l !! j = Some i' → reads_vr vr i' = false) →
  first_read vr l = Some k.
Proof.
  revert k. induction l as [|i0 l IH]; intros k Hk Hr Hbefore; [discriminate|].
  simpl. destruct k as [|k]; simpl in Hk.
  - injection Hk as ->. now rewrite Hr.
  - rewrite (Hbefore 0%nat i0) by (auto; lia).
    rewrite (IH k); auto. intros j i' Hj Hi'. apply (Hbefore (S j)); auto. lia.
Qed.

Lemma reads_vr_empty vr f n : reads_vr vr (mkInsn f E E E n) = false.
Proof.
  unfold reads_vr, ILOCInsn_get_read_registers. simpl.
  destruct (reads f 0), (reads f 1), (reads f 2); reflexivity.
Qed.

(** C7: [dist] answers [MAX_VIRTUAL_REGS] both when no later
    instruction reads the register and when the first one that reads it
    is exactly [MAX_VIRTUAL_REGS] steps away: in [far_use] the register
    is read at that step, and the step count returned is the value that
    stands for "no further use". *)
Theorem dist_sentinel_is_a_step_count (f : InsnForm) :
  1 ≤ MAX_VIRTUAL_REGS → reads f 0 = true →
  let l := far_use f (Z.to_nat (MAX_VIRTUAL_REGS - 1)) in
  let after := (build l !!!.) <$> seq 1 (length l - 1) in
  first_read 1 after = Some (Z.to_nat (MAX_VIRTUAL_REGS - 1)) ∧
  dist (build l) 1 0 = Some MAX_VIRTUAL_REGS.
Proof.
  intros HM Hf l after.
  set (m := Z.to_nat (MAX_VIRTUAL_REGS - 1)) in *.
  assert (Hm : Z.of_nat m = MAX_VIRTUAL_REGS - 1) by (unfold m; lia).
  clearbody m.
  assert (Hlen : length l = S (S m)).
  { unfold l, far_use. simpl. rewrite length_app, length_replicate. simpl. lia. }
  pose proof (build_lseg l) as Hseg. rewrite Hlen in Hseg.
  change (seq 0 (S (S m))) with (0%nat :: seq 1 (S m)) in Hseg.
  destruct Hseg as (_ & c & Hc & Hseg).
  assert (Hfirst : first_read 1 after = Some m).
  { unfold after. rewrite Hlen. replace (S (S m) - 1)%nat with (S m) by lia.
    destruct (build_from_lookup 0 l (S m) f (vreg 1) E E) as [n Hn].
    { unfold l, far_use. simpl.
      rewrite lookup_app_r by (rewrite length_replicate; lia).
      rewrite length_replicate. replace (m - m)%nat with 0%nat by lia. reflexivity. }
    apply first_read_intro with (mkInsn f (vreg 1) E E n).
    - rewrite list_lookup_fmap, lookup_seq_lt by lia. simpl.
      f_equal. apply list_lookup_total_correct. exact Hn.
    - unfold reads_vr, ILOCInsn_get_read_registers. simpl. rewrite Hf. reflexivity.
    - intros j i' Hj. rewrite list_lookup_fmap, lookup_seq_lt by lia.
      intros Hi'. assert (i' = build l !!! S j) as -> by (now injection Hi').
      destruct (build_from_lookup 0 l (S j) (FORM 0) E E E) as [n' Hn'].
      { unfold l, far_use. simpl. rewrite lookup_app_l by (rewrite length_replicate; lia).
        apply lookup_replicate_2. lia. }
      unfold build. rewrite (list_lookup_total_correct _ _ _ Hn').
      apply reads_vr_empty. }
  split; [exact Hfirst|].
  rewrite (dist_spec _ _ _ c (seq 1 (S m))) by auto.
  unfold after in Hfirst. rewrite Hlen in Hfirst.
  replace (S (S m) - 1)%nat with (S m) in Hfirst by lia.
  rewrite Hfirst. f_equal. lia.
Qed.

End Policy.

Lemma dist_sentinel_is_a_step_count_witness :
  1 ≤ @MAX_VIRTUAL_REGS iloc ∧ @reads iloc PUSH 0 = true ∧
  @dist iloc (build (far_use PUSH 2047)) 1 0 = Some 2048.
Proof.
  split; [vm_compute; discriminate|]. split; [reflexivity|].
  refine (proj2 (@dist_sentinel_is_a_step_count iloc PUSH _ _)).
  - vm_compute; discriminate.
  - reflexivity.
Defined.

Section AllocatePolicy.

Context {T : Target}.



End AllocatePolicy.



(** ** Operands and instructions up to rewriting *)

Section Signatures.

Context {T : Target}.

Lemma same_op_refl o : same_op o o.
Proof. split; reflexivity. Qed.

Lemma same_sig_refl i : same_sig i i.
Proof. repeat split; reflexivity. Qed.

Lemma shrinks_op_refl o : shrinks_op o o.
Proof. left. apply same_op_refl. Qed.

Lemma shrinks_refl i : shrinks i i.
Proof. repeat split; auto using shrinks_op_refl. Qed.

Lemma shrinks_op_trans o1 o2 o3 : shrinks_op o1 o2 → shrinks_op o2 o3 → shrinks_op o1 o3.
Proof.
  unfold shrinks_op, same_op. intros [[H1 H2]|H1] [[H3 H4]|H3]; auto.
  - left. split; congruence.
  - right. congruence.
Qed.

Lemma shrinks_trans i1 i2 i3 : shrinks i1 i2 → shrinks i2 i3 → shrinks i1 i3.
Proof.
  intros (F1 & A1 & B1 & C1) (F2 & A2 & B2 & C2).
  repeat split; eauto using shrinks_op_trans. congruence.
Qed.

Lemma same_sig_shrinks i i' : same_sig i i' → shrinks i i'.
Proof. intros (F & A & B & C). repeat split; auto; now left. Qed.

Lemma same_sig_set_op1_imm i v : same_sig i (set_op1_imm i v).
Proof. repeat split; reflexivity. Qed.

Lemma replace_operand_shrinks vr pr o : shrinks_op o (replace_operand vr pr o).
Proof.
  unfold replace_operand. destruct (is_vr vr o); [now right | apply shrinks_op_refl].
Qed.

Lemma shrinks_replace_insn vr pr i : shrinks i (replace_insn vr pr i).
Proof. repeat split; apply replace_operand_shrinks. Qed.

Lemma id_ok_shrinks o o' : shrinks_op o o' → id_ok o → id_ok o'.
Proof.
  unfold id_ok. intros [[Ht Hi]|Hp] H Hv; [|congruence].
  rewrite <- Hi. apply H. congruence.
Qed.

Lemma ids_ok_shrinks i i' : shrinks i i' → ids_ok i → ids_ok i'.
Proof.
  intros (_ & A & B & C). unfold ids_ok, ops. rewrite !Forall_cons.
  intros (H0 & H1 & H2 & _). eauto 10 using id_ok_shrinks.
Qed.

Lemma no_vr_shrinks i i' : shrinks i i' → no_vr i → no_vr i'.
Proof.
  assert (∀ o o', shrinks_op o o' → type o ≠ VIRTUAL_REG → type o' ≠ VIRTUAL_REG) as Hop.
  { intros o o' [[Ht _]|Hp]; congruence. }
  intros (_ & A & B & C). unfold no_vr, ops. rewrite !Forall_cons.
  intros (H0 & H1 & H2 & _). eauto 10.
Qed.

Lemma same_sig_op i i' s : same_sig i i' → same_op (op i s) (op i' s).
Proof. intros (_ & A & B & C). destruct s as [|[|s]]; auto. Qed.

Lemma shrinks_op_slot i i' s : shrinks i i' → shrinks_op (op i s) (op i' s).
Proof. intros (_ & A & B & C). destruct s as [|[|s]]; auto. Qed.

Lemma covered_same_sig i i' : same_sig i i' → covered i → covered i'.
Proof.
  intros Hs Hc s Hlt Hv. destruct (same_sig_op i i' s Hs) as [Ht _].
  destruct Hs as (F & _). rewrite <- F. apply Hc; auto. congruence.
Qed.

Lemma read_registers_same_sig i i' :
  same_sig i i' →
  Forall2 same_op (ILOCInsn_get_read_registers i) (ILOCInsn_get_read_registers i').
Proof.
  intros Hs. pose proof Hs as (F & A & B & C).
  unfold ILOCInsn_get_read_registers. simpl. rewrite <- F.
  constructor; [|constructor; [|constructor; [|constructor]]];
    (destruct (reads (form i) _); [assumption | apply same_op_refl]).
Qed.

Lemma vr_free_same_sig i i' : same_sig i i' → vr_free i → vr_free i'.
Proof.
  intros Hs [Hr Hw]. split.
  - pose proof (read_registers_same_sig i i' Hs) as H2.
    revert Hr. generalize dependent (ILOCInsn_get_read_registers i').
    induction (ILOCInsn_get_read_registers i) as [|o os IH]; intros os' H2 Hr;
      inversion H2; subst; constructor.
    + inversion Hr; subst. destruct H1 as [Ht _]. congruence.
    + inversion Hr; subst. auto.
  - unfold ILOCInsn_get_write_register in *. pose proof Hs as (F & _).
    rewrite <- F. destruct (writes (form i)) as [s|]; [|exact Hw].
    destruct (same_sig_op i i' s Hs) as [Ht _]. congruence.
Qed.

End Signatures.

(** ** Heap updates that keep the stream in shape *)

Section HeapInv.

Context {T : Target}.

Lemma Forall_nodes_impl (P Q : ILOCInsn → Prop) h h' (L : list addr) :
  (∀ y, y ∈ L → P (h !!! y) → Q (h' !!! y)) →
  Forall P (nodes h L) → Forall Q (nodes h' L).
Proof.
  unfold nodes. rewrite !Forall_fmap, !Forall_forall. intros H HP y Hy.
  simpl. apply H; auto. apply (HP y Hy).
Qed.

Lemma lseg_insert h hd d1 p ins q new pi :
  lseg h hd (d1 ++ p :: ins) q → p ∉ d1 → p ∉ ins → h !! p = Some pi →
  lseg (<[p := set_next pi (Some (length h))]> (h ++ [set_next new (next pi)]))
       hd (d1 ++ p :: length h :: ins) q.
Proof.
  intros Hseg Hd1 Hins Hp.
  pose proof (lookup_lt_Some _ _ _ Hp) as Hplt.
  assert (Hold : ∀ y i, (y ∈ d1 ∨ y ∈ ins) → h !! y = Some i →
            ∃ i', (<[p := set_next pi (Some (length h))]> (h ++ [set_next new (next pi)])) !! y
                  = Some i' ∧ next i' = next i).
  { intros y i Hy Hi. exists i. split; auto.
    rewrite list_lookup_insert_ne by (intros ->; tauto).
    rewrite lookup_app_l by (eapply lookup_lt_Some; eauto). auto. }
  apply lseg_app in Hseg as (r & H1 & H2). simpl in H2.
  destruct H2 as (-> & i & Hi & H2). rewrite Hp in Hi. injection Hi as <-.
  apply lseg_app. exists (Some p). split.
  { eapply lseg_ext; [|exact H1]. intros y i Hy. apply Hold. auto. }
  simpl. split; auto. eexists. split.
  { apply list_lookup_insert_eq. rewrite length_app. simpl. lia. }
  simpl. split; auto. eexists. split.
  { rewrite list_lookup_insert_ne by lia. apply list_lookup_middle. reflexivity. }
  simpl. eapply lseg_ext; [|exact H2]. intros y i Hy. apply Hold. auto.
Qed.

Section Fixed.

Variables (strict : Prop) (hd : option addr) (d1 : list addr) (p a : addr)
          (rest : list addr) (l : addr).

Abbreviation hinv := (heap_inv strict hd d1 p a rest l).

Lemma heap_inv_chain i0 h ins :
  hinv i0 h ins → lseg h hd (d1 ++ p :: ins ++ a :: rest) None.
Proof.
  intros [Hd Hr _ _ _ _].
  replace (d1 ++ p :: ins ++ a :: rest) with ((d1 ++ p :: ins) ++ a :: rest)
    by (rewrite <- app_assoc; reflexivity).
  apply lseg_app. eauto.
Qed.

Lemma heap_inv_NoDup i0 h ins :
  hinv i0 h ins → NoDup (d1 ++ p :: ins ++ a :: rest).
Proof. intros H. eapply lseg_NoDup, heap_inv_chain; eauto. Qed.

Lemma heap_inv_valid i0 h ins y :
  hinv i0 h ins → y ∈ d1 ++ p :: ins ++ a :: rest → (y < length h)%nat.
Proof. intros H. eapply lseg_valid, heap_inv_chain; eauto. Qed.

Lemma heap_inv_cur i0 h ins :
  hinv i0 h ins → ∃ i, h !! a = Some i ∧ h !!! a = i ∧ shrinks i0 i ∧ lseg h (next i) rest None.
Proof.
  intros [_ Hr _ Hc _ _]. simpl in Hr. destruct Hr as (_ & i & Hi & Hr).
  exists i. rewrite (list_lookup_total_correct _ _ _ Hi) in Hc.
  split; [auto|]. split; [now apply list_lookup_total_correct|]. split; auto.
Qed.

Lemma heap_inv_prev i0 h ins : hinv i0 h ins → ∃ pi, h !! p = Some pi.
Proof.
  intros H. apply lookup_lt_is_Some_2. eapply heap_inv_valid; eauto.
  rewrite elem_of_app, elem_of_cons. auto.
Qed.

Lemma heap_inv_a_fresh i0 h ins :
  hinv i0 h ins →
  (a ∉ rest) ∧ (a ∉ d1 ++ p :: ins) ∧ (p ∉ d1) ∧ (p ∉ ins) ∧ (p ∉ a :: rest).
Proof.
  intros H. pose proof (heap_inv_NoDup _ _ _ H) as Hnd.
  apply NoDup_app in Hnd as (_ & Hd1 & Hnd).
  apply NoDup_cons in Hnd as (Hp & Hnd).
  apply NoDup_app in Hnd as (_ & Hins & Hnd).
  apply NoDup_cons in Hnd as (Ha & _).
  rewrite elem_of_app in Hp.
  repeat split; auto.
  - rewrite elem_of_app, elem_of_cons. intros [Hin|[->|Hin]].
    + apply (Hd1 a Hin). rewrite elem_of_cons, elem_of_app, elem_of_cons. auto.
    + apply Hp. right. left.
    + apply (Hins a Hin). left.
  - intros Hin. apply (Hd1 p Hin). left.
Qed.

(** Rewriting the contents of one node, links untouched. *)
Lemma heap_inv_update i0 h ins x i i' :
  hinv i0 h ins → h !! x = Some i → next i' = next i → shrinks i i' →
  (x ≠ a → same_sig i i') →
  hinv i0 (<[x := i']> h) ins.
Proof.
  intros H Hx Hn Hsh Hsig.
  pose proof (lookup_lt_Some _ _ _ Hx) as Hxlt.
  destruct (heap_inv_a_fresh _ _ _ H) as (Ha & _).
  assert (Hlk : ∀ y j, h !! y = Some j →
            ∃ j', <[x := i']> h !! y = Some j' ∧ next j' = next j).
  { intros y j Hy. destruct (decide (y = x)) as [->|Hne].
    - exists i'. rewrite list_lookup_insert_eq by auto. split; congruence.
    - exists j. now rewrite list_lookup_insert_ne by auto. }
  assert (Htot : ∀ y, <[x := i']> h !!! y = if decide (y = x) then i' else h !!! y).
  { intros y. destruct (decide (y = x)) as [->|Hne].
    - apply list_lookup_total_correct, list_lookup_insert_eq. auto.
    - now rewrite list_lookup_total_insert_ne by auto. }
  assert (Hx' : h !!! x = i) by now apply list_lookup_total_correct.
  destruct H as [Hd Hr Hl Hc Hi Hs]. split.
  - eapply lseg_ext; [|exact Hd]. intros; eauto.
  - eapply lseg_ext; [|exact Hr]. intros; eauto.
  - now rewrite length_insert.
  - rewrite Htot. destruct (decide (a = x)) as [->|]; auto.
    rewrite Hx' in Hc. eapply shrinks_trans; eauto.
  - eapply Forall_nodes_impl; [|exact Hi]. intros y Hy. rewrite Htot.
    destruct (decide (y = x)) as [->|]; auto. rewrite Hx'.
    apply ids_ok_shrinks. auto.
  - intros Hst. destruct (Hs Hst) as [Hcov Hnv]. split.
    + eapply Forall_nodes_impl; [|exact Hcov]. intros y Hy. rewrite Htot.
      destruct (decide (y = x)) as [->|]; auto. rewrite Hx'.
      apply covered_same_sig, Hsig. intros ->. tauto.
    + eapply Forall_nodes_impl; [|exact Hnv]. intros y Hy. rewrite Htot.
      destruct (decide (y = x)) as [->|]; auto. rewrite Hx'.
      now apply no_vr_shrinks.
Qed.

(** Linking a fresh node after [p]. *)
Lemma heap_inv_insert i0 h ins new pi :
  hinv i0 h ins → no_vr new → h !! p = Some pi →
  hinv i0 (<[p := set_next pi (Some (length h))]> (h ++ [set_next new (next pi)]))
       (length h :: ins).
Proof.
  intros H Hnew Hp.
  pose proof (lookup_lt_Some _ _ _ Hp) as Hplt.
  destruct (heap_inv_a_fresh _ _ _ H) as (Ha & Ha' & Hpd1 & Hpins & Hprest).
  set (h' := <[p := set_next pi (Some (length h))]> (h ++ [set_next new (next pi)])).
  assert (Hold : ∀ y, (y < length h)%nat → y ≠ p → h' !! y = h !! y).
  { intros y Hy Hne. unfold h'. rewrite list_lookup_insert_ne by auto.
    now rewrite lookup_app_l. }
  assert (Htot : ∀ y, (y < length h)%nat → y ≠ p → h' !!! y = h !!! y).
  { intros y Hy Hne. rewrite !list_lookup_total_alt, Hold; auto. }
  assert (Hvalid : ∀ y, y ∈ d1 ++ p :: ins ++ a :: rest → (y < length h)%nat).
  { intros y. eapply heap_inv_valid; eauto. }
  assert (Hext : ∀ L, (∀ y, y ∈ L → (y < length h)%nat ∧ y ≠ p) →
            ∀ q q', lseg h q L q' → lseg h' q L q').
  { intros L HL q q'. apply lseg_ext. intros y i Hy Hi.
    destruct (HL y Hy). exists i. now rewrite Hold. }
  assert (Hrest : ∀ y, y ∈ a :: rest → (y < length h)%nat ∧ y ≠ p).
  { intros y Hy. split.
    - apply Hvalid. rewrite elem_of_app, elem_of_cons, elem_of_app. auto.
    - intros ->. tauto. }
  destruct H as [Hd Hr Hl Hc Hi Hs]. split.
  - apply lseg_insert; auto.
  - apply Hext; auto.
  - unfold h'. rewrite length_insert, length_app. lia.
  - rewrite Htot; auto; apply Hrest; left.
  - eapply Forall_nodes_impl; [|exact Hi]. intros y Hy.
    rewrite Htot; auto; apply Hrest; now right.
  - intros Hst. destruct (Hs Hst) as [Hcov Hnv]. split.
    + eapply Forall_nodes_impl; [|exact Hcov]. intros y Hy.
      rewrite Htot; auto; apply Hrest; now right.
    + unfold nodes in *. rewrite fmap_app, fmap_cons, Forall_app, Forall_cons in Hnv.
      destruct Hnv as (N1 & N2 & N3).
      rewrite fmap_app, !fmap_cons, Forall_app, !Forall_cons. repeat split.
      * eapply (Forall_nodes_impl _ _ h h' d1); [|exact N1]. intros y Hy.
        rewrite Htot; auto.
        -- apply Hvalid. rewrite elem_of_app. auto.
        -- intros ->. tauto.
      * assert (h' !!! p = set_next pi (Some (length h))) as ->.
        { apply list_lookup_total_correct. unfold h'.
          apply list_lookup_insert_eq. rewrite length_app. simpl. lia. }
        rewrite (list_lookup_total_correct _ _ _ Hp) in N2. exact N2.
      * assert (h' !!! length h = set_next new (next pi)) as ->.
        { apply list_lookup_total_correct. unfold h'.
          rewrite list_lookup_insert_ne by lia. now apply list_lookup_middle. }
        exact Hnew.
      * eapply (Forall_nodes_impl _ _ h h' ins); [|exact N3]. intros y Hy.
        rewrite Htot; auto.
        -- apply Hvalid. rewrite elem_of_app, elem_of_cons, elem_of_app. auto.
        -- intros ->. tauto.
Qed.

End Fixed.

End HeapInv.

(** ** What each function of the allocator keeps *)

Section Operations.

Context {T : Target}.

Variables (strict : Prop) (hd : option addr) (d1 : list addr) (p a : addr)
          (rest : list addr) (l : addr) (n : Z).

Hypothesis n_pos : 1 ≤ n.

Abbreviation hinv' := (heap_inv strict hd d1 p a rest l).

Lemma heap_inv_rebase i0 h ins : hinv' i0 h ins → hinv' (h !!! a) h ins.
Proof. intros [? ? ? ? ? ?]. split; auto using shrinks_refl. Qed.

Lemma heap_inv_base i0 i1 h ins : shrinks i0 i1 → hinv' i1 h ins → hinv' i0 h ins.
Proof. intros Hs [? ? ? ? ? ?]. split; eauto using shrinks_trans. Qed.

Lemma insert_after_spec i0 h ins new :
  hinv' i0 h ins → no_vr new →
  ∃ h', insert_after new (Some p) h = Some h' ∧ hinv' i0 h' (length h :: ins).
Proof.
  intros H Hnew. destruct (heap_inv_prev _ _ _ _ _ _ _ _ _ _ H) as [pi Hp].
  unfold insert_after. simpl. rewrite Hp. simpl. eexists. split; [reflexivity|].
  apply heap_inv_insert; auto.
Qed.

Lemma insert_load_spec i0 h ins off pr :
  hinv' i0 h ins →
  ∃ h', insert_load off pr (Some p) h = Some h' ∧ hinv' i0 h' (length h :: ins).
Proof.
  intros H. apply insert_after_spec; auto.
  repeat constructor; simpl; discriminate.
Qed.

Lemma insert_spill_spec i0 h ins pr :
  hinv' i0 h ins →
  ∃ off h', insert_spill pr (Some p) (Some l) h = Some (off, h') ∧
            hinv' i0 h' (length h :: ins).
Proof.
  intros H.
  destruct (lookup_lt_is_Some_2 h l) as [li Hl]; [apply H|].
  set (off := int_wrap (imm (op1 li) - WORD_SIZE)).
  assert (Heq : insert_spill pr (Some p) (Some l) h =
                (h2 ← insert_after (ILOCInsn_new_3op STORE_AI (physical_register pr)
                                      base_register (int_const off))
                                   (Some p) (<[l := set_op1_imm li off]> h);
                 Some (off, h2))).
  { unfold insert_spill. simpl. rewrite Hl. reflexivity. }
  rewrite Heq. clear Heq.
  assert (H1 : hinv' i0 (<[l := set_op1_imm li off]> h) ins).
  { eapply heap_inv_update; eauto.
    - apply same_sig_shrinks, same_sig_set_op1_imm.
    - intros _. apply same_sig_set_op1_imm. }
  destruct (insert_after_spec i0 _ ins
              (ILOCInsn_new_3op STORE_AI (physical_register pr) base_register (int_const off)) H1)
    as (h' & Hh' & H').
  { repeat constructor; simpl; discriminate. }
  rewrite Hh'. simpl. rewrite length_insert in H'. eauto.
Qed.

Lemma regs_inv_lookup st i :
  regs_inv n st → 0 ≤ i < n →
  ∃ v, arr_get (phys_reg_map st) i = Some v ∧ (v = -1 ∨ 0 ≤ v < MAX_VIRTUAL_REGS).
Proof.
  intros [Hlen Hids _] Hi.
  destruct (arr_get_is_Some (phys_reg_map st) i) as [v Hv]; [lia|].
  exists v. split; auto.
  apply arr_get_Some in Hv as [_ Hv].
  rewrite Forall_forall in Hids. apply Hids. eapply list_elem_of_lookup_2; eauto.
Qed.

Lemma regs_inv_set_map st i v :
  regs_inv n st → 0 ≤ i < n → (v = -1 ∨ 0 ≤ v < MAX_VIRTUAL_REGS) →
  ∃ map, arr_set (phys_reg_map st) i v = Some map ∧
         map = <[Z.to_nat i := v]> (phys_reg_map st) ∧
         ∀ h offs, Z.of_nat (length offs) = Z.of_nat (length (offset_arr st)) →
                   regs_inv n (mkState h map offs).
Proof.
  intros [Hlen Hids Hoffs] Hi Hv. eexists. split; [apply arr_set_Some; lia|].
  split; [reflexivity|]. intros h offs Ho. split; simpl.
  - now rewrite length_insert.
  - apply Forall_insert; auto.
  - lia.
Qed.

Lemma spill_spec i0 st ins pr v :
  hinv' i0 (heap st) ins → regs_inv n st → 0 ≤ pr < n →
  arr_get (phys_reg_map st) pr = Some v → v ≠ -1 →
  ∃ st', spill pr (Some p) (Some l) st = Some st' ∧
         hinv' i0 (heap st') (length (heap st) :: ins) ∧ regs_inv n st' ∧
         phys_reg_map st' = <[Z.to_nat pr := -1]> (phys_reg_map st).
Proof.
  intros H R Hpr Hv Hne.
  destruct (insert_spill_spec i0 _ ins pr H) as (off & h' & Hsp & H').
  unfold spill. rewrite Hsp. simpl. rewrite Hv. simpl.
  destruct (regs_inv_lookup st pr R Hpr) as (v' & Hv' & Hrange).
  rewrite Hv in Hv'. injection Hv' as <-.
  pose proof R as [Hlen Hids Hoffs].
  rewrite (arr_set_Some (offset_arr st) v off) by lia. simpl.
  destruct (regs_inv_set_map st pr (-1) R Hpr) as (map & Hmap & -> & HR); [auto|].
  rewrite Hmap. simpl. eexists. split; [reflexivity|]. simpl.
  split; [exact H'|]. split; [|reflexivity]. apply HR. now rewrite length_insert.
Qed.

Lemma dist_total i0 h ins vr : hinv' i0 h ins → ∃ d, dist h vr a = Some d.
Proof.
  intros H. destruct (heap_inv_cur _ _ _ _ _ _ _ _ _ _ H) as (i & Hi & _ & _ & Hr).
  erewrite dist_spec; eauto.
Qed.

Lemma allocate_spec i0 st ins vr :
  hinv' i0 (heap st) ins → regs_inv n st → 0 ≤ vr < MAX_VIRTUAL_REGS →
  ∃ pr st' ins', allocate st n vr a (Some l) (Some p) = Some (pr, st') ∧
                 hinv' i0 (heap st') ins' ∧ regs_inv n st' ∧ 0 ≤ pr < n.
Proof.
  intros H R Hvr. pose proof R as [Hlen Hids Hoffs]. unfold allocate.
  destruct (find_reg_seqZ (phys_reg_map st) (-1) 0 n) as [(i & Hf & Hi & _)|[Hf Hnone]];
    [lia | lia | |]; rewrite Hf; simpl.
  - destruct (regs_inv_set_map st i vr R) as (map & Hmap & _ & HR); [lia | auto |].
    rewrite Hmap. simpl. exists i, (set_map st map), ins.
    split; [reflexivity|]. split; [exact H|]. split; [|lia]. apply HR. reflexivity.
  - set (ds := λ j, default 0 (v ← arr_get (phys_reg_map st) j; dist (heap st) v a)).
    destruct (find_max_dist_seqZ (heap st) (phys_reg_map st) a ds 0 n (-1) (-1))
      as (mp & md & Hfm & Hall & Hcase).
    { intros j Hj. destruct (Hnone j) as (v & Hv & _); [lia|]. exists v. split; auto.
      unfold ds. rewrite Hv. simpl. destruct (dist_total i0 _ ins v H) as [d ->]. reflexivity. }
    rewrite Hfm. simpl.
    destruct Hcase as [[-> ->]|(Hmp & _)].
    + (* register 0 holds an id, and its distance beats the initial -1 *)
      exfalso. destruct (Hnone 0) as (v & Hv & Hne); [lia|].
      destruct (regs_inv_lookup st 0 R) as (v' & Hv' & Hrange); [lia|].
      rewrite Hv in Hv'. injection Hv' as <-.
      specialize (Hall 0). unfold ds in Hall. rewrite Hv in Hall. simpl in Hall.
      destruct (dist_total i0 _ ins v H) as [d Hd]. rewrite Hd in Hall. simpl in Hall.
      apply dist_range in Hd. lia.
    + destruct (Hnone mp) as (v & Hv & Hne); [lia|].
      destruct (spill_spec i0 st ins mp v H R ltac:(lia) Hv Hne) as (st1 & Hsp & H1 & R1 & Hmap1).
      rewrite Hsp. simpl.
      destruct (regs_inv_set_map st1 mp vr R1) as (map & Hmap & _ & HR); [lia | auto |].
      rewrite Hmap. simpl. eexists mp, _, _.
      split; [reflexivity|]. split; [exact H1|]. split; [|lia]. apply HR. reflexivity.
Qed.

Lemma regs_inv_set_heap st h : regs_inv n st → regs_inv n (set_heap st h).
Proof. intros [? ? ?]. split; auto. Qed.

Lemma ensure_spec i0 st ins vr :
  hinv' i0 (heap st) ins → regs_inv n st → 0 ≤ vr < MAX_VIRTUAL_REGS →
  ∃ pr st' ins', ensure st n vr a (Some l) (Some p) = Some (pr, st') ∧
                 hinv' i0 (heap st') ins' ∧ regs_inv n st' ∧ 0 ≤ pr < n.
Proof.
  intros H R Hvr. pose proof R as [Hlen Hids Hoffs]. unfold ensure.
  destruct (find_reg_seqZ (phys_reg_map st) vr 0 n) as [(i & Hf & Hi & _)|[Hf Hnone]];
    [lia | lia | |]; rewrite Hf; cbn [mbind option_bind].
  - exists i, st, ins. split; [reflexivity|]. split; [exact H|]. split; [exact R|lia].
  - destruct (allocate_spec i0 st ins vr H R Hvr) as (pr & st1 & ins1 & Ha & H1 & R1 & Hpr).
    rewrite Ha. cbn [mbind option_bind].
    destruct (arr_get_is_Some (offset_arr st1) vr) as [off Hoff].
    { destruct R1 as [_ _ Ho]. lia. }
    rewrite Hoff. cbn [mbind option_bind]. destruct (off =? -1).
    + exists pr, st1, ins1. auto.
    + destruct (insert_load_spec i0 _ ins1 off pr H1) as (h & Hh & H2).
      rewrite Hh. cbn [mbind option_bind]. eexists pr, _, _. split; [reflexivity|].
      split; [exact H2|]. split; [now apply regs_inv_set_heap|lia].
Qed.

Lemma gone_replace v pr i : gone v (replace_insn v pr i).
Proof.
  assert (∀ o, is_vr v (replace_operand v pr o) = false) as Hop.
  { intros o. unfold replace_operand. destruct (is_vr v o) eqn:E; auto. }
  intros [|[|s]]; apply Hop.
Qed.

Lemma gone_shrinks v i i' : shrinks i i' → gone v i → gone v i'.
Proof.
  intros Hs Hg s. specialize (Hg s).
  destruct (shrinks_op_slot i i' s Hs) as [[Ht Hi]|Hp].
  - unfold is_vr in *. now rewrite <- Ht, <- Hi.
  - unfold is_vr. rewrite Hp. reflexivity.
Qed.

Lemma ids_ok_op i s : ids_ok i → id_ok (op i s).
Proof.
  unfold ids_ok, ops. rewrite !Forall_cons. intros (H0 & H1 & H2 & _).
  destruct s as [|[|s]]; auto.
Qed.

Lemma replace_register_spec i0 h ins vr pr :
  hinv' i0 h ins →
  ∃ h', replace_register vr pr a h = Some h' ∧ hinv' i0 h' ins ∧ gone vr (h' !!! a).
Proof.
  intros H. destruct (heap_inv_cur _ _ _ _ _ _ _ _ _ _ H) as (i & Hi & _ & _ & _).
  unfold replace_register. rewrite Hi. simpl. eexists. split; [reflexivity|]. split.
  - eapply heap_inv_update; eauto using shrinks_replace_insn. congruence.
  - erewrite list_lookup_total_correct; [apply gone_replace|].
    apply list_lookup_insert_eq. eapply lookup_lt_Some; eauto.
Qed.

Lemma process_reads_spec os : ∀ st ins,
  hinv' (heap st !!! a) (heap st) ins → regs_inv n st → Forall id_ok os →
  ∃ st' ins', process_reads st n a (Some l) (Some p) os = Some st' ∧
              hinv' (heap st !!! a) (heap st') ins' ∧ regs_inv n st' ∧
              Forall (λ o, type o = VIRTUAL_REG → gone (id o) (heap st' !!! a)) os.
Proof.
  induction os as [|o os IH]; intros st ins H R Hok; simpl.
  { exists st, ins. auto. }
  apply Forall_cons in Hok as [Ho Hok].
  destruct (decide (type o = VIRTUAL_REG)) as [Hv|Hv].
  - destruct (ensure_spec _ st ins (id o) H R (Ho Hv)) as (pr & st1 & ins1 & He & H1 & R1 & Hpr).
    rewrite He. simpl.
    destruct (replace_register_spec _ _ ins1 (id o) pr H1) as (h2 & Hr & H2 & Hg).
    rewrite Hr. simpl.
    destruct (dist_total _ _ _ (id o) H2) as [d Hd]. rewrite Hd. simpl.
    set (st3 := if d =? MAX_VIRTUAL_REGS
                then mkState h2 (<[Z.to_nat pr := -1]> (phys_reg_map st1)) (offset_arr st1)
                else set_heap st1 h2).
    assert (Hst3 : (if d =? MAX_VIRTUAL_REGS
                    then map ← arr_set (phys_reg_map st1) pr (-1);
                         Some (mkState h2 map (offset_arr st1))
                    else Some (set_heap st1 h2)) = Some st3).
    { unfold st3. destruct (d =? MAX_VIRTUAL_REGS); auto.
      destruct R1 as [Hl1 _ _]. rewrite arr_set_Some by lia. reflexivity. }
    rewrite Hst3. simpl.
    assert (Hh3 : heap st3 = h2) by (unfold st3; destruct (d =? MAX_VIRTUAL_REGS); reflexivity).
    assert (R3 : regs_inv n st3).
    { unfold st3. destruct (d =? MAX_VIRTUAL_REGS); [|now apply regs_inv_set_heap].
      destruct (regs_inv_set_map st1 pr (-1) R1 Hpr) as (map & _ & -> & HR); auto. }
    destruct (IH st3 ins1) as (st' & ins' & Hp & H' & R' & Hgone); auto.
    { rewrite Hh3. eapply heap_inv_rebase; eauto. }
    rewrite Hh3 in H'. exists st', ins'. split; [exact Hp|].
    assert (Hsh : shrinks (h2 !!! a) (heap st' !!! a)) by apply H'.
    split; [|split; [exact R'|]].
    + eapply heap_inv_base; [|exact H']. apply H2.
    + constructor; [intros _; eapply gone_shrinks; eauto | exact Hgone].
  - destruct (IH st ins H R Hok) as (st' & ins' & Hp & H' & R' & Hgone).
    exists st', ins'. repeat (split; [assumption|]).
    constructor; [tauto | exact Hgone].
Qed.

Lemma process_write_spec st ins :
  hinv' (heap st !!! a) (heap st) ins → regs_inv n st → ids_ok (heap st !!! a) →
  ∃ st' ins', process_write st n a (Some l) (Some p) = Some st' ∧
              hinv' (heap st !!! a) (heap st') ins' ∧ regs_inv n st' ∧
              (type (ILOCInsn_get_write_register (heap st !!! a)) = VIRTUAL_REG →
               gone (id (ILOCInsn_get_write_register (heap st !!! a))) (heap st' !!! a)).
Proof.
  intros H R Hok.
  destruct (heap_inv_cur _ _ _ _ _ _ _ _ _ _ H) as (i & Hi & Hi' & _ & _).
  unfold process_write. rewrite Hi. simpl. rewrite Hi' in *.
  destruct (decide (type (ILOCInsn_get_write_register i) = VIRTUAL_REG)) as [Hv|Hv].
  - assert (Hid : id_ok (ILOCInsn_get_write_register i)).
    { unfold ILOCInsn_get_write_register. destruct (writes (form i)).
      - now apply ids_ok_op.
      - intros ?. discriminate. }
    destruct (allocate_spec _ st ins _ H R (Hid Hv)) as (pr & st1 & ins1 & Ha & H1 & R1 & Hpr).
    rewrite Ha. simpl.
    destruct (replace_register_spec _ _ ins1 (id (ILOCInsn_get_write_register i)) pr H1)
      as (h2 & Hr & H2 & Hg).
    rewrite Hr. simpl. eexists _, _. split; [reflexivity|].
    split; [exact H2|]. split; [now apply regs_inv_set_heap|]. intros _. exact Hg.
  - exists st, ins. split; [reflexivity|]. split; [exact H|]. split; [exact R|tauto].
Qed.

Lemma spill_all_spec i0 m len : ∀ st ins,
  hinv' i0 (heap st) ins → regs_inv n st → 0 ≤ m → m + len ≤ n →
  ∃ st' ins', spill_all st (Some l) (Some p) (seqZ m len) = Some st' ∧
              hinv' i0 (heap st') ins' ∧ regs_inv n st' ∧
              (∀ j, m ≤ j < m + len → arr_get (phys_reg_map st') j = Some (-1)) ∧
              (∀ j, 0 ≤ j → ¬ (m ≤ j < m + len) →
                    arr_get (phys_reg_map st') j = arr_get (phys_reg_map st) j).
Proof.
  remember (Z.to_nat len) as k eqn:Hk. revert m len Hk.
  induction k as [|k IH]; intros m len Hk st ins H R Hm Hlen.
  - rewrite seqZ_nil by lia. simpl. exists st, ins.
    repeat (split; [assumption || reflexivity|]). split; [intros; lia | auto].
  - rewrite seqZ_cons by lia. simpl.
    destruct (regs_inv_lookup st m R) as (v & Hv & Hrange); [lia|]. rewrite Hv. simpl.
    destruct (Z.eqb_spec v (-1)) as [->|Hne].
    + destruct (IH (Z.succ m) (Z.pred len) ltac:(lia) st ins H R) as
        (st' & ins' & Hs & H' & R' & Hfree & Hsame); [lia | lia |].
      exists st', ins'. repeat (split; [assumption|]). split.
      * intros j Hj. destruct (decide (j = m)) as [->|].
        -- rewrite Hsame by lia. exact Hv.
        -- apply Hfree. lia.
      * intros j Hj Hout. apply Hsame; auto. lia.
    + destruct (spill_spec i0 st ins m v H R ltac:(lia) Hv Hne) as (st1 & Hsp & H1 & R1 & Hmap1).
      rewrite Hsp. simpl.
      destruct (IH (Z.succ m) (Z.pred len) ltac:(lia) st1 _ H1 R1) as
        (st' & ins' & Hs & H' & R' & Hfree & Hsame); [lia | lia |].
      exists st', ins'. repeat (split; [assumption|]).
      destruct R as [Hl0 _ _]. split.
      * intros j Hj. destruct (decide (j = m)) as [->|].
        -- rewrite Hsame by lia. rewrite Hmap1, arr_get_set by lia.
           now rewrite decide_True.
        -- apply Hfree. lia.
      * intros j Hj Hout. rewrite Hsame by lia. rewrite Hmap1, arr_get_set by lia.
        rewrite decide_False by lia. reflexivity.
Qed.

Lemma process_call_spec i0 st ins :
  hinv' i0 (heap st) ins → regs_inv n st →
  ∃ st' ins', process_call st n a (Some l) (Some p) = Some st' ∧
              hinv' i0 (heap st') ins' ∧ regs_inv n st' ∧
              (form (heap st !!! a) = CALL →
               ∀ j, 0 ≤ j < n → arr_get (phys_reg_map st') j = Some (-1)).
Proof.
  intros H R.
  destruct (heap_inv_cur _ _ _ _ _ _ _ _ _ _ H) as (i & Hi & Hi' & _ & _).
  unfold process_call. rewrite Hi. simpl. rewrite Hi'.
  destruct (decide (form i = CALL)) as [Hc|Hc].
  - destruct (spill_all_spec i0 0 n st ins H R) as (st' & ins' & Hs & H' & R' & Hfree & _);
      [lia | lia |].
    exists st', ins'. repeat (split; [assumption|]). intros _ j Hj. apply Hfree. lia.
  - exists st, ins. repeat (split; [assumption || reflexivity|]). tauto.
Qed.

End Operations.

(** ** One iteration of the loop *)

Section Loop.

Context {T : Target}.

Variables (strict : Prop) (hd : option addr) (n : Z).

Hypothesis n_pos : 1 ≤ n.

Lemma read_registers_id_ok i : ids_ok i → Forall id_ok (ILOCInsn_get_read_registers i).
Proof.
  intros H. unfold ILOCInsn_get_read_registers.
  apply Forall_fmap, Forall_forall. intros s _. simpl.
  destruct (reads (form i) s); [now apply ids_ok_op | intros ?; discriminate].
Qed.

Lemma process_reads_no_vr st a la prev os :
  Forall (λ o, type o ≠ VIRTUAL_REG) os → process_reads st n a la prev os = Some st.
Proof.
  induction os as [|o os IH]; intros H; simpl; auto.
  apply Forall_cons in H as [Ho H]. rewrite decide_False by auto. auto.
Qed.

Lemma spill_all_free st la prev m len :
  0 ≤ m → m + len ≤ Z.of_nat (length (phys_reg_map st)) →
  all_free (phys_reg_map st) → spill_all st la prev (seqZ m len) = Some st.
Proof.
  intros Hm Hlen Hfree.
  remember (Z.to_nat len) as k eqn:Hk. revert m len Hk Hm Hlen.
  induction k as [|k IH]; intros m len Hk Hm Hlen.
  - now rewrite seqZ_nil by lia.
  - rewrite seqZ_cons by lia. simpl.
    destruct (arr_get_is_Some (phys_reg_map st) m) as [v Hv]; [lia|]. rewrite Hv. simpl.
    assert (v = -1) as ->.
    { apply arr_get_Some in Hv as [_ Hv]. unfold all_free in Hfree.
      rewrite Forall_forall in Hfree. eapply Hfree, list_elem_of_lookup_2; eauto. }
    simpl. apply IH; lia.
Qed.

Lemma vr_free_covered_no_vr i : vr_free i → covered i → no_vr i.
Proof.
  intros [Hr Hw] Hc.
  assert (∀ s, (s < 3)%nat → type (op i s) ≠ VIRTUAL_REG) as Hs.
  { intros s Hlt Hv. destruct (Hc s Hlt Hv) as [Hrd|Hwr].
    - unfold ILOCInsn_get_read_registers in Hr. simpl in Hr.
      rewrite !Forall_cons in Hr. destruct Hr as (R0 & R1 & R2 & _).
      destruct s as [|[|[|s]]]; try lia; rewrite Hrd in *; auto.
    - unfold ILOCInsn_get_write_register in Hw. rewrite Hwr in Hw. auto. }
  unfold no_vr, ops. repeat constructor.
  - apply (Hs 0%nat). lia.
  - apply (Hs 1%nat). lia.
  - apply (Hs 2%nat). lia.
Qed.

(** After its reads and its write have been rewritten, a covered
    instruction has no virtual register left. *)
Lemma rewritten_no_vr i0 i1 i2 i3 :
  covered i0 → shrinks i0 i1 → shrinks i1 i2 → shrinks i2 i3 →
  Forall (λ o, type o = VIRTUAL_REG → gone (id o) i1) (ILOCInsn_get_read_registers i0) →
  (type (ILOCInsn_get_write_register i1) = VIRTUAL_REG →
   gone (id (ILOCInsn_get_write_register i1)) i2) →
  no_vr i3.
Proof.
  intros Hc S01 S12 S23 Hreads Hwrite.
  assert (∀ s, (s < 3)%nat → type (op i3 s) ≠ VIRTUAL_REG) as Hs.
  { intros s Hlt Hv.
    assert (S13 : shrinks i1 i3) by eauto using shrinks_trans.
    assert (S03 : shrinks i0 i3) by eauto using shrinks_trans.
    assert (Hvr : is_vr (id (op i3 s)) (op i3 s) = true).
    { unfold is_vr. rewrite bool_decide_eq_true_2 by auto. simpl. apply Z.eqb_refl. }
    destruct (shrinks_op_slot i0 i3 s S03) as [[Ht0 Hi0]|Hp]; [|congruence].
    destruct (shrinks_op_slot i1 i3 s S13) as [[Ht1 Hi1]|Hp]; [|congruence].
    destruct (Hc s Hlt) as [Hrd|Hwr]; [congruence| |].
    - assert (Hin : op i0 s ∈ ILOCInsn_get_read_registers i0).
      { unfold ILOCInsn_get_read_registers. simpl.
        destruct s as [|[|[|s]]]; try lia; rewrite Hrd;
          rewrite !elem_of_cons; auto. }
      rewrite Forall_forall in Hreads.
      pose proof (gone_shrinks _ _ _ S13 (Hreads _ Hin ltac:(congruence)) s) as Hg.
      rewrite Hi0 in Hg. congruence.
    - assert (Hwreg : ILOCInsn_get_write_register i1 = op i1 s).
      { unfold ILOCInsn_get_write_register. destruct S01 as [<- _]. now rewrite Hwr. }
      rewrite Hwreg in Hwrite.
      pose proof (gone_shrinks _ _ _ S23 (Hwrite ltac:(congruence)) s) as Hg.
      rewrite Hi1 in Hg. congruence. }
  unfold no_vr, ops. repeat constructor.
  - apply (Hs 0%nat). lia.
  - apply (Hs 1%nat). lia.
  - apply (Hs 2%nat). lia.
Qed.

Lemma find_local_allocator_spec h a rest i la :
  lseg h (Some a) (a :: rest) None → h !! a = Some i →
  ∃ la', find_local_allocator h i la = Some la' ∧
         (la' = la ∨ ∃ l, la' = Some l ∧ (l < length h)%nat) ∧
         (is_prologue (nodes h (a :: rest)) → ∃ l, la' = Some l ∧ (l < length h)%nat).
Proof.
  intros (_ & i' & Hi' & Hr) Hi. rewrite Hi in Hi'. injection Hi' as <-.
  unfold find_local_allocator, nodes. simpl.
  rewrite (list_lookup_total_correct _ _ _ Hi).
  destruct (decide (form i = PUSH)) as [Hf|Hf].
  2: { exists la. split; auto. split; auto. destruct rest as [|? [|? ?]]; simpl; tauto. }
  destruct rest as [|a1 rest]; simpl in Hr.
  { rewrite Hr. exists la. split; auto. split; auto. simpl. tauto. }
  destruct Hr as (-> & i1 & Hi1 & Hr). rewrite Hi1. simpl.
  rewrite (list_lookup_total_correct _ _ _ Hi1).
  destruct (decide (form i1 = I2I)) as [Hf1|Hf1].
  2: { exists la. split; auto. split; auto. destruct rest as [|? ?]; simpl; tauto. }
  destruct rest as [|a2 rest]; simpl in Hr.
  { rewrite Hr. exists la. split; auto. split; auto. simpl. tauto. }
  destruct Hr as (-> & i2 & Hi2 & Hr). rewrite Hi2. simpl.
  rewrite (list_lookup_total_correct _ _ _ Hi2).
  destruct (decide (form i2 = ADD_I)) as [Hf2|Hf2].
  - exists (Some a2). split; auto.
    assert (a2 < length h)%nat by (eapply lookup_lt_Some; eauto).
    split; [right|]; eauto.
  - exists la. split; auto. split; auto. tauto.
Qed.

Lemma nodes_cons h a (L : list addr) : nodes h (a :: L) = h !!! a :: nodes h L.
Proof. reflexivity. Qed.

Lemma nodes_app h (L1 L2 : list addr) : nodes h (L1 ++ L2) = nodes h L1 ++ nodes h L2.
Proof. unfold nodes. apply fmap_app. Qed.

Lemma all_free_lookup st j :
  regs_inv n st → all_free (phys_reg_map st) → 0 ≤ j < n →
  arr_get (phys_reg_map st) j = Some (-1).
Proof.
  intros R Hfree Hj. destruct (regs_inv_lookup n st j R Hj) as (v & Hv & _).
  rewrite Hv. f_equal. apply arr_get_Some in Hv as [_ Hv].
  unfold all_free in Hfree. rewrite Forall_forall in Hfree.
  eapply Hfree, list_elem_of_lookup_2; eauto.
Qed.

(** An iteration that starts with a frame allocator latched and a
    previous instruction to insert after. *)
Lemma loop_step_latched st la prev a rest d1 p i l :
  lseg (heap st) hd (d1 ++ [p]) (Some a) →
  lseg (heap st) (Some a) (a :: rest) None →
  heap st !! a = Some i →
  prev = Some p → la = Some l → (l < length (heap st))%nat →
  regs_inv n st →
  Forall ids_ok (nodes (heap st) (a :: rest)) →
  (strict → Forall covered (nodes (heap st) (a :: rest)) ∧
            Forall no_vr (nodes (heap st) (d1 ++ [p]))) →
  ∃ st3 ins i3,
    (st1 ← process_reads st n a la prev (ILOCInsn_get_read_registers i);
     st2 ← process_write st1 n a la prev;
     process_call st2 n a la prev) = Some st3 ∧
    heap st3 !! a = Some i3 ∧
    heap_inv strict hd d1 p a rest l i (heap st3) ins ∧
    regs_inv n st3 ∧
    (strict → no_vr i3) ∧
    (form i = CALL → ∀ j, 0 ≤ j < n → arr_get (phys_reg_map st3) j = Some (-1)).
Proof.
  intros Hd Hr Hi -> -> Hl R Hids Hs.
  pose proof (list_lookup_total_correct _ _ _ Hi) as Hi'.
  rewrite nodes_cons, Forall_cons, Hi' in Hids. destruct Hids as [Hid_i Hids].
  assert (H0 : heap_inv strict hd d1 p a rest l (heap st !!! a) (heap st) []).
  { split; auto.
    - apply shrinks_refl.
    - intros Hst. destruct (Hs Hst) as [Hc Hn].
      rewrite nodes_cons, Forall_cons in Hc. split; [tauto|exact Hn]. }
  destruct (process_reads_spec strict hd d1 p a rest l n n_pos
              (ILOCInsn_get_read_registers i) st [] H0 R)
    as (st1 & ins1 & Hp1 & H1 & R1 & Hgone1).
  { now apply read_registers_id_ok. }
  rewrite Hp1. cbn [mbind option_bind].
  assert (S01 : shrinks i (heap st1 !!! a)) by (rewrite <- Hi'; apply H1).
  destruct (process_write_spec strict hd d1 p a rest l n n_pos st1 ins1)
    as (st2 & ins2 & Hp2 & H2 & R2 & Hgone2).
  { eapply heap_inv_rebase; eauto. }
  { exact R1. }
  { eapply ids_ok_shrinks; eauto. }
  rewrite Hp2. cbn [mbind option_bind].
  assert (S12 : shrinks (heap st1 !!! a) (heap st2 !!! a)) by apply H2.
  destruct (process_call_spec strict hd d1 p a rest l n (heap st2 !!! a) st2 ins2)
    as (st3 & ins3 & Hp3 & H3 & R3 & Hcall).
  { eapply heap_inv_rebase; eauto. }
  { exact R2. }
  assert (S23 : shrinks (heap st2 !!! a) (heap st3 !!! a)) by apply H3.
  destruct (heap_inv_cur _ _ _ _ _ _ _ _ _ _ H3) as (i3 & Hi3 & Hi3' & _ & _).
  exists st3, ins3, i3. split; [exact Hp3|]. split; [exact Hi3|].
  split; [|split; [exact R3|split]].
  - eapply heap_inv_base; [|exact H3]. eauto using shrinks_trans.
  - intros Hst. destruct (Hs Hst) as [Hc _].
    rewrite nodes_cons, Forall_cons, Hi' in Hc. destruct Hc as [Hc _].
    rewrite <- Hi3'. eapply (rewritten_no_vr i); eauto.
  - intros Hf. apply Hcall.
    destruct S01 as [F1 _]. destruct S12 as [F2 _]. congruence.
Qed.

(** An iteration before any virtual register has been touched. *)
Lemma loop_step_idle st la prev a i :
  heap st !! a = Some i → regs_inv n st → all_free (phys_reg_map st) → vr_free i →
  (st1 ← process_reads st n a la prev (ILOCInsn_get_read_registers i);
   st2 ← process_write st1 n a la prev;
   process_call st2 n a la prev) = Some st.
Proof.
  intros Hi R Hfree [Hrd Hwr].
  rewrite process_reads_no_vr by auto. cbn [mbind option_bind].
  unfold process_write. rewrite Hi. cbn [mbind option_bind].
  rewrite decide_False by auto. cbn [mbind option_bind].
  unfold process_call. rewrite Hi. cbn [mbind option_bind].
  destruct (decide (form i = CALL)); auto. destruct prev; auto.
  apply spill_all_free; auto; destruct R; lia.
Qed.

Lemma snoc_assoc (d1 : list addr) p ins a :
  (d1 ++ [p]) ++ ins ++ [a] = (d1 ++ p :: ins) ++ [a].
Proof. rewrite <- !app_assoc. reflexivity. Qed.

Lemma process_insn_eq st a la prev i la' st3 :
  heap st !! a = Some i →
  find_local_allocator (heap st) i la = Some la' →
  (st1 ← process_reads st n a la' prev (ILOCInsn_get_read_registers i);
   st2 ← process_write st1 n a la' prev;
   process_call st2 n a la' prev) = Some st3 →
  process_insn st n a la prev = Some (st3, la').
Proof.
  intros Hi Hla Hrun. unfold process_insn. rewrite Hi. cbn [mbind option_bind].
  rewrite Hla. cbn [mbind option_bind].
  destruct (process_reads st n a la' prev _) as [st1|]; [|discriminate].
  cbn [mbind option_bind] in *.
  destruct (process_write st1 n a la' prev) as [st2|]; [|discriminate].
  cbn [mbind option_bind] in *. rewrite Hrun. reflexivity.
Qed.

Lemma loop_step c done a rest :
  loop_inv strict hd n c done (a :: rest) →
  ∃ c' ins, loop_next n c = Some c' ∧
            loop_inv strict hd n c' (done ++ ins ++ [a]) rest ∧
            (form (heap (c_state c) !!! a) = CALL →
             ∀ j, 0 ≤ j < n → arr_get (phys_reg_map (c_state c')) j = Some (-1)).
Proof.
  intros [Hd Hr Hp R Hids Hs Hmode].
  destruct c as [st la prev cur];
    cbn [c_state c_insn c_last_processed c_local_allocator] in *.
  pose proof Hr as Hr0. simpl in Hr. destruct Hr as (-> & i & Hi & Hrest).
  pose proof (list_lookup_total_correct _ _ _ Hi) as Hi'.
  destruct (find_local_allocator_spec (heap st) a rest i la Hr0 Hi)
    as (la' & Hla & Hla1 & Hla2).
  unfold loop_next. cbn [c_state c_insn c_last_processed c_local_allocator mbind option_bind].
  destruct Hmode as [(l & -> & Hl & Hne)|[Hfree Hsafe]].
  - (* a frame allocator is latched *)
    destruct (exists_last Hne) as (d1 & p & ->).
    rewrite last_snoc in Hp.
    assert (∃ l', la' = Some l' ∧ (l' < length (heap st))%nat) as (l' & -> & Hl').
    { destruct Hla1 as [->|?]; eauto. }
    destruct (loop_step_latched st (Some l') prev a rest d1 p i l')
      as (st3 & ins & i3 & Hrun & Hi3 & H3 & R3 & Hnv & Hcall); auto.
    rewrite (process_insn_eq _ _ _ _ _ _ _ Hi Hla Hrun).
    cbn [mbind option_bind]. rewrite Hi3. cbn [mbind option_bind].
    eexists _, ins. split; [reflexivity|]. split.
    + destruct H3 as [Hd3 Hr3 Hl3 Hc3 Hi3s Hs3].
      split; cbn [c_state c_insn c_last_processed c_local_allocator].
      * rewrite snoc_assoc.
        apply lseg_app. exists (Some a). split; auto.
        simpl. split; auto. exists i3. auto.
      * simpl in Hr3. destruct Hr3 as (_ & i3' & Hi3' & Hr3). congruence.
      * rewrite snoc_assoc. now rewrite last_snoc.
      * exact R3.
      * exact Hi3s.
      * intros Hst. destruct (Hs3 Hst) as [Hc Hn]. split; auto.
        rewrite snoc_assoc.
        rewrite nodes_app, Forall_app. split; auto.
        rewrite nodes_cons. constructor; [|constructor].
        rewrite (list_lookup_total_correct _ _ _ Hi3). auto.
      * left. exists l'. split; auto. split; auto.
        rewrite snoc_assoc.
        intros Heq. apply app_eq_nil in Heq as [_ Heq]. discriminate.
    + rewrite Hi'. exact Hcall.
  - (* no register is in use yet *)
    rewrite nodes_cons, Hi' in Hsafe. destruct Hsafe as [Hvf Hnext].
    rewrite (process_insn_eq _ _ _ _ _ _ _ Hi Hla (loop_step_idle st la' prev a i Hi R Hfree Hvf)).
    cbn [mbind option_bind]. rewrite Hi. cbn [mbind option_bind].
    eexists _, []. split; [reflexivity|].
    change (done ++ [] ++ [a]) with (done ++ [a]). split.
    + rewrite nodes_cons, Forall_cons, Hi' in Hids. destruct Hids as [Hid_i Hids].
      split; cbn [c_state c_insn c_last_processed c_local_allocator].
      * apply lseg_app. exists (Some a). split; auto. simpl. split; auto. exists i. auto.
      * exact Hrest.
      * now rewrite last_snoc.
      * exact R.
      * exact Hids.
      * intros Hst. destruct (Hs Hst) as [Hc Hn].
        rewrite nodes_cons, Forall_cons, Hi' in Hc. destruct Hc as [Hci Hc].
        split; auto. rewrite nodes_app, Forall_app. split; auto.
        rewrite nodes_cons, Hi'. constructor; [|constructor].
        now apply vr_free_covered_no_vr.
      * destruct Hnext as [Hpro|Hsafe]; [left|right; auto].
        rewrite <- Hi', <- nodes_cons in Hpro.
        destruct (Hla2 Hpro) as (l' & -> & Hl'). exists l'. split; auto. split; auto.
        intros Heq. apply app_eq_nil in Heq as [_ Heq]. discriminate.
    + intros _ j Hj. now apply all_free_lookup.
Qed.

Lemma allocate_loop_next fuel c c' :
  loop_next n c = Some c' →
  allocate_loop (S fuel) (c_state c) n (c_local_allocator c) (c_last_processed c) (c_insn c)
  = allocate_loop fuel (c_state c') n (c_local_allocator c') (c_last_processed c') (c_insn c').
Proof.
  unfold loop_next. destruct (c_insn c) as [a|]; [|discriminate].
  cbn [mbind option_bind allocate_loop].
  destruct (process_insn _ _ _ _ _) as [[st1 la]|]; [|discriminate].
  cbn [mbind option_bind]. destruct (heap st1 !! a) as [i|]; [|discriminate].
  cbn [mbind option_bind]. intros [= <-]. reflexivity.
Qed.

(** The loop runs to the end of the stream. *)
Lemma loop_total rest : ∀ fuel c done,
  loop_inv strict hd n c done rest → (length rest ≤ fuel)%nat →
  ∃ st' done',
    allocate_loop fuel (c_state c) n (c_local_allocator c) (c_last_processed c) (c_insn c)
      = Some st' ∧
    lseg (heap st') hd done' None ∧
    (strict → Forall no_vr (nodes (heap st') done')).
Proof.
  induction rest as [|a rest IH]; intros fuel c done Hinv Hfuel.
  - destruct Hinv as [Hd Hr _ _ _ Hs _]. simpl in Hr. rewrite Hr in *.
    exists (c_state c), done. split; [destruct fuel; reflexivity|]. split; auto.
    intros Hst. apply Hs. exact Hst.
  - destruct fuel as [|fuel]; [simpl in Hfuel; lia|].
    destruct (loop_step c done a rest Hinv) as (c' & ins & Hnext & Hinv' & _).
    rewrite (allocate_loop_next fuel c c' Hnext).
    apply (IH fuel c' _ Hinv'). simpl in Hfuel. lia.
Qed.


Lemma initial_loop_inv h (list : InsnList) :
  well_formed strict h (head list) →
  ∃ rest, loop_inv strict (head list) n (initial_config h list n) [] rest.
Proof.
  intros (rest & Hseg & Hids & Hsafe & Hcov). exists rest. split; simpl; auto.
  - split; simpl.
    + rewrite length_replicate. lia.
    + apply Forall_replicate. auto.
    + rewrite length_replicate. lia.
  - right. split; auto. apply Forall_replicate. reflexivity.
Qed.

End Loop.

(** ** What the heap looks like after each function *)

Section Effects.

Context {T : Target}.

Lemma total_lookup_eq (h h' : list ILOCInsn) x y :
  h !! x = h' !! y → h !!! x = h' !!! y.
Proof. intros H. now rewrite !list_lookup_total_alt, H. Qed.

Lemma view_form i i' : view i = view i' → form i = form i'.
Proof. unfold view. congruence. Qed.

Lemma drop_length_single (h h' : list ILOCInsn) :
  length h' = S (length h) → drop (length h) h' = [h' !!! length h].
Proof.
  intros Hlen. apply list_eq. intros [|j].
  - rewrite lookup_drop, Nat.add_0_r. simpl.
    destruct (lookup_lt_is_Some_2 h' (length h)) as [i Hi]; [lia|].
    rewrite Hi. f_equal. symmetry. now apply list_lookup_total_correct.
  - rewrite lookup_drop. simpl. apply lookup_ge_None. lia.
Qed.

Lemma insert_after_effect new prev h h' :
  insert_after new prev h = Some h' →
  length h' = S (length h) ∧
  (∀ x, (x < length h)%nat → view (h' !!! x) = view (h !!! x)) ∧
  view (h' !!! length h) = view new.
Proof.
  unfold insert_after. destruct prev as [p|]; [|discriminate]. simpl.
  destruct (h !! p) as [pi|] eqn:Hp; [|discriminate]. simpl. intros [= <-].
  pose proof (lookup_lt_Some _ _ _ Hp) as Hplt.
  split; [|split].
  - rewrite length_insert, length_app. simpl. lia.
  - intros x Hx. destruct (decide (x = p)) as [->|Hne].
    + rewrite (list_lookup_total_correct _ _ (set_next pi (Some (length h))));
        [|apply list_lookup_insert_eq; rewrite length_app; simpl; lia].
      rewrite (list_lookup_total_correct _ _ _ Hp). reflexivity.
    + f_equal. apply total_lookup_eq.
      rewrite list_lookup_insert_ne by auto. now apply lookup_app_l.
  - rewrite (list_lookup_total_correct _ _ (set_next new (next pi))); [reflexivity|].
    rewrite list_lookup_insert_ne by lia. now apply list_lookup_middle.
Qed.

Lemma insert_spill_effect pr prev la h off h' :
  insert_spill pr prev la h = Some (off, h') →
  ∃ l, la = Some l ∧ (l < length h)%nat ∧
       off = next_slot (imm (op1 (h !!! l))) ∧
       length h' = S (length h) ∧
       view (h' !!! length h)
         = (STORE_AI, physical_register pr, base_register, int_const off) ∧
       (∀ x, (x < length h)%nat → x ≠ l → view (h' !!! x) = view (h !!! x)) ∧
       view (h' !!! l) = view (set_op1_imm (h !!! l) off).
Proof.
  unfold insert_spill. destruct la as [l|]; [|discriminate]. simpl.
  destruct (h !! l) as [li|] eqn:Hl; [|discriminate]. simpl.
  pose proof (lookup_lt_Some _ _ _ Hl) as Hllt.
  destruct (insert_after _ prev _) as [h2|] eqn:Hins; [|discriminate]. simpl.
  intros [= <- <-].
  apply insert_after_effect in Hins as (Hlen & Hold & Hnew).
  rewrite length_insert in *.
  exists l. rewrite (list_lookup_total_correct _ _ _ Hl). repeat split; auto.
  - intros x Hx Hne. rewrite Hold by auto. f_equal.
    apply total_lookup_eq. now rewrite list_lookup_insert_ne.
  - rewrite Hold by auto. f_equal.
    apply list_lookup_total_correct, list_lookup_insert_eq. auto.
Qed.

Lemma spill_effect pr prev la st st' :
  spill pr prev la st = Some st' →
  ∃ v off,
    arr_get (phys_reg_map st) pr = Some v ∧
    insert_spill pr prev la (heap st) = Some (off, heap st') ∧
    0 ≤ v < Z.of_nat (length (offset_arr st)) ∧
    offset_arr st' = <[Z.to_nat v := off]> (offset_arr st) ∧
    phys_reg_map st' = <[Z.to_nat pr := -1]> (phys_reg_map st).
Proof.
  unfold spill.
  destruct (insert_spill pr prev la (heap st)) as [[off h]|]; [|discriminate]. simpl.
  destruct (arr_get (phys_reg_map st) pr) as [v|]; [|discriminate]. simpl.
  destruct (arr_set (offset_arr st) v off) as [offs|] eqn:Ho; [|discriminate]. simpl.
  destruct (arr_set (phys_reg_map st) pr (-1)) as [map|] eqn:Hm; [|discriminate]. simpl.
  intros [= <-]. apply arr_set_inv in Ho as [Hv ->]. apply arr_set_inv in Hm as [_ ->].
  exists v, off. simpl. auto.
Qed.

(** *** Forms and the frame reservation *)

Lemma stores_app L1 L2 : stores (L1 ++ L2) = (stores L1 + stores L2)%nat.
Proof. unfold stores. now rewrite filter_app, length_app. Qed.

Lemma stores_forms L L' :
  Forall2 (λ i i', form i = form i') L L' → stores L = stores L'.
Proof.
  unfold stores. induction 1 as [|i i' L L' Hf _ IH]; [reflexivity|].
  rewrite !filter_cons. rewrite Hf.
  destruct (decide (form i' = STORE_AI)); simpl; auto.
Qed.

Lemma view_shrinks i i' : view i' = view i → shrinks i i'.
Proof.
  unfold view. intros [= F A B C].
  split; [congruence|]. split; [left; split; congruence|].
  split; left; split; congruence.
Qed.

Lemma evolves_refl la h : evolves la h h.
Proof.
  split; [lia|]. split; [intros; apply shrinks_refl|]. intros l _ _.
  rewrite drop_all. reflexivity.
Qed.

Lemma stores_split la h1 h2 h3 :
  evolves la h1 h2 → evolves la h2 h3 →
  stores (drop (length h1) h3)
  = (stores (drop (length h1) h2) + stores (drop (length h2) h3))%nat.
Proof.
  intros (L12 & F12 & _) (L23 & F23 & _).
  assert (drop (length h1) h3
          = take (length h2 - length h1) (drop (length h1) h3) ++ drop (length h2) h3) as ->.
  { rewrite <- (take_drop (length h2 - length h1) (drop (length h1) h3)) at 1.
    rewrite drop_drop. do 2 f_equal. lia. }
  rewrite stores_app. f_equal.
  apply stores_forms, Forall2_same_length_lookup_2.
  - rewrite length_take, !length_drop. lia.
  - intros j x y Hx Hy.
    apply lookup_take_Some in Hx as [Hx Hj]. rewrite lookup_drop in Hx, Hy.
    pose proof (lookup_lt_Some _ _ _ Hy) as Hlt.
    rewrite <- (list_lookup_total_correct _ _ _ Hx), <- (list_lookup_total_correct _ _ _ Hy).
    symmetry. apply F23. auto.
Qed.

Lemma evolves_trans la h1 h2 h3 :
  evolves la h1 h2 → evolves la h2 h3 → evolves la h1 h3.
Proof.
  intros E12 E23. pose proof (stores_split la h1 h2 h3 E12 E23) as Hsplit.
  destruct E12 as (L12 & F12 & I12). destruct E23 as (L23 & F23 & I23).
  split; [lia|]. split.
  - intros x Hx. eapply shrinks_trans; [apply F12 | apply F23]; lia.
  - intros l Hla Hl. rewrite (I23 l) by (auto; lia). rewrite (I12 l) by auto.
    rewrite Hsplit. symmetry. apply nth_slot_add.
Qed.

Lemma insert_load_evolves la off pr prev h h' :
  insert_load off pr prev h = Some h' → evolves la h h'.
Proof.
  intros H. apply insert_after_effect in H as (Hlen & Hold & Hnew).
  split; [lia|]. split.
  - intros x Hx. apply view_shrinks. auto.
  - intros l -> Hl. rewrite (drop_length_single h h' Hlen). unfold stores. rewrite filter_cons.
    apply view_form in Hnew. rewrite decide_False by (rewrite Hnew; discriminate).
    simpl. specialize (Hold l Hl). unfold view in Hold. injection Hold as _ _ -> _.
    reflexivity.
Qed.

Lemma insert_spill_evolves la pr prev h off h' :
  insert_spill pr prev la h = Some (off, h') → evolves la h h'.
Proof.
  intros H. apply insert_spill_effect in H as (l & -> & Hl & -> & Hlen & Hnew & Hold & Hla).
  split; [lia|]. split.
  - intros x Hx. destruct (decide (x = l)) as [->|Hne].
    + eapply shrinks_trans; [apply same_sig_shrinks, same_sig_set_op1_imm|].
      apply view_shrinks. exact Hla.
    + apply view_shrinks; auto.
  - intros l' [= <-] _. rewrite (drop_length_single h h' Hlen). unfold stores. rewrite filter_cons.
    assert (form (h' !!! length h) = STORE_AI) as Hf by (unfold view in Hnew; congruence).
    rewrite decide_True by auto. simpl.
    unfold view in Hla. injection Hla as _ _ -> _. simpl. lia.
Qed.

Lemma spill_evolves la pr prev st st' :
  spill pr prev la st = Some st' → evolves la (heap st) (heap st').
Proof.
  intros H. apply spill_effect in H as (v & off & _ & H & _). eapply insert_spill_evolves; eauto.
Qed.

Lemma replace_register_evolves la vr pr a h h' :
  replace_register vr pr a h = Some h' → evolves la h h'.
Proof.
  unfold replace_register. destruct (h !! a) as [i|] eqn:Hi; [|discriminate]. simpl.
  intros [= <-]. pose proof (lookup_lt_Some _ _ _ Hi) as Hlt.
  assert (Hlk : ∀ x, <[a := replace_insn vr pr i]> h !!! x
                     = if decide (x = a) then replace_insn vr pr i else h !!! x).
  { intros x. destruct (decide (x = a)) as [->|Hne].
    - apply list_lookup_total_correct, list_lookup_insert_eq. auto.
    - apply total_lookup_eq. now rewrite list_lookup_insert_ne. }
  split; [rewrite length_insert; lia|]. split.
  - intros x Hx. rewrite Hlk. destruct (decide (x = a)) as [->|]; [|apply shrinks_refl].
    rewrite (list_lookup_total_correct _ _ _ Hi). apply shrinks_replace_insn.
  - intros l -> Hl. rewrite drop_ge by (rewrite length_insert; lia).
    unfold stores. simpl. rewrite Hlk.
    destruct (decide (l = a)) as [->|]; [|lia].
    rewrite (list_lookup_total_correct _ _ _ Hi). simpl.
    unfold replace_operand. destruct (is_vr vr (op1 i)); simpl; lia.
Qed.

Lemma arr_get_insert_ne (a : list Z) v w x :
  v ≠ w → 0 ≤ v → arr_get (<[Z.to_nat v := x]> a) w = arr_get a w.
Proof.
  intros Hne Hv. unfold arr_get. destruct (decide (0 ≤ w)); auto.
  apply list_lookup_insert_ne. lia.
Qed.

Lemma insert_spill_stores pr prev la h off h' :
  insert_spill pr prev la h = Some (off, h') → stores (drop (length h) h') = 1%nat.
Proof.
  intros H. apply insert_spill_effect in H as (l & _ & _ & _ & Hlen & Hnew & _).
  rewrite (drop_length_single h h' Hlen). unfold stores. rewrite filter_cons.
  assert (form (h' !!! length h) = STORE_AI) as Hf by (unfold view in Hnew; congruence).
  now rewrite decide_True by auto.
Qed.

Lemma offsets_rel_same la st st' : offset_arr st' = offset_arr st → offsets_rel la st st'.
Proof. intros H. destruct la; simpl; [|auto]. intros _ w. left. now rewrite H. Qed.

Lemma tracks_same la st st' :
  evolves la (heap st) (heap st') → offset_arr st' = offset_arr st → tracks la st st'.
Proof. intros. split; auto using offsets_rel_same. Qed.

Lemma tracks_refl la st : tracks la st st.
Proof. apply tracks_same; auto using evolves_refl. Qed.

Lemma tracks_trans la st1 st2 st3 : tracks la st1 st2 → tracks la st2 st3 → tracks la st1 st3.
Proof.
  intros [E12 O12] [E23 O23]. split; [eapply evolves_trans; eauto|].
  pose proof (stores_split la _ _ _ E12 E23) as Hsplit.
  destruct la as [l|]; simpl in *; [|congruence].
  intros Hl w.
  assert (Hl2 : (l < length (heap st2))%nat) by (destruct E12; lia).
  destruct (O23 Hl2 w) as [Heq|(k & Hk & Hw)].
  - rewrite Heq. destruct (O12 Hl w) as [Heq'|(k & Hk & Hw)]; [now left|].
    right. exists k. split; [lia|exact Hw].
  - right. exists (stores (drop (length (heap st1)) (heap st2)) + k)%nat. split; [lia|].
    rewrite Hw. f_equal. destruct E12 as (_ & _ & I12).
    specialize (I12 l eq_refl Hl). simpl in I12. rewrite I12. symmetry. apply nth_slot_add.
Qed.

Lemma spill_tracks la pr prev st st' : spill pr prev la st = Some st' → tracks la st st'.
Proof.
  intros H. split; [eapply spill_evolves; eauto|].
  apply spill_effect in H as (v & off & _ & Hsp & Hv & Ho & _).
  pose proof (insert_spill_stores _ _ _ _ _ _ Hsp) as Hst.
  apply insert_spill_effect in Hsp as (l & -> & _ & -> & _).
  simpl. intros _ w. rewrite Ho, Hst. destruct (decide (w = v)) as [->|Hne].
  - right. exists 1%nat. split; [lia|].
    rewrite arr_get_set by lia. rewrite decide_True by auto. reflexivity.
  - left. apply arr_get_insert_ne; [auto|lia].
Qed.

Lemma allocate_tracks la st n vr cur prev pr st' :
  allocate st n vr cur la prev = Some (pr, st') → tracks la st st'.
Proof.
  unfold allocate. destruct (find_reg _ _ _) as [[i|]|]; simpl; [| |discriminate].
  - destruct (arr_set _ _ _); simpl; [|discriminate]. intros [= _ <-].
    apply tracks_same; [apply evolves_refl | reflexivity].
  - destruct (find_max_dist _ _ _ _ _ _) as [[mp md]|]; simpl; [|discriminate].
    destruct (spill mp prev la st) as [st1|] eqn:Hs; simpl; [|discriminate].
    destruct (arr_set _ _ _); simpl; [|discriminate]. intros [= _ <-].
    apply spill_tracks in Hs. eapply tracks_trans; [exact Hs|].
    apply tracks_same; [apply evolves_refl | reflexivity].
Qed.

Lemma set_heap_tracks la st h :
  evolves la (heap st) h → tracks la st (set_heap st h).
Proof. intros. now apply tracks_same. Qed.

Lemma ensure_tracks la st n vr cur prev pr st' :
  ensure st n vr cur la prev = Some (pr, st') → tracks la st st'.
Proof.
  unfold ensure. destruct (find_reg _ _ _) as [[i|]|]; cbn [mbind option_bind]; [| |discriminate].
  - intros [= _ <-]. apply tracks_refl.
  - destruct (allocate st n vr cur la prev) as [[pr1 st1]|] eqn:Ha;
      cbn [mbind option_bind]; [|discriminate].
    apply allocate_tracks in Ha.
    destruct (arr_get _ _) as [off|]; cbn [mbind option_bind]; [|discriminate].
    destruct (off =? -1).
    + intros [= _ <-]. exact Ha.
    + destruct (insert_load off pr1 prev (heap st1)) as [h|] eqn:Hl;
        cbn [mbind option_bind]; [|discriminate].
      intros [= _ <-]. eapply tracks_trans; [exact Ha|].
      apply set_heap_tracks. eapply insert_load_evolves; eauto.
Qed.

Lemma process_reads_tracks la n a prev os : ∀ st st',
  process_reads st n a la prev os = Some st' → tracks la st st'.
Proof.
  induction os as [|o os IH]; intros st st'; simpl.
  - intros [= <-]. apply tracks_refl.
  - destruct (decide (type o = VIRTUAL_REG)); [|apply IH].
    destruct (ensure st n (id o) a la prev) as [[pr st1]|] eqn:He;
      cbn [mbind option_bind]; [|discriminate].
    destruct (replace_register (id o) pr a (heap st1)) as [h2|] eqn:Hr;
      cbn [mbind option_bind]; [|discriminate].
    destruct (dist h2 (id o) a) as [d|]; cbn [mbind option_bind]; [|discriminate].
    apply ensure_tracks in He. apply (replace_register_evolves la) in Hr.
    destruct (d =? MAX_VIRTUAL_REGS).
    + destruct (arr_set _ _ _) as [map|]; cbn [mbind option_bind]; [|discriminate].
      intros H. apply IH in H.
      eapply tracks_trans; [exact He|]. eapply tracks_trans; [|exact H].
      now apply tracks_same.
    + cbn [mbind option_bind]. intros H. apply IH in H.
      eapply tracks_trans; [exact He|]. eapply tracks_trans; [|exact H].
      now apply set_heap_tracks.
Qed.

Lemma process_write_tracks la n a prev st st' :
  process_write st n a la prev = Some st' → tracks la st st'.
Proof.
  unfold process_write. destruct (heap st !! a) as [i|]; cbn [mbind option_bind]; [|discriminate].
  destruct (decide _); [|intros [= <-]; apply tracks_refl].
  destruct (allocate _ _ _ _ _ _) as [[pr st1]|] eqn:Ha; cbn [mbind option_bind]; [|discriminate].
  destruct (replace_register _ _ _ _) as [h2|] eqn:Hr; cbn [mbind option_bind]; [|discriminate].
  intros [= <-]. apply allocate_tracks in Ha. apply (replace_register_evolves la) in Hr.
  eapply tracks_trans; [exact Ha|]. now apply set_heap_tracks.
Qed.

Lemma spill_all_tracks la prev ixs : ∀ st st',
  spill_all st la prev ixs = Some st' → tracks la st st'.
Proof.
  induction ixs as [|i ixs IH]; intros st st'; simpl.
  - intros [= <-]. apply tracks_refl.
  - destruct (arr_get _ _) as [v|]; cbn [mbind option_bind]; [|discriminate].
    destruct (v =? -1); [apply IH|].
    destruct (spill i prev la st) as [st1|] eqn:Hs; cbn [mbind option_bind]; [|discriminate].
    intros H. apply IH in H. eapply tracks_trans; eauto using spill_tracks.
Qed.

Lemma process_call_tracks la n a prev st st' :
  process_call st n a la prev = Some st' → tracks la st st'.
Proof.
  unfold process_call. destruct (heap st !! a) as [i|]; cbn [mbind option_bind]; [|discriminate].
  destruct (decide _); [|intros [= <-]; apply tracks_refl].
  destruct prev; [|intros [= <-]; apply tracks_refl].
  apply spill_all_tracks.
Qed.

Lemma process_insn_tracks n a la prev st st' la' :
  process_insn st n a la prev = Some (st', la') → tracks la' st st'.
Proof.
  unfold process_insn. destruct (heap st !! a) as [i|]; cbn [mbind option_bind]; [|discriminate].
  destruct (find_local_allocator _ _ _) as [la1|]; cbn [mbind option_bind]; [|discriminate].
  destruct (process_reads _ _ _ _ _ _) as [st1|] eqn:H1; cbn [mbind option_bind]; [|discriminate].
  destruct (process_write _ _ _ _ _) as [st2|] eqn:H2; cbn [mbind option_bind]; [|discriminate].
  destruct (process_call _ _ _ _ _) as [st3|] eqn:H3; cbn [mbind option_bind]; [|discriminate].
  intros [= <- <-].
  eapply tracks_trans; [eapply process_reads_tracks; eauto|].
  eapply tracks_trans; [eapply process_write_tracks; eauto|].
  eapply process_call_tracks; eauto.
Qed.

Lemma loop_next_tracks n c c' :
  loop_next n c = Some c' → tracks (c_local_allocator c') (c_state c) (c_state c').
Proof.
  unfold loop_next. destruct (c_insn c) as [a|]; cbn [mbind option_bind]; [|discriminate].
  destruct (process_insn _ _ _ _ _) as [[st1 la]|] eqn:Hp; cbn [mbind option_bind]; [|discriminate].
  destruct (heap st1 !! a); cbn [mbind option_bind]; [|discriminate].
  intros [= <-]. simpl. eapply process_insn_tracks; eauto.
Qed.

(** *** Who can change an entry of the spill table *)

Lemma find_reg_None_inv (map : list Z) x ixs :
  find_reg map x ixs = Some None →
  ∀ j, j ∈ ixs → ∃ v, arr_get map j = Some v ∧ v ≠ x.
Proof.
  induction ixs as [|i ixs IH]; simpl; intros H j Hj; [inversion Hj|].
  destruct (arr_get map i) as [v|] eqn:Hv; simpl in H; [|discriminate].
  destruct (Z.eqb_spec v x); [discriminate|].
  apply elem_of_cons in Hj as [->|Hj]; eauto.
Qed.

Lemma find_max_dist_in h (map : list Z) cur ixs : ∀ mp0 md0 mp md,
  find_max_dist h map cur ixs mp0 md0 = Some (mp, md) → mp = mp0 ∨ mp ∈ ixs.
Proof.
  induction ixs as [|i ixs IH]; simpl; intros mp0 md0 mp md.
  - intros [= <- <-]. now left.
  - destruct (arr_get map i) as [v|]; simpl; [|discriminate].
    destruct (dist h v cur) as [d|]; simpl; [|discriminate].
    destruct (d >? md0); intros H; apply IH in H as [->|H];
      rewrite elem_of_cons; auto.
Qed.

(** [allocate] leaves alone the entry of a register that is not
    resident. *)
Lemma allocate_offsets_other st n vr cur la prev pr st' w :
  allocate st n vr cur la prev = Some (pr, st') →
  (∀ j, 0 ≤ j < n → arr_get (phys_reg_map st) j ≠ Some w) →
  arr_get (offset_arr st') w = arr_get (offset_arr st) w.
Proof.
  unfold allocate. destruct (find_reg _ _ _) as [[i|]|]; simpl; [| |discriminate].
  - destruct (arr_set _ _ _); simpl; [|discriminate]. now intros [= _ <-].
  - destruct (find_max_dist _ _ _ _ _ _) as [[mp md]|] eqn:Hfm; simpl; [|discriminate].
    destruct (spill mp prev la st) as [st1|] eqn:Hs; simpl; [|discriminate].
    destruct (arr_set _ _ _); simpl; [|discriminate]. intros [= _ <-] Hw. simpl.
    apply spill_effect in Hs as (v & off & Hv & _ & Hrange & -> & _).
    apply find_max_dist_in in Hfm as [->|Hin].
    { unfold arr_get in Hv. simpl in Hv. discriminate. }
    apply elem_of_seqZ in Hin.
    apply arr_get_insert_ne; [|lia]. intros ->. apply (Hw mp); [lia|exact Hv].
Qed.

(** C5, as the code has it: [spill] gives the virtual register in the
    register a slot of its own, one word below the frame reservation
    in [int] arithmetic ([next_slot]), and leaves every other entry of
    the spill table alone; over one iteration of the pass an entry is
    either unchanged or names a slot created in that iteration, the
    [k]-th below the reservation the iteration started with; and a
    reload uses the offset on record when [ensure] is entered. *)
Theorem offsets_change_by_spill_only :
  (∀ pr prev la st st' v,
     spill pr prev la st = Some st' → arr_get (phys_reg_map st) pr = Some v →
     arr_get (offset_arr st') v = Some (next_slot (frame_imm (heap st) la)) ∧
     ∀ w, w ≠ v → arr_get (offset_arr st') w = arr_get (offset_arr st) w) ∧
  (∀ n c c' w,
     loop_next n c = Some c' →
     match c_local_allocator c' with
     | None => offset_arr (c_state c') = offset_arr (c_state c)
     | Some l =>
       (l < length (heap (c_state c)))%nat →
       arr_get (offset_arr (c_state c')) w = arr_get (offset_arr (c_state c)) w ∨
       ∃ k, (1 ≤ k ≤ stores (drop (length (heap (c_state c))) (heap (c_state c'))))%nat ∧
            arr_get (offset_arr (c_state c')) w
            = Some (nth_slot k (frame_imm (heap (c_state c)) (Some l)))
     end) ∧
  (∀ st n vr cur la prev pr st' off,
     ensure st n vr cur la prev = Some (pr, st') →
     find_reg (phys_reg_map st) vr (seqZ 0 n) = Some None →
     arr_get (offset_arr st) vr = Some off → off ≠ -1 →
     arr_get (offset_arr st') vr = Some off ∧
     view (heap st' !!! (length (heap st') - 1)%nat)
       = (LOAD_AI, base_register, int_const off, physical_register pr)).
Proof.
  split; [|split].
  - intros pr prev la st st' v H Hv.
    apply spill_effect in H as (v' & off & Hv' & Hsp & Hrange & -> & _).
    rewrite Hv in Hv'. injection Hv' as <-.
    apply insert_spill_effect in Hsp as (l & -> & _ & -> & _). simpl. split.
    + rewrite arr_get_set by lia. now rewrite decide_True.
    + intros w Hne. apply arr_get_insert_ne; [auto|lia].
  - intros n c c' w H. apply loop_next_tracks in H as [_ H].
    unfold offsets_rel in H. destruct (c_local_allocator c'); auto.
  - intros st n vr cur la prev pr st' off He Hfind Hoff Hne.
    unfold ensure in He. rewrite Hfind in He. cbn [mbind option_bind] in He.
    destruct (allocate st n vr cur la prev) as [[pr1 st1]|] eqn:Ha;
      cbn [mbind option_bind] in He; [|discriminate].
    assert (Hsame : arr_get (offset_arr st1) vr = Some off).
    { rewrite (allocate_offsets_other _ _ _ _ _ _ _ _ vr Ha); auto.
      intros j Hj Hres.
      destruct (find_reg_None_inv _ _ _ Hfind j) as (v & Hv & Hvne);
        [apply elem_of_seqZ; lia | congruence]. }
    rewrite Hsame in He. cbn [mbind option_bind] in He.
    destruct (Z.eqb_spec off (-1)); [contradiction|].
    destruct (insert_load off pr1 prev (heap st1)) as [h|] eqn:Hl;
      cbn [mbind option_bind] in He; [|discriminate].
    injection He as <- <-. simpl. split; [exact Hsame|].
    apply insert_after_effect in Hl as (Hlen & _ & Hnew).
    rewrite Hlen. replace (S (length (heap st1)) - 1)%nat with (length (heap st1)) by lia.
    exact Hnew.
Qed.

(** *** The stores of a call *)

Lemma residents_ext (map map' : list Z) ixs :
  (∀ i, i ∈ ixs → arr_get map' i = arr_get map i) →
  residents map' ixs = residents map ixs.
Proof.
  unfold residents. induction ixs as [|i ixs IH]; intros H; [reflexivity|].
  rewrite !filter_cons. rewrite (H i) by left.
  rewrite IH by (intros; apply H; now right). reflexivity.
Qed.


Lemma spill_all_views la prev ixs : ∀ st st',
  spill_all st la prev ixs = Some st' →
  ∀ x, (x < length (heap st))%nat → la ≠ Some x →
       view (heap st' !!! x) = view (heap st !!! x).
Proof.
  induction ixs as [|i ixs IH]; intros st st'; simpl.
  - intros [= <-]. auto.
  - destruct (arr_get _ _) as [v|]; cbn [mbind option_bind]; [|discriminate].
    destruct (v =? -1); [apply IH|].
    destruct (spill i prev la st) as [st1|] eqn:Hs; cbn [mbind option_bind]; [|discriminate].
    intros H x Hx Hla.
    apply spill_effect in Hs as (_ & off & _ & Hsp & _).
    apply insert_spill_effect in Hsp as (l & -> & _ & _ & Hlen & _ & Hold & _).
    rewrite (IH _ _ H) by (auto; lia). apply Hold; auto; congruence.
Qed.

(** The nodes a run of the spill loop adds are the stores of the
    resident registers, in the order of the registers. *)
Lemma spill_all_effect la prev m len : ∀ st st',
  0 ≤ m →
  spill_all st la prev (seqZ m len) = Some st' →
  view <$> drop (length (heap st)) (heap st')
  = spill_stores (residents (phys_reg_map st) (seqZ m len)) (frame_imm (heap st) la).
Proof.
  remember (Z.to_nat len) as k eqn:Hk. revert m len Hk.
  induction k as [|k IH]; intros m len Hk st st' Hm.
  - rewrite seqZ_nil by lia. intros H. injection H as <-. now rewrite drop_all.
  - rewrite seqZ_cons by lia. simpl. unfold residents. rewrite filter_cons.
    fold (residents (phys_reg_map st) (seqZ (Z.succ m) (Z.pred len))).
    destruct (arr_get (phys_reg_map st) m) as [v|] eqn:Hv; cbn [mbind option_bind];
      [|discriminate].
    destruct (Z.eqb_spec v (-1)) as [->|Hne].
    + rewrite decide_False by auto. apply IH; lia.
    + rewrite decide_True by congruence.
      destruct (spill m prev la st) as [st1|] eqn:Hs; cbn [mbind option_bind]; [|discriminate].
      intros H. pose proof (spill_all_views _ _ _ _ _ H) as Hviews.
      pose proof (spill_all_tracks _ _ _ _ _ H) as [(Hle & _) _].
      apply IH in H; [|lia|lia].
      apply spill_effect in Hs as (_ & off & _ & Hsp & _ & _ & Hmap).
      apply insert_spill_effect in Hsp as (l & -> & Hl & -> & Hlen & Hnew & _ & Hla).
      destruct (lookup_lt_is_Some_2 (heap st') (length (heap st))) as [x Hx]; [lia|].
      rewrite (drop_S _ _ _ Hx), fmap_cons. simpl. f_equal.
      * rewrite <- (list_lookup_total_correct _ _ _ Hx).
        rewrite Hviews by (try lia; intros [= ->]; lia). exact Hnew.
      * rewrite <- Hlen, H. f_equal.
        -- rewrite Hmap. apply residents_ext. intros i Hi. apply elem_of_seqZ in Hi.
           apply arr_get_insert_ne; lia.
        -- simpl. unfold view in Hla. injection Hla as _ _ -> _. reflexivity.
Qed.

Lemma loop_next_evolves n c c' :
  loop_next n c = Some c' →
  evolves (c_local_allocator c') (heap (c_state c)) (heap (c_state c')).
Proof. intros H. apply loop_next_tracks in H. apply H. Qed.

Lemma reaches_latched_evolves n l c c' :
  reaches_latched n l c c' → evolves (Some l) (heap (c_state c)) (heap (c_state c')).
Proof.
  induction 1 as [c|c c1 c' Hnext Hla _ IH]; [apply evolves_refl|].
  apply loop_next_evolves in Hnext. rewrite Hla in Hnext.
  eapply evolves_trans; eauto.
Qed.

(** C9, as the code has it: [insert_spill] replaces the frame
    reservation by the offset it returns, one word below it in [int]
    arithmetic; over any stretch of the pass with the same frame
    allocator the reservation is its value at the start lowered once
    per store created since.  While that stays within [int], from a
    reservation of at most zero, it is the starting value minus one
    word per slot: the magnitude is the initial magnitude plus one word
    per slot and does not shrink. *)
Theorem frame_reservation_per_spill :
  (∀ pr prev la h off h',
     insert_spill pr prev la h = Some (off, h') →
     off = next_slot (frame_imm h la) ∧ frame_imm h' la = off ∧
     (INT_MIN ≤ frame_imm h la - WORD_SIZE ≤ INT_MAX → off = frame_imm h la - WORD_SIZE)) ∧
  (∀ n l c c',
     (l < length (heap (c_state c)))%nat → reaches_latched n l c c' →
     let created := stores (drop (length (heap (c_state c))) (heap (c_state c'))) in
     frame_imm (heap (c_state c')) (Some l)
       = nth_slot created (frame_imm (heap (c_state c)) (Some l)) ∧
     (0 ≤ WORD_SIZE → frame_imm (heap (c_state c)) (Some l) ≤ 0 →
      INT_MIN ≤ frame_imm (heap (c_state c)) (Some l) - WORD_SIZE * Z.of_nat created →
      frame_imm (heap (c_state c')) (Some l)
        = frame_imm (heap (c_state c)) (Some l) - WORD_SIZE * Z.of_nat created ∧
      Z.abs (frame_imm (heap (c_state c')) (Some l))
        = Z.abs (frame_imm (heap (c_state c)) (Some l)) + WORD_SIZE * Z.of_nat created ∧
      Z.abs (frame_imm (heap (c_state c)) (Some l))
        ≤ Z.abs (frame_imm (heap (c_state c')) (Some l)))).
Proof.
  split.
  - intros pr prev la h off h' H.
    apply insert_spill_effect in H as (l & -> & Hl & -> & _ & _ & _ & Hla).
    split; [reflexivity|]. split.
    + simpl. unfold view in Hla. injection Hla as _ _ -> _. reflexivity.
    + intros Hrange. simpl. unfold next_slot. now apply int_wrap_id.
  - intros n l c c' Hl Hreach created.
    destruct (reaches_latched_evolves n l c c' Hreach) as (_ & _ & Himm).
    specialize (Himm l eq_refl Hl). fold created in Himm. split; [exact Himm|].
    intros HW Hneg Hmin. rewrite Himm.
    rewrite nth_slot_exact by (auto; unfold INT_MAX; lia). nia.
Qed.




Lemma allocate_loop_rewrites n fuel : ∀ st la prev insn st',
  allocate_loop fuel st n la prev insn = Some st' →
  (length (heap st) ≤ length (heap st'))%nat ∧
  ∀ x, (x < length (heap st))%nat → shrinks (heap st !!! x) (heap st' !!! x).
Proof.
  induction fuel as [|fuel IH]; intros st la prev [a|] st'; simpl; try discriminate.
  - intros [= <-]. split; [lia|]. intros; apply shrinks_refl.
  - destruct (process_insn st n a la prev) as [[st1 la1]|] eqn:Hp; cbn [mbind option_bind];
      [|discriminate].
    destruct (heap st1 !! a) as [i|]; cbn [mbind option_bind]; [|discriminate].
    intros H. apply IH in H as [Hlen Hsh].
    apply process_insn_tracks in Hp as [(Hlen1 & Hsh1 & _) _].
    split; [lia|]. intros x Hx. eapply shrinks_trans; [apply Hsh1 | apply Hsh]; lia.
  - intros [= <-]. split; [lia|]. intros; apply shrinks_refl.
Qed.

End Effects.

(** * The pass as a whole *)

Section Pass.

Context {T : Target}.

Lemma allocate_registers_returns strict h (list : InsnList) n :
  1 ≤ n → well_formed strict h (head list) →
  ∃ st done,
    allocate_registers h (Some list) n = Returned (heap st) ∧
    lseg (heap st) (head list) done None ∧
    (strict → Forall no_vr (nodes (heap st) done)).
Proof.
  intros Hn Hwf.
  destruct (initial_loop_inv strict n Hn h list Hwf) as (rest & Hinv).
  destruct (loop_total strict (head list) n Hn rest (length h) _ [] Hinv)
    as (st & done & Hrun & Hseg & Hnv).
  { destruct Hinv as [_ Hr _ _ _ _ _]. simpl in Hr. eapply lseg_length; eauto. }
  exists st, done. split; auto.
  unfold allocate_registers. rewrite decide_False by lia.
  simpl in Hrun. rewrite Hrun. reflexivity.
Qed.

(** C1: on a well-formed stream and with at least one physical register,
    [allocate_registers] returns.  In the stream it leaves behind,
    inserted stores and loads included, no operand is tagged as a
    virtual register; and every instruction of the input is still at
    its address, each operand as it was or rewritten to a physical
    register. *)
Theorem no_virtual_registers_remain h (list : InsnList) n :
  1 ≤ n → well_formed True h (head list) →
  ∃ h' out,
    allocate_registers h (Some list) n = Returned h' ∧
    stream h' (head list) = Some out ∧
    Forall (λ '(_, a, b, c), type a ≠ VIRTUAL_REG ∧ type b ≠ VIRTUAL_REG ∧
                             type c ≠ VIRTUAL_REG) out ∧
    ∀ x i, h !! x = Some i → ∃ i', h' !! x = Some i' ∧ shrinks i i'.
Proof.
  intros Hn Hwf.
  destruct (allocate_registers_returns True h list n Hn Hwf)
    as (st & done & Hret & Hseg & Hnv).
  exists (heap st), (view <$> nodes (heap st) done).
  split; [exact Hret|]. split; [now apply stream_lseg|]. split.
  - specialize (Hnv I). apply Forall_fmap. eapply Forall_impl; [exact Hnv|].
    intros i Hi. unfold no_vr, ops in Hi. rewrite !Forall_cons in Hi. simpl. tauto.
  - unfold allocate_registers in Hret. rewrite decide_False in Hret by lia.
    destruct (allocate_loop _ _ _ _ _ _) as [st0|] eqn:Hloop; [|discriminate].
    injection Hret as Hret. apply allocate_loop_rewrites in Hloop as [Hlen Hsh].
    simpl in Hlen, Hsh. rewrite Hret in *.
    intros x i Hi. pose proof (lookup_lt_Some _ _ _ Hi) as Hx.
    destruct (lookup_lt_is_Some_2 (heap st) x) as [i' Hi']; [lia|].
    exists i'. split; [exact Hi'|].
    rewrite <- (list_lookup_total_correct _ _ _ Hi), <- (list_lookup_total_correct _ _ _ Hi').
    now apply Hsh.
Qed.

(** C8, as the code has it: with no physical register the call prints
    the diagnostic and exits with status 1 before it touches the
    stream; with at least one it never takes that exit, and on a
    well-formed stream it returns.  On other streams it need not
    return: see [undefined_without_frame_allocator]. *)
Theorem configuration_error_only h (list : option InsnList) n :
  (n ≤ 0 → allocate_registers h list n = Exit 1 no_registers_message h) ∧
  (1 ≤ n →
   (∀ status msg h', allocate_registers h list n ≠ Exit status msg h') ∧
   ((∀ l, list = Some l → well_formed False h (head l)) →
    ∃ h', allocate_registers h list n = Returned h')).
Proof.
  split.
  - intros Hn. unfold allocate_registers. now rewrite decide_True by lia.
  - intros Hn. split.
    + intros status msg h'. unfold allocate_registers. rewrite decide_False by lia.
      destruct list as [l|]; [|discriminate].
      destruct (allocate_loop _ _ _ _ _ _); discriminate.
    + intros Hwf. destruct list as [l|].
      * destruct (allocate_registers_returns False h l n Hn (Hwf l eq_refl))
          as (st & done & Hret & _). eauto.
      * exists h. unfold allocate_registers. now rewrite decide_False by lia.
Qed.

(** C10: a NULL list with at least one register: the call returns at
    once and the heap is as it was. *)
Theorem null_list_returns h n :
  1 ≤ n → allocate_registers h None n = Returned h.
Proof.
  intros Hn. unfold allocate_registers. now rewrite decide_False by lia.
Qed.


End Pass.

(** * Further properties of the functions *)

(** ** [replace_register], applied more than once *)

Section Replace.

Context {T : Target}.

Lemma replace_operand_no_match vr pr o : is_vr vr o = false → replace_operand vr pr o = o.
Proof. unfold replace_operand. now intros ->. Qed.

Lemma replace_operand_done vr pr pr' o :
  replace_operand vr pr' (replace_operand vr pr o) = replace_operand vr pr o.
Proof.
  unfold replace_operand. destruct (is_vr vr o) eqn:E; [reflexivity|]. now rewrite E.
Qed.

Lemma replace_operand_commute vr1 pr1 vr2 pr2 o :
  vr1 ≠ vr2 →
  replace_operand vr2 pr2 (replace_operand vr1 pr1 o)
  = replace_operand vr1 pr1 (replace_operand vr2 pr2 o).
Proof.
  intros Hne. unfold replace_operand.
  destruct (is_vr vr1 o) eqn:E1, (is_vr vr2 o) eqn:E2; rewrite ?E1, ?E2; try reflexivity.
  unfold is_vr in E1, E2.
  apply andb_true_iff in E1 as [_ E1], E2 as [_ E2]. lia.
Qed.

Lemma replace_insn_no_match vr pr i : gone vr i → replace_insn vr pr i = i.
Proof.
  intros Hg. destruct i as [f a b c nx]. unfold replace_insn. simpl.
  pose proof (Hg 0%nat) as H0. pose proof (Hg 1%nat) as H1. pose proof (Hg 2%nat) as H2.
  simpl in H0, H1, H2. now rewrite !replace_operand_no_match.
Qed.

(** X1: [replace_register] changes nothing in an instruction that does not
    name [vr] as a virtual register; in particular a second replacement
    of the same virtual register, by whatever register, has no effect:
    the operands the first one rewrote are physical registers now. *)
Theorem replace_register_once vr pr pr' a h :
  (∀ i, h !! a = Some i → gone vr i → replace_register vr pr a h = Some h) ∧
  (∀ h', replace_register vr pr a h = Some h' → replace_register vr pr' a h' = Some h').
Proof.
  split.
  - intros i Hi Hg. unfold replace_register. rewrite Hi. simpl.
    rewrite replace_insn_no_match by auto. now rewrite list_insert_id.
  - intros h'. unfold replace_register.
    destruct (h !! a) as [i|] eqn:Hi; [|discriminate]. simpl. intros [= <-].
    rewrite list_lookup_insert_eq by (eapply lookup_lt_Some; eauto). simpl.
    rewrite list_insert_insert_eq. do 2 f_equal.
    unfold replace_insn. simpl. now rewrite !replace_operand_done.
Qed.

(** X2: Replacements of two different virtual registers commute, in the
    same instruction or in two: a physical register id that equals the
    id of the other virtual register is not taken for it. *)
Theorem replace_register_commute vr1 pr1 vr2 pr2 a b h :
  vr1 ≠ vr2 →
  (h1 ← replace_register vr1 pr1 a h; replace_register vr2 pr2 b h1)
  = (h2 ← replace_register vr2 pr2 b h; replace_register vr1 pr1 a h2).
Proof.
  intros Hne. unfold replace_register.
  destruct (h !! a) as [ia|] eqn:Ha; destruct (h !! b) as [ib|] eqn:Hb; simpl.
  - pose proof (lookup_lt_Some _ _ _ Ha) as Hla. pose proof (lookup_lt_Some _ _ _ Hb) as Hlb.
    destruct (decide (a = b)) as [->|Hab].
    + rewrite Ha in Hb. injection Hb as <-.
      rewrite !list_lookup_insert_eq by auto. simpl.
      rewrite !list_insert_insert_eq. do 2 f_equal.
      unfold replace_insn. simpl. f_equal; now apply replace_operand_commute.
    + rewrite !list_lookup_insert_ne by auto. rewrite Ha, Hb. simpl.
      f_equal. now apply list_insert_insert_ne.
  - rewrite list_lookup_insert_ne by congruence. rewrite Hb. reflexivity.
  - rewrite list_lookup_insert_ne by congruence. rewrite Ha. reflexivity.
  - reflexivity.
Qed.

End Replace.

(** ** Where inserted code goes; when [spill] and [dist] return *)

Section Insertion.

Context {T : Target}.

(** A node inserted after [p] comes directly after [p] in every list
    that visits [p], and in no other list. *)
Lemma insert_after_lseg new p h h' hd l1 l2 :
  insert_after new (Some p) h = Some h' →
  lseg h hd (l1 ++ p :: l2) None →
  lseg h' hd (l1 ++ p :: length h :: l2) None.
Proof.
  unfold insert_after. simpl.
  destruct (h !! p) as [pi|] eqn:Hp; [|discriminate]. simpl. intros [= <-] Hseg.
  pose proof (lseg_NoDup _ _ _ Hseg) as Hnd.
  apply NoDup_app in Hnd as (_ & Hd1 & Hnd). apply NoDup_cons in Hnd as [Hl2 _].
  apply lseg_insert; auto. intros Hin. apply (Hd1 p); [exact Hin|left].
Qed.

Lemma insert_after_lseg_other new prev h h' hd l :
  insert_after new prev h = Some h' →
  lseg h hd l None → (∀ p, prev = Some p → p ∉ l) →
  lseg h' hd l None.
Proof.
  unfold insert_after. destruct prev as [p|]; [|discriminate]. simpl.
  destruct (h !! p) as [pi|] eqn:Hp; [|discriminate]. simpl. intros [= <-] Hseg Hout.
  eapply lseg_ext; [|exact Hseg]. intros a i Ha Hi. exists i. split; auto.
  assert (p ≠ a) as Hne by (intros Heq; apply (Hout p eq_refl); rewrite Heq; exact Ha).
  rewrite list_lookup_insert_ne by exact Hne.
  apply lookup_app_l_Some. exact Hi.
Qed.

Lemma insert_after_total new p h :
  (p < length h)%nat → ∃ h', insert_after new (Some p) h = Some h'.
Proof.
  intros Hp. destruct (lookup_lt_is_Some_2 h p Hp) as [pi Hpi].
  unfold insert_after. simpl. rewrite Hpi. simpl. eauto.
Qed.

Lemma nodes_views_eq (h h' : list ILOCInsn) (L : list addr) :
  (∀ x, x ∈ L → view (h' !!! x) = view (h !!! x)) →
  view <$> nodes h' L = view <$> nodes h L.
Proof.
  intros H. unfold nodes. rewrite <- !list_fmap_compose.
  apply list_fmap_ext. intros j x Hx. simpl. apply H.
  eapply list_elem_of_lookup_2; eauto.
Qed.

Lemma insert_after_stream new p h hd l1 l2 :
  lseg h hd (l1 ++ p :: l2) None →
  ∃ h', insert_after new (Some p) h = Some h' ∧
        lseg h' hd (l1 ++ p :: length h :: l2) None ∧
        stream h' hd
        = Some ((view <$> nodes h (l1 ++ [p])) ++ view new :: (view <$> nodes h l2)).
Proof.
  intros Hseg.
  assert (Hvalid : ∀ x, x ∈ l1 ++ p :: l2 → (x < length h)%nat).
  { intros x Hx. eapply lseg_valid; eauto. }
  destruct (insert_after_total new p h) as [h' Hins].
  { apply Hvalid. apply elem_of_app. right. left. }
  exists h'. split; [exact Hins|].
  pose proof (insert_after_lseg _ _ _ _ _ _ _ Hins Hseg) as Hseg'.
  split; [exact Hseg'|].
  apply insert_after_effect in Hins as (Hlen & Hold & Hnew).
  rewrite (stream_lseg _ _ _ Hseg').
  change ((h' !!!.) <$> l1 ++ p :: length h :: l2) with (nodes h' (l1 ++ p :: length h :: l2)).
  f_equal.
  replace (l1 ++ p :: length h :: l2) with ((l1 ++ [p]) ++ length h :: l2)
    by (rewrite <- app_assoc; reflexivity).
  rewrite nodes_app, fmap_app, nodes_cons, fmap_cons, Hnew. f_equal; [|f_equal].
  - apply nodes_views_eq. intros x Hx. apply Hold, Hvalid.
    apply elem_of_app in Hx as [Hx|Hx]; apply elem_of_app; [now left|].
    right. apply list_elem_of_singleton in Hx as ->. left.
  - apply nodes_views_eq. intros x Hx. apply Hold, Hvalid.
    apply elem_of_app. right. now right.
Qed.

(** X3: [insert_load] after an instruction [p] of a NULL-terminated stream
    returns, and the stream is then what it was with the load directly
    after [p]; no instruction of the stream changes. *)
Theorem insert_load_position off pr p h hd l1 l2 :
  lseg h hd (l1 ++ p :: l2) None →
  ∃ h', insert_load off pr (Some p) h = Some h' ∧
        stream h' hd
        = Some ((view <$> nodes h (l1 ++ [p]))
                ++ (LOAD_AI, base_register, int_const off, physical_register pr)
                   :: (view <$> nodes h l2)).
Proof.
  intros Hseg. unfold insert_load.
  destruct (insert_after_stream
              (ILOCInsn_new_3op LOAD_AI base_register (int_const off) (physical_register pr))
              p h hd l1 l2 Hseg) as (h' & Hins & _ & Hst).
  exists h'. split; [exact Hins|exact Hst].
Qed.

Lemma lseg_set_op1_imm h hd l q la li v :
  h !! la = Some li → lseg h hd l q → lseg (<[la := set_op1_imm li v]> h) hd l q.
Proof.
  intros Hla. apply lseg_ext. intros a i _ Hi.
  destruct (decide (a = la)) as [->|Hne].
  - rewrite Hla in Hi. injection Hi as <-. eexists. split.
    + apply list_lookup_insert_eq. eapply lookup_lt_Some; eauto.
    + reflexivity.
  - exists i. split; [|reflexivity]. now rewrite list_lookup_insert_ne.
Qed.

(** X4: [insert_spill] after an instruction [p] of a NULL-terminated stream,
    with a frame allocator [l] that exists: the offset returned is one
    word below the frame reservation in [int] arithmetic (exactly one
    word below it when that is an [int]), it is the new frame
    reservation, and the stream is what it was (the new reservation
    apart) with the store to that offset directly after [p]. *)
Theorem insert_spill_position pr p l li h hd l1 l2 :
  lseg h hd (l1 ++ p :: l2) None → h !! l = Some li →
  let off := int_wrap (imm (op1 li) - WORD_SIZE) in
  let h1 := <[l := set_op1_imm li off]> h in
  ∃ h', insert_spill pr (Some p) (Some l) h = Some (off, h') ∧
        frame_imm h' (Some l) = off ∧
        (INT_MIN ≤ imm (op1 li) - WORD_SIZE ≤ INT_MAX → off = imm (op1 li) - WORD_SIZE) ∧
        stream h' hd
        = Some ((view <$> nodes h1 (l1 ++ [p]))
                ++ (STORE_AI, physical_register pr, base_register, int_const off)
                   :: (view <$> nodes h1 l2)).
Proof.
  intros Hseg Hl off h1.
  assert (Hseg1 : lseg h1 hd (l1 ++ p :: l2) None) by now apply lseg_set_op1_imm.
  destruct (insert_after_stream
              (ILOCInsn_new_3op STORE_AI (physical_register pr) base_register (int_const off))
              p h1 hd l1 l2 Hseg1) as (h' & Hins & _ & Hst).
  assert (Hsp : insert_spill pr (Some p) (Some l) h = Some (off, h')).
  { unfold insert_spill. cbn [mbind option_bind]. rewrite Hl. cbn [mbind option_bind].
    fold off. fold h1. rewrite Hins. reflexivity. }
  exists h'. split; [exact Hsp|]. split; [|split; [apply int_wrap_id | exact Hst]].
  apply insert_spill_effect in Hsp as (l' & [= <-] & _ & _ & _ & _ & _ & Hla).
  simpl. unfold view in Hla. injection Hla as _ _ -> _.
  rewrite (list_lookup_total_correct _ _ _ Hl). reflexivity.
Qed.

(** X5: [spill] has a defined result exactly when the instruction to insert
    after and the frame allocator exist, [pr] is an index of the
    register map and the register holds an index of the spill table; a
    free register, which holds -1, is not one. *)
Theorem spill_defined pr prev la st :
  is_Some (spill pr prev la st) ↔
  (∃ p, prev = Some p ∧ (p < length (heap st))%nat) ∧
  (∃ l, la = Some l ∧ (l < length (heap st))%nat) ∧
  (∃ v, arr_get (phys_reg_map st) pr = Some v ∧
        0 ≤ v < Z.of_nat (length (offset_arr st))).
Proof.
  split.
  - intros [st' H]. pose proof H as H0.
    apply spill_effect in H as (v & off & Hv & Hsp & Hrange & _).
    split; [|split].
    + unfold insert_spill in Hsp. destruct la as [l|]; [|discriminate]. simpl in Hsp.
      destruct (heap st !! l) as [li|]; [|discriminate]. simpl in Hsp.
      unfold insert_after in Hsp. destruct prev as [p|]; [|discriminate]. simpl in Hsp.
      destruct (_ !! p) as [pi|] eqn:Hp; [|discriminate].
      exists p. split; auto. apply lookup_lt_Some in Hp. now rewrite length_insert in Hp.
    + apply insert_spill_effect in Hsp as (l & -> & Hl & _). eauto.
    + eauto.
  - intros ((p & -> & Hp) & (l & -> & Hl) & (v & Hv & Hrange)).
    destruct (lookup_lt_is_Some_2 _ _ Hl) as [li Hli].
    destruct (insert_after_total
                (ILOCInsn_new_3op STORE_AI (physical_register pr) base_register
                   (int_const (int_wrap (imm (op1 li) - WORD_SIZE))))
                p (<[l := set_op1_imm li (int_wrap (imm (op1 li) - WORD_SIZE))]> (heap st)))
      as [h' Hins]; [now rewrite length_insert|].
    unfold spill, insert_spill. cbn [mbind option_bind]. rewrite Hli.
    cbn [mbind option_bind]. rewrite Hins. cbn [mbind option_bind].
    rewrite Hv. cbn [mbind option_bind].
    rewrite (arr_set_Some (offset_arr st) v) by exact Hrange.
    cbn [mbind option_bind].
    rewrite (arr_set_Some (phys_reg_map st) pr) by (eapply arr_get_length; eauto). cbn [mbind option_bind]. eauto.
Qed.

(** X6: [dist] on a NULL-terminated stream returns: the number of steps
    from [cur] to the first later instruction that reads [vr], whatever
    [cur] itself reads, or [MAX_VIRTUAL_REGS] when none does. *)
Theorem dist_first_reader h vr cur l :
  lseg h (Some cur) (cur :: l) None →
  (∃ k i, dist h vr cur = Some (Z.of_nat k + 1) ∧
          nodes h l !! k = Some i ∧ reads_vr vr i = true ∧
          ∀ j i', (j < k)%nat → nodes h l !! j = Some i' → reads_vr vr i' = false) ∨
  (dist h vr cur = Some MAX_VIRTUAL_REGS ∧
   ∀ i, i ∈ nodes h l → reads_vr vr i = false).
Proof.
  simpl. intros (_ & c & Hc & Hseg).
  rewrite (dist_spec h vr cur c l Hc Hseg). fold (nodes h l).
  destruct (first_read vr (nodes h l)) as [k|] eqn:E.
  - left. apply first_read_Some in E as ((i & Hi & Hr) & Hbefore).
    exists k, i. split; [f_equal; lia|]. auto.
  - right. split; [reflexivity|]. now apply first_read_None.
Qed.

End Insertion.

(** ** The registers [allocate] and [ensure] hand out *)

Section Registers.

Context {T : Target}.

Lemma find_reg_Some_inv (map : list Z) x ixs i :
  find_reg map x ixs = Some (Some i) → i ∈ ixs ∧ arr_get map i = Some x.
Proof.
  induction ixs as [|j ixs IH]; simpl; [discriminate|].
  destruct (arr_get map j) as [v|] eqn:Hv; simpl; [|discriminate].
  destruct (Z.eqb_spec v x) as [->|Hne].
  - intros [= <-]. split; [left|exact Hv].
  - intros H. apply IH in H as [? ?]. split; [now right|auto].
Qed.

(** The search returns the first index that holds [x]. *)
Lemma find_reg_first (map : list Z) x i len :
  0 ≤ i < len → arr_get map i = Some x →
  (∀ j, 0 ≤ j < i → arr_get map j ≠ Some x) →
  find_reg map x (seqZ 0 len) = Some (Some i).
Proof.
  intros Hi Hx Hbefore.
  destruct (find_reg_seqZ map x 0 (i + 1)) as [(i' & Hf & Hi' & Hx' & Hb')|[_ Hnone]].
  - lia.
  - apply arr_get_length in Hx. lia.
  - assert (i' = i) as ->.
    { destruct (decide (i' = i)); auto. exfalso. apply (Hbefore i'); [lia|exact Hx']. }
    clear Hb' Hx' Hi'.
    assert (Hgen : ∀ k m len1 len2, Z.to_nat len1 = k → 0 ≤ len1 ≤ len2 →
              find_reg map x (seqZ m len1) = Some (Some i) →
              find_reg map x (seqZ m len2) = Some (Some i)).
    { induction k as [|k IH]; intros m len1 len2 Hk Hle.
      - rewrite (seqZ_nil m len1) by lia. discriminate.
      - rewrite (seqZ_cons m len1), (seqZ_cons m len2) by lia. simpl.
        destruct (arr_get map m) as [v|]; simpl; [|discriminate].
        destruct (v =? x); auto. apply IH; lia. }
    apply (Hgen _ 0 (i + 1) len eq_refl); [lia|exact Hf].
  - destruct (Hnone i) as (v & Hv & Hne); [lia|]. congruence.
Qed.

Lemma allocate_range st n vr cur la prev pr st' :
  allocate st n vr cur la prev = Some (pr, st') → 0 ≤ pr < n.
Proof.
  unfold allocate. destruct (find_reg _ _ _) as [[i|]|] eqn:Hf; simpl; [| |discriminate].
  - destruct (arr_set _ _ _); simpl; [|discriminate]. intros [= <- _].
    apply find_reg_Some_inv in Hf as [Hin _]. apply elem_of_seqZ in Hin. lia.
  - destruct (find_max_dist _ _ _ _ _ _) as [[mp md]|] eqn:Hfm; simpl; [|discriminate].
    destruct (spill mp prev la st) as [st1|] eqn:Hs; simpl; [|discriminate].
    destruct (arr_set _ _ _); simpl; [|discriminate]. intros [= <- _].
    apply find_max_dist_in in Hfm as [->|Hin].
    + apply spill_effect in Hs as (v & off & Hv & _). discriminate.
    + apply elem_of_seqZ in Hin. lia.
Qed.

(** X7: What a call of [allocate] that returns has done: the register
    returned is one of the [n], it holds [vr] now, and no other entry of
    the register map changed.  Either it was free and nothing else
    happened, or it held a virtual register, which now has a new slot,
    one word below the frame reservation in [int] arithmetic, and a
    store of the register to that slot is the one node added. *)
Theorem allocate_result st n vr cur la prev pr st' :
  allocate st n vr cur la prev = Some (pr, st') →
  0 ≤ pr < n ∧
  arr_get (phys_reg_map st') pr = Some vr ∧
  length (phys_reg_map st') = length (phys_reg_map st) ∧
  (∀ j, j ≠ pr → arr_get (phys_reg_map st') j = arr_get (phys_reg_map st) j) ∧
  ((arr_get (phys_reg_map st) pr = Some (-1) ∧
    heap st' = heap st ∧ offset_arr st' = offset_arr st) ∨
   (∃ v, arr_get (phys_reg_map st) pr = Some v ∧ v ≠ -1 ∧
         arr_get (offset_arr st') v = Some (next_slot (frame_imm (heap st) la)) ∧
         length (heap st') = S (length (heap st)) ∧
         view (heap st' !!! length (heap st))
         = (STORE_AI, physical_register pr, base_register,
            int_const (next_slot (frame_imm (heap st) la))))).
Proof.
  intros H. pose proof (allocate_range _ _ _ _ _ _ _ _ H) as Hpr.
  split; [exact Hpr|]. revert H. unfold allocate.
  destruct (find_reg _ _ _) as [[i|]|] eqn:Hf; simpl; [| |discriminate].
  - destruct (arr_set _ _ _) as [map|] eqn:Hm; simpl; [|discriminate]. intros [= <- <-].
    apply arr_set_inv in Hm as [Hi ->]. simpl.
    apply find_reg_Some_inv in Hf as [_ Hfree].
    split; [rewrite arr_get_set by lia; now rewrite decide_True|].
    split; [now rewrite length_insert|].
    split; [|left; auto].
    intros j Hj. apply arr_get_insert_ne; [auto|lia].
  - destruct (find_max_dist _ _ _ _ _ _) as [[mp md]|] eqn:Hfm; simpl; [|discriminate].
    destruct (spill mp prev la st) as [st1|] eqn:Hs; simpl; [|discriminate].
    destruct (arr_set _ _ _) as [map|] eqn:Hm; simpl; [|discriminate]. intros [= <- <-].
    apply arr_set_inv in Hm as [Hi ->]. simpl.
    apply spill_effect in Hs as (v & off & Hv & Hsp & Hrange & Hoffs & Hmap).
    rewrite Hmap in *. rewrite length_insert in Hi.
    split; [rewrite arr_get_set by (rewrite ?length_insert; lia); now rewrite decide_True|].
    split; [now rewrite !length_insert|].
    split.
    { intros j Hj. rewrite list_insert_insert_eq. apply arr_get_insert_ne; [auto|lia]. }
    right. exists v. split; [exact Hv|].
    split.
    { destruct (find_reg_None_inv _ _ _ Hf mp) as (v' & Hv' & Hne);
        [apply elem_of_seqZ; lia | congruence]. }
    apply insert_spill_effect in Hsp as (l & -> & Hl & -> & Hlen & Hnew & _).
    rewrite Hoffs. split; [|split; [exact Hlen|exact Hnew]].
    rewrite arr_get_set by lia. now rewrite decide_True.
Qed.

(** X8: [ensure] for a virtual register that is resident returns the
    lowest register that holds it and touches nothing: no heap access,
    no change of either array. *)
Theorem ensure_resident st n vr cur la prev i :
  0 ≤ i < n → arr_get (phys_reg_map st) i = Some vr →
  (∀ j, 0 ≤ j < i → arr_get (phys_reg_map st) j ≠ Some vr) →
  ensure st n vr cur la prev = Some (i, st).
Proof.
  intros Hi Hx Hbefore. unfold ensure.
  rewrite (find_reg_first _ _ i) by auto. reflexivity.
Qed.

(** X9: When [ensure] has to evict a register for a virtual register that
    was spilled before, it adds two nodes: the store of the evicted
    register to a new slot, one word below the frame reservation in
    [int] arithmetic, then the reload into the same register.  Both go
    directly after [p], so in the stream the reload comes first and the
    store second. *)
Theorem ensure_reload_precedes_store st n vr cur la p pr st' off hd l1 l2 :
  lseg (heap st) hd (l1 ++ p :: l2) None →
  find_reg (phys_reg_map st) (-1) (seqZ 0 n) = Some None →
  find_reg (phys_reg_map st) vr (seqZ 0 n) = Some None →
  arr_get (offset_arr st) vr = Some off → off ≠ -1 →
  ensure st n vr cur la (Some p) = Some (pr, st') →
  let k := length (heap st) in
  lseg (heap st') hd (l1 ++ p :: S k :: k :: l2) None ∧
  view (heap st' !!! S k)
  = (LOAD_AI, base_register, int_const off, physical_register pr) ∧
  view (heap st' !!! k)
  = (STORE_AI, physical_register pr, base_register,
     int_const (next_slot (frame_imm (heap st) la))).
Proof.
  intros Hseg Hfull Hout Hoff Hne He k.
  unfold ensure in He. rewrite Hout in He. cbn [mbind option_bind] in He.
  destruct (allocate st n vr cur la (Some p)) as [[pr1 st1]|] eqn:Ha;
    cbn [mbind option_bind] in He; [|discriminate].
  assert (Hsame : arr_get (offset_arr st1) vr = Some off).
  { rewrite (allocate_offsets_other _ _ _ _ _ _ _ _ vr Ha); auto.
    intros j Hj Hres.
    destruct (find_reg_None_inv _ _ _ Hout j) as (v & Hv & Hvne);
      [apply elem_of_seqZ; lia | congruence]. }
  rewrite Hsame in He. cbn [mbind option_bind] in He.
  destruct (Z.eqb_spec off (-1)); [contradiction|].
  destruct (insert_load off pr1 (Some p) (heap st1)) as [h2|] eqn:Hl;
    cbn [mbind option_bind] in He; [|discriminate].
  injection He as <- <-. simpl.
  unfold allocate in Ha. rewrite Hfull in Ha. cbn [mbind option_bind] in Ha.
  destruct (find_max_dist _ _ _ _ _ _) as [[mp md]|]; cbn [mbind option_bind] in Ha;
    [|discriminate].
  destruct (spill mp (Some p) la st) as [st0|] eqn:Hs; cbn [mbind option_bind] in Ha;
    [|discriminate].
  destruct (arr_set _ _ _) as [map|]; cbn [mbind option_bind] in Ha; [|discriminate].
  injection Ha as <- <-. cbn [set_map heap phys_reg_map offset_arr] in *.
  apply spill_effect in Hs as (v & off0 & _ & Hsp & _).
  pose proof Hsp as Hsp0.
  apply insert_spill_effect in Hsp0 as (l & -> & Hl0 & -> & Hlen & Hnew & _).
  assert (Hseg0 : lseg (heap st0) hd (l1 ++ p :: k :: l2) None).
  { unfold insert_spill in Hsp. cbn [mbind option_bind] in Hsp.
    destruct (heap st !! l) as [li|] eqn:Hli; cbn [mbind option_bind] in Hsp; [|discriminate].
    destruct (insert_after _ _ _) as [h0|] eqn:Hins; cbn [mbind option_bind] in Hsp;
      [|discriminate].
    injection Hsp as _ <-.
    apply (insert_after_lseg _ _ _ _ hd l1 l2) in Hins.
    - now rewrite length_insert in Hins.
    - now apply lseg_set_op1_imm. }
  unfold insert_load in Hl.
  pose proof (insert_after_lseg _ _ _ _ hd l1 (k :: l2) Hl Hseg0) as Hseg2.
  apply insert_after_effect in Hl as (Hlen2 & Hold2 & Hnew2).
  rewrite Hlen in Hseg2, Hnew2. fold k in Hseg2, Hnew2.
  split; [exact Hseg2|]. split; [exact Hnew2|].
  rewrite Hold2 by (fold k; lia). exact Hnew.
Qed.

(** X10: A round trip through a slot: [spill] records for the virtual
    register [v] the offset of the slot it stored the register to.
    When the register held the only copy of [v] and that offset is not
    -1, which stands for "never spilled", a later [ensure] for [v]
    takes the lowest free register, evicts nothing, and adds one node,
    the load from the recorded offset. *)
Theorem spill_then_ensure_reloads st n pr v prev la st1 cur la' p' off :
  Z.of_nat (length (phys_reg_map st)) = n →
  arr_get (phys_reg_map st) pr = Some v →
  (∀ j, j ≠ pr → arr_get (phys_reg_map st) j ≠ Some v) →
  spill pr prev la st = Some st1 →
  arr_get (offset_arr st1) v = Some off → off ≠ -1 →
  (p' < length (heap st1))%nat →
  off = next_slot (frame_imm (heap st) la) ∧
  view (heap st1 !!! length (heap st))
  = (STORE_AI, physical_register pr, base_register, int_const off) ∧
  ∃ pr' st2,
    ensure st1 n v cur la' (Some p') = Some (pr', st2) ∧
    0 ≤ pr' ≤ pr ∧
    arr_get (phys_reg_map st2) pr' = Some v ∧
    offset_arr st2 = offset_arr st1 ∧
    length (heap st2) = S (length (heap st1)) ∧
    view (heap st2 !!! length (heap st1))
    = (LOAD_AI, base_register, int_const off, physical_register pr').
Proof.
  intros Hlen Hv Honly Hs Hrec Hoff Hp'.
  apply spill_effect in Hs as (v' & off' & Hv' & Hsp & Hrange & Hoffs & Hmap).
  rewrite Hv in Hv'. injection Hv' as <-.
  apply insert_spill_effect in Hsp as (l & -> & _ & -> & _ & Hnew & _).
  assert (off = next_slot (imm (op1 (heap st !!! l)))) as ->.
  { rewrite Hoffs, arr_get_set, decide_True in Hrec by (auto; lia). congruence. }
  split; [reflexivity|]. split; [exact Hnew|]. clear Hnew.
  pose proof (arr_get_length _ _ _ Hv) as Hpr.
  assert (Hlen1 : Z.of_nat (length (phys_reg_map st1)) = n)
    by (rewrite Hmap, length_insert; exact Hlen).
  assert (Hget1 : ∀ j, 0 ≤ j →
            arr_get (phys_reg_map st1) j
            = if decide (pr = j) then Some (-1) else arr_get (phys_reg_map st) j).
  { intros j Hj. rewrite Hmap. apply arr_get_set; lia. }
  unfold ensure.
  destruct (find_reg_seqZ (phys_reg_map st1) v 0 n) as [(i & _ & Hi & Hx & _)|[Hf _]];
    [lia | lia | |].
  { exfalso. rewrite Hget1 in Hx by lia. destruct (decide (pr = i)) as [->|Hne].
    - injection Hx as <-. lia.
    - apply (Honly i); auto. }
  rewrite Hf. cbn [mbind option_bind]. unfold allocate.
  destruct (find_reg_seqZ (phys_reg_map st1) (-1) 0 n) as [(i & Hf1 & Hi & Hx & Hb)|[_ Hnone]];
    [lia | lia | |].
  2: { exfalso. destruct (Hnone pr) as (w & Hw & Hne); [lia|].
       rewrite Hget1 in Hw by lia. rewrite decide_True in Hw by auto. congruence. }
  rewrite Hf1. cbn [mbind option_bind].
  rewrite arr_set_Some by lia. cbn [mbind option_bind set_map offset_arr].
  rewrite Hrec. cbn [mbind option_bind].
  destruct (Z.eqb_spec (next_slot (imm (op1 (heap st !!! l)))) (-1)); [contradiction|].
  destruct (insert_after_total
              (ILOCInsn_new_3op LOAD_AI base_register
                 (int_const (next_slot (imm (op1 (heap st !!! l))))) (physical_register i))
              p' (heap st1) Hp') as [h2 Hins].
  unfold insert_load. cbn [heap set_map].
  eexists i, _. split; [rewrite Hins; reflexivity|].
  assert (i ≤ pr).
  { destruct (Z.le_gt_cases i pr); auto. exfalso.
    destruct (Hb pr) as (w & Hw & Hne); [lia|].
    rewrite Hget1 in Hw by lia. rewrite decide_True in Hw by auto. congruence. }
  split; [lia|]. simpl.
  split; [rewrite arr_get_set by lia; now rewrite decide_True|].
  split; [reflexivity|].
  apply insert_after_effect in Hins as (Hlen2 & _ & Hnew). split; [exact Hlen2|exact Hnew].
Qed.

(** Each store of a spill loop goes directly after [p], in front of the
    store before it. *)
Lemma spill_all_lseg la p ixs hd : ∀ st st' l1 l2,
  spill_all st la (Some p) ixs = Some st' →
  lseg (heap st) hd (l1 ++ p :: l2) None →
  lseg (heap st') hd
       (l1 ++ p :: reverse (seq (length (heap st)) (length (heap st') - length (heap st))) ++ l2)
       None.
Proof.
  induction ixs as [|i ixs IH]; intros st st' l1 l2; simpl.
  - intros [= <-] Hseg. now rewrite Nat.sub_diag.
  - destruct (arr_get _ _) as [v|]; cbn [mbind option_bind]; [|discriminate].
    destruct (v =? -1); [apply IH|].
    destruct (spill i (Some p) la st) as [st1|] eqn:Hs; cbn [mbind option_bind]; [|discriminate].
    intros H Hseg.
    pose proof (spill_all_tracks _ _ _ _ _ H) as [(Hle & _) _].
    apply spill_effect in Hs as (_ & off & _ & Hsp & _).
    pose proof Hsp as Hsp0.
    apply insert_spill_effect in Hsp0 as (l & -> & _ & _ & Hlen & _).
    assert (Hseg1 : lseg (heap st1) hd (l1 ++ p :: length (heap st) :: l2) None).
    { unfold insert_spill in Hsp. cbn [mbind option_bind] in Hsp.
      destruct (heap st !! l) as [li|] eqn:Hli; cbn [mbind option_bind] in Hsp; [|discriminate].
      destruct (insert_after _ _ _) as [h0|] eqn:Hins; cbn [mbind option_bind] in Hsp;
        [|discriminate].
      injection Hsp as _ <-.
      apply (insert_after_lseg _ _ _ _ hd l1 l2) in Hins.
      - now rewrite length_insert in Hins.
      - now apply lseg_set_op1_imm. }
    specialize (IH _ _ _ _ H Hseg1).
    replace (length (heap st') - length (heap st))%nat
      with (S (length (heap st') - length (heap st1)))%nat by lia.
    rewrite <- cons_seq, reverse_cons, <- app_assoc. simpl.
    rewrite <- Hlen. exact IH.
Qed.

(** X11: The stores of the spill loop before a call are created in the
    order of the registers, each to the slot [insert_spill] computes
    below the one before it ([spill_stores]) and each directly after
    the previous instruction [p]: in the stream they stand between [p]
    and the call in the order opposite to the one they were created
    in. *)
Theorem call_spills_stream_order st n a la p st' hd l1 l2 :
  lseg (heap st) hd (l1 ++ p :: l2) None →
  form (heap st !!! a) = CALL →
  process_call st n a la (Some p) = Some st' →
  let new := seq (length (heap st)) (length (heap st') - length (heap st)) in
  lseg (heap st') hd (l1 ++ p :: reverse new ++ l2) None ∧
  view <$> nodes (heap st') new
  = spill_stores (residents (phys_reg_map st) (seqZ 0 n)) (frame_imm (heap st) la).
Proof.
  intros Hseg Hf H new. unfold process_call in H.
  destruct (heap st !! a) as [i|] eqn:Hi; cbn [mbind option_bind] in H; [|discriminate].
  rewrite (list_lookup_total_correct _ _ _ Hi) in Hf.
  rewrite decide_True in H by auto.
  split; [eapply spill_all_lseg; eauto|].
  pose proof (spill_all_tracks _ _ _ _ _ H) as [(Hle & _) _].
  rewrite <- (spill_all_effect la (Some p) 0 n st st') by (auto; lia).
  f_equal. unfold nodes, new. apply list_eq. intros j.
  rewrite list_lookup_fmap, lookup_drop.
  destruct (decide (j < length (heap st') - length (heap st))%nat) as [Hj|Hj].
  - rewrite lookup_seq_lt by auto. simpl.
    destruct (lookup_lt_is_Some_2 (heap st') (length (heap st) + j)) as [x Hx]; [lia|].
    rewrite Hx. f_equal. now apply list_lookup_total_correct.
  - rewrite lookup_seq_ge by lia. simpl. symmetry. apply lookup_ge_None. lia.
Qed.

End Registers.

(** ** The heap before and after the pass *)

Section Grows.

Context {T : Target}.

Variable n : Z.

Lemma allocated_op_refl f s o : allocated_op n f s o o.
Proof. split; [left; split; reflexivity | left; reflexivity]. Qed.

Lemma allocated_insn_refl i : allocated_insn n i i.
Proof. split; [reflexivity|]. intros s. apply allocated_op_refl. Qed.

Lemma allocated_op_trans f s o1 o2 o3 :
  allocated_op n f s o1 o2 → allocated_op n f s o2 o3 → allocated_op n f s o1 o3.
Proof.
  intros [H12 I12] [H23 I23]. split.
  - destruct H12 as [[T12 D12]|(V1 & P2 & R2)], H23 as [[T23 D23]|(V2 & P3 & R3)].
    + left. split; congruence.
    + right. repeat split; try lia; congruence.
    + right. rewrite <- T23, <- D23. auto.
    + congruence.
  - destruct I12 as [I12|I12]; [|now right].
    destruct I23 as [I23|I23]; [left; congruence | now right].
Qed.

Lemma allocated_insn_trans i1 i2 i3 :
  allocated_insn n i1 i2 → allocated_insn n i2 i3 → allocated_insn n i1 i3.
Proof.
  intros [F12 O12] [F23 O23]. split; [congruence|].
  intros s. eapply allocated_op_trans; [apply O12|]. rewrite <- F12. apply O23.
Qed.

Lemma allocated_insn_view i i' : view i' = view i → allocated_insn n i i'.
Proof.
  unfold view. intros [= F A B C]. split; [exact F|].
  intros [|[|s]]; simpl; rewrite ?A, ?B, ?C; apply allocated_op_refl.
Qed.

Lemma operand_eq (o o' : Operand) :
  type o' = type o → id o' = id o → imm o' = imm o → o' = o.
Proof. destruct o, o'. simpl. congruence. Qed.

(** Spill code has no virtual register and is no ADD_I: the pass never
    changes it. *)
Lemma spill_code_allocated i i' :
  spill_code n i → allocated_insn n i i' → spill_code n i'.
Proof.
  intros (pr & off & Hpr & Hv) [F O]. exists pr, off. split; [exact Hpr|].
  assert (Hsame : ∀ s, type (op i s) ≠ VIRTUAL_REG → form i ≠ ADD_I → op i' s = op i s).
  { intros s Ht Hf. destruct (O s) as [[[Ty Id]|(V & _)] [Im|[A _]]]; try contradiction.
    apply operand_eq; auto. }
  assert (view i' = view i) as ->; [|exact Hv].
  unfold view in *. rewrite F.
  pose proof (Hsame 0%nat) as E0. pose proof (Hsame 1%nat) as E1.
  pose proof (Hsame 2%nat) as E2. simpl in E0, E1, E2.
  destruct Hv as [Hv|Hv]; injection Hv as Hf H0 H1 H2;
    rewrite E0, E1, E2 by (rewrite ?Hf, ?H0, ?H1, ?H2; simpl; discriminate);
    reflexivity.
Qed.

Lemma old_nodes_valid (h : list ILOCInsn) (l : list addr) :
  (∀ x, x ∈ l → (x < length h)%nat) → old_nodes h l = l.
Proof.
  unfold old_nodes. induction l as [|a l IH]; intros H; [reflexivity|].
  rewrite filter_cons_True by (apply H; left). f_equal. apply IH.
  intros x Hx. apply H. now right.
Qed.

Lemma grows_same_links h h' :
  length h' = length h →
  (∀ x, (x < length h)%nat → allocated_insn n (h !!! x) (h' !!! x)) →
  (∀ x, (x < length h)%nat → next (h' !!! x) = next (h !!! x)) →
  grows n h h'.
Proof.
  intros Hlen Hall Hnext. split; [lia|]. split; [exact Hall|]. split; [intros; lia|].
  intros hd l Hseg. exists l. split.
  - eapply lseg_ext; [|exact Hseg]. intros a i Ha Hi.
    pose proof (lookup_lt_Some _ _ _ Hi) as Hlt.
    destruct (lookup_lt_is_Some_2 h' a) as [i' Hi']; [lia|].
    exists i'. split; auto.
    rewrite <- (list_lookup_total_correct _ _ _ Hi), <- (list_lookup_total_correct _ _ _ Hi').
    now apply Hnext.
  - apply old_nodes_valid. intros x Hx. eapply lseg_valid; eauto.
Qed.

Lemma grows_refl h : grows n h h.
Proof. apply grows_same_links; auto using allocated_insn_refl. Qed.

Lemma grows_trans h1 h2 h3 : grows n h1 h2 → grows n h2 h3 → grows n h1 h3.
Proof.
  intros (L12 & A12 & N12 & S12) (L23 & A23 & N23 & S23).
  split; [lia|]. split; [|split].
  - intros x Hx. eapply allocated_insn_trans; [apply A12 | apply A23]; lia.
  - intros x Hx. destruct (decide (x < length h2)%nat) as [Hlt|Hge].
    + eapply spill_code_allocated; [apply N12 | apply A23]; lia.
    + apply N23. lia.
  - intros hd l Hseg. destruct (S12 hd l Hseg) as (l2 & Hseg2 & Ho2).
    destruct (S23 hd l2 Hseg2) as (l3 & Hseg3 & Ho3).
    exists l3. split; [exact Hseg3|].
    rewrite <- Ho2, <- Ho3. unfold old_nodes.
    rewrite list_filter_filter_l; [reflexivity|]. intros x Hx. lia.
Qed.

Lemma spill_code_store pr off i :
  0 ≤ pr < n →
  view i = view (ILOCInsn_new_3op STORE_AI (physical_register pr) base_register (int_const off)) →
  spill_code n i.
Proof. intros Hpr Hv. exists pr, off. split; [exact Hpr|]. left. exact Hv. Qed.

Lemma spill_code_load pr off i :
  0 ≤ pr < n →
  view i = view (ILOCInsn_new_3op LOAD_AI base_register (int_const off) (physical_register pr)) →
  spill_code n i.
Proof. intros Hpr Hv. exists pr, off. split; [exact Hpr|]. right. exact Hv. Qed.

Lemma insert_after_grows new prev h h' :
  insert_after new prev h = Some h' → spill_code n new → grows n h h'.
Proof.
  intros Hins Hnew. pose proof Hins as Heff.
  apply insert_after_effect in Heff as (Hlen & Hold & Hv).
  split; [lia|]. split; [|split].
  - intros x Hx. apply allocated_insn_view. auto.
  - intros x Hx. assert (x = length h) as -> by lia.
    destruct Hnew as (pr & off & Hpr & Hn). exists pr, off. split; [exact Hpr|].
    rewrite Hv. exact Hn.
  - intros hd l Hseg.
    assert (Hvalid : ∀ x, x ∈ l → (x < length h)%nat) by (intros; eapply lseg_valid; eauto).
    destruct prev as [p|]; [|discriminate].
    destruct (decide (p ∈ l)) as [Hin|Hout].
    + apply list_elem_of_split in Hin as (l1 & l2 & ->).
      exists (l1 ++ p :: length h :: l2).
      split; [eapply insert_after_lseg; eauto|].
      pose proof (old_nodes_valid h l1) as E1. pose proof (old_nodes_valid h l2) as E2.
      unfold old_nodes in *. rewrite filter_app, !filter_cons.
      rewrite decide_True by (apply Hvalid, elem_of_app; right; left).
      rewrite decide_False by lia.
      rewrite E1, E2; [reflexivity| |].
      * intros x Hx. apply Hvalid, elem_of_app. right. now right.
      * intros x Hx. apply Hvalid, elem_of_app. now left.
    + exists l. split.
      * eapply insert_after_lseg_other; eauto. intros p' [= <-]. exact Hout.
      * apply old_nodes_valid. auto.
Qed.

Lemma total_lookup_insert (h : list ILOCInsn) a i x :
  (a < length h)%nat → <[a := i]> h !!! x = if decide (x = a) then i else h !!! x.
Proof.
  intros Ha. destruct (decide (x = a)) as [->|Hne].
  - apply list_lookup_total_correct, list_lookup_insert_eq. auto.
  - apply total_lookup_eq. now rewrite list_lookup_insert_ne.
Qed.

Lemma set_op1_imm_grows h l li v :
  h !! l = Some li → form li = ADD_I → grows n h (<[l := set_op1_imm li v]> h).
Proof.
  intros Hl Hf. pose proof (lookup_lt_Some _ _ _ Hl) as Hlt.
  apply grows_same_links.
  - apply length_insert.
  - intros x Hx. rewrite total_lookup_insert by auto.
    destruct (decide (x = l)) as [->|]; [|apply allocated_insn_refl].
    rewrite (list_lookup_total_correct _ _ _ Hl). split; [reflexivity|].
    intros [|[|s]]; simpl; try apply allocated_op_refl.
    split; [left; split; reflexivity|]. right. auto.
  - intros x Hx. rewrite total_lookup_insert by auto.
    destruct (decide (x = l)) as [->|]; [|reflexivity].
    now rewrite (list_lookup_total_correct _ _ _ Hl).
Qed.

Lemma insert_load_grows off pr prev h h' :
  insert_load off pr prev h = Some h' → 0 ≤ pr < n → grows n h h'.
Proof.
  intros H Hpr. eapply insert_after_grows; [exact H|].
  eapply spill_code_load; eauto.
Qed.

Lemma insert_spill_grows pr prev la h off h' :
  insert_spill pr prev la h = Some (off, h') → frame_allocator_ok h la → 0 ≤ pr < n →
  grows n h h'.
Proof.
  unfold insert_spill. destruct la as [l|]; [|discriminate]. cbn [mbind option_bind].
  destruct (h !! l) as [li|] eqn:Hl; [|discriminate]. cbn [mbind option_bind].
  destruct (insert_after _ _ _) as [h2|] eqn:Hins; [|discriminate]. cbn [mbind option_bind].
  intros [= <- <-] Hok Hpr.
  eapply grows_trans.
  - apply (set_op1_imm_grows h l li (int_wrap (imm (op1 li) - WORD_SIZE)) Hl).
    rewrite <- (list_lookup_total_correct _ _ _ Hl). now apply Hok.
  - eapply insert_after_grows; [exact Hins|]. eapply spill_code_store; eauto.
Qed.

Lemma replace_register_grows vr pr a h h' :
  replace_register vr pr a h = Some h' → 0 ≤ pr < n → grows n h h'.
Proof.
  unfold replace_register. destruct (h !! a) as [i|] eqn:Hi; [|discriminate]. simpl.
  intros [= <-] Hpr. pose proof (lookup_lt_Some _ _ _ Hi) as Hlt.
  apply grows_same_links.
  - apply length_insert.
  - intros x Hx. rewrite total_lookup_insert by auto.
    destruct (decide (x = a)) as [->|]; [|apply allocated_insn_refl].
    rewrite (list_lookup_total_correct _ _ _ Hi). split; [reflexivity|].
    assert (Hop : ∀ f s o, allocated_op n f s o (replace_operand vr pr o)).
    { intros f s o. unfold replace_operand. destruct (is_vr vr o) eqn:E.
      - apply andb_true_iff in E as [E _]. apply bool_decide_eq_true in E.
        split; [right; auto | left; reflexivity].
      - apply allocated_op_refl. }
    intros [|[|s]]; simpl; apply Hop.
  - intros x Hx. rewrite total_lookup_insert by auto.
    destruct (decide (x = a)) as [->|]; [|reflexivity].
    now rewrite (list_lookup_total_correct _ _ _ Hi).
Qed.

Lemma frame_allocator_ok_grows h h' la :
  grows n h h' → frame_allocator_ok h la → frame_allocator_ok h' la.
Proof.
  intros (_ & Hall & _) Hok l Hla. specialize (Hok l Hla).
  destruct (decide (l < length h)%nat) as [Hlt|Hge].
  - destruct (Hall l Hlt) as [-> _]. exact Hok.
  - rewrite list_lookup_total_alt, lookup_ge_None_2 in Hok by lia. discriminate.
Qed.

Lemma spill_grows pr prev la st st' :
  spill pr prev la st = Some st' → frame_allocator_ok (heap st) la → 0 ≤ pr < n →
  grows n (heap st) (heap st').
Proof.
  intros H Hok Hpr. apply spill_effect in H as (v & off & _ & H & _).
  eapply insert_spill_grows; eauto.
Qed.

Lemma allocate_grows st vr cur la prev pr st' :
  allocate st n vr cur la prev = Some (pr, st') → frame_allocator_ok (heap st) la →
  grows n (heap st) (heap st').
Proof.
  unfold allocate. destruct (find_reg _ _ _) as [[i|]|]; simpl; [| |discriminate].
  - destruct (arr_set _ _ _); simpl; [|discriminate]. intros [= _ <-] _. apply grows_refl.
  - destruct (find_max_dist _ _ _ _ _ _) as [[mp md]|] eqn:Hfm; simpl; [|discriminate].
    destruct (spill mp prev la st) as [st1|] eqn:Hs; simpl; [|discriminate].
    destruct (arr_set _ _ _); simpl; [|discriminate]. intros [= _ <-] Hok. simpl.
    eapply spill_grows; eauto.
    apply find_max_dist_in in Hfm as [->|Hin].
    + apply spill_effect in Hs as (v & off & Hv & _). discriminate.
    + apply elem_of_seqZ in Hin. lia.
Qed.

Lemma ensure_grows st vr cur la prev pr st' :
  ensure st n vr cur la prev = Some (pr, st') → frame_allocator_ok (heap st) la →
  0 ≤ pr < n ∧ grows n (heap st) (heap st').
Proof.
  unfold ensure. destruct (find_reg _ _ _) as [[i|]|] eqn:Hf; cbn [mbind option_bind];
    [| |discriminate].
  - intros [= <- <-] _. split; [|apply grows_refl].
    apply find_reg_Some_inv in Hf as [Hin _]. apply elem_of_seqZ in Hin. lia.
  - destruct (allocate st n vr cur la prev) as [[pr1 st1]|] eqn:Ha;
      cbn [mbind option_bind]; [|discriminate].
    intros He Hok. pose proof (allocate_range _ _ _ _ _ _ _ _ Ha) as Hpr.
    apply allocate_grows in Ha; [|exact Hok].
    destruct (arr_get _ _) as [off|]; cbn [mbind option_bind] in He; [|discriminate].
    destruct (off =? -1).
    + injection He as <- <-. auto.
    + destruct (insert_load off pr1 prev (heap st1)) as [h|] eqn:Hl;
        cbn [mbind option_bind] in He; [|discriminate].
      injection He as <- <-. split; [exact Hpr|]. simpl.
      eapply grows_trans; [exact Ha|]. eapply insert_load_grows; eauto.
Qed.

Lemma process_reads_grows a la prev os : ∀ st st',
  process_reads st n a la prev os = Some st' → frame_allocator_ok (heap st) la →
  grows n (heap st) (heap st').
Proof.
  induction os as [|o os IH]; intros st st'; simpl.
  - intros [= <-] _. apply grows_refl.
  - destruct (decide (type o = VIRTUAL_REG)); [|apply IH].
    destruct (ensure st n (id o) a la prev) as [[pr st1]|] eqn:He;
      cbn [mbind option_bind]; [|discriminate].
    destruct (replace_register (id o) pr a (heap st1)) as [h2|] eqn:Hr;
      cbn [mbind option_bind]; [|discriminate].
    destruct (dist h2 (id o) a) as [d|]; cbn [mbind option_bind]; [|discriminate].
    intros H Hok. apply ensure_grows in He as [Hpr He]; [|exact Hok].
    apply replace_register_grows in Hr; [|exact Hpr].
    pose proof (grows_trans _ _ _ He Hr) as G2.
    assert (Hok2 : frame_allocator_ok h2 la) by (eapply frame_allocator_ok_grows; eauto).
    destruct (d =? MAX_VIRTUAL_REGS).
    + destruct (arr_set _ _ _) as [map|]; cbn [mbind option_bind] in H; [|discriminate].
      apply IH in H; [|exact Hok2]. eapply grows_trans; eauto.
    + cbn [mbind option_bind] in H. apply IH in H; [|exact Hok2].
      eapply grows_trans; eauto.
Qed.

Lemma process_write_grows a la prev st st' :
  process_write st n a la prev = Some st' → frame_allocator_ok (heap st) la →
  grows n (heap st) (heap st').
Proof.
  unfold process_write. destruct (heap st !! a) as [i|]; cbn [mbind option_bind]; [|discriminate].
  destruct (decide _); [|intros [= <-] _; apply grows_refl].
  destruct (allocate _ _ _ _ _ _) as [[pr st1]|] eqn:Ha; cbn [mbind option_bind]; [|discriminate].
  destruct (replace_register _ _ _ _) as [h2|] eqn:Hr; cbn [mbind option_bind]; [|discriminate].
  intros [= <-] Hok. pose proof (allocate_range _ _ _ _ _ _ _ _ Ha) as Hpr.
  apply allocate_grows in Ha; [|exact Hok]. apply replace_register_grows in Hr; [|exact Hpr].
  simpl. eapply grows_trans; eauto.
Qed.

Lemma spill_all_grows la prev ixs : ∀ st st',
  spill_all st la prev ixs = Some st' → frame_allocator_ok (heap st) la →
  Forall (λ i, 0 ≤ i < n) ixs →
  grows n (heap st) (heap st').
Proof.
  induction ixs as [|i ixs IH]; intros st st'; simpl.
  - intros [= <-] _ _. apply grows_refl.
  - intros H Hok Hix. apply Forall_cons in Hix as [Hi Hix].
    destruct (arr_get _ _) as [v|]; cbn [mbind option_bind] in H; [|discriminate].
    destruct (v =? -1); [now apply IH|].
    destruct (spill i prev la st) as [st1|] eqn:Hs; cbn [mbind option_bind] in H; [|discriminate].
    apply spill_grows in Hs; auto.
    apply IH in H; [| eapply frame_allocator_ok_grows; eauto | exact Hix].
    eapply grows_trans; eauto.
Qed.

Lemma process_call_grows a la prev st st' :
  process_call st n a la prev = Some st' → frame_allocator_ok (heap st) la →
  grows n (heap st) (heap st').
Proof.
  unfold process_call. destruct (heap st !! a) as [i|]; cbn [mbind option_bind]; [|discriminate].
  destruct (decide _); [|intros [= <-] _; apply grows_refl].
  destruct prev; [|intros [= <-] _; apply grows_refl].
  intros H Hok. eapply spill_all_grows; eauto.
  apply Forall_forall. intros j Hj. apply elem_of_seqZ in Hj. lia.
Qed.

Lemma find_local_allocator_ok h i la la' :
  find_local_allocator h i la = Some la' → frame_allocator_ok h la → frame_allocator_ok h la'.
Proof.
  unfold find_local_allocator. intros H Hok.
  destruct (decide (form i = PUSH)); [|injection H as <-; exact Hok].
  destruct (next i) as [a1|]; [|injection H as <-; exact Hok].
  destruct (h !! a1) as [i1|]; cbn [mbind option_bind] in H; [|discriminate].
  destruct (decide (form i1 = I2I)); [|injection H as <-; exact Hok].
  destruct (next i1) as [a2|]; [|injection H as <-; exact Hok].
  destruct (h !! a2) as [i2|] eqn:H2; cbn [mbind option_bind] in H; [|discriminate].
  destruct (decide (form i2 = ADD_I)) as [Hf|]; [|injection H as <-; exact Hok].
  injection H as <-. intros l [= <-]. now rewrite (list_lookup_total_correct _ _ _ H2).
Qed.

Lemma process_insn_grows a la prev st st' la' :
  process_insn st n a la prev = Some (st', la') → frame_allocator_ok (heap st) la →
  grows n (heap st) (heap st') ∧ frame_allocator_ok (heap st') la'.
Proof.
  unfold process_insn. destruct (heap st !! a) as [i|]; cbn [mbind option_bind]; [|discriminate].
  destruct (find_local_allocator _ _ _) as [la1|] eqn:Hla; cbn [mbind option_bind];
    [|discriminate].
  destruct (process_reads _ _ _ _ _ _) as [st1|] eqn:H1; cbn [mbind option_bind]; [|discriminate].
  destruct (process_write _ _ _ _ _) as [st2|] eqn:H2; cbn [mbind option_bind]; [|discriminate].
  destruct (process_call _ _ _ _ _) as [st3|] eqn:H3; cbn [mbind option_bind]; [|discriminate].
  intros [= <- <-] Hok.
  pose proof (find_local_allocator_ok _ _ _ _ Hla Hok) as Hok0.
  apply process_reads_grows in H1; [|exact Hok0].
  pose proof (frame_allocator_ok_grows _ _ _ H1 Hok0) as Hok1.
  apply process_write_grows in H2; [|exact Hok1].
  pose proof (frame_allocator_ok_grows _ _ _ H2 Hok1) as Hok2.
  apply process_call_grows in H3; [|exact Hok2].
  pose proof (frame_allocator_ok_grows _ _ _ H3 Hok2) as Hok3.
  split; [|exact Hok3]. eauto using grows_trans.
Qed.

Lemma allocate_loop_grows fuel : ∀ st la prev insn st',
  allocate_loop fuel st n la prev insn = Some st' → frame_allocator_ok (heap st) la →
  grows n (heap st) (heap st').
Proof.
  induction fuel as [|fuel IH]; intros st la prev [a|] st'; simpl; try discriminate.
  - intros [= <-] _. apply grows_refl.
  - destruct (process_insn st n a la prev) as [[st1 la1]|] eqn:Hp; cbn [mbind option_bind];
      [|discriminate].
    destruct (heap st1 !! a) as [i|]; cbn [mbind option_bind]; [|discriminate].
    intros H Hok. apply process_insn_grows in Hp as [G1 Hok1]; [|exact Hok].
    apply IH in H; [|exact Hok1]. eapply grows_trans; eauto.
  - intros [= <-] _. apply grows_refl.
Qed.

Lemma allocate_registers_grows h (list : InsnList) h' :
  allocate_registers h (Some list) n = Returned h' → grows n h h'.
Proof.
  unfold allocate_registers. destruct (decide (n ≤ 0)); [discriminate|].
  destruct (allocate_loop _ _ _ _ _ _) as [st|] eqn:Hloop; [|discriminate].
  intros [= <-]. apply allocate_loop_grows in Hloop; [exact Hloop|].
  intros l. discriminate.
Qed.

End Grows.

(** ** The pass: registers used, order kept, fixed points *)

Section PassProperties.

Context {T : Target}.

(** X12: The pass uses the [n] physical registers it was given and no
    other.  On a well-formed stream it returns; every node of the input
    is at its address with its form, and each of its operands has the
    tag and id it had or was a virtual register and is a physical
    register below [n]; no immediate changed but the constant of an
    ADD_I; and every node added is a store or a load between one of the
    [n] registers and a frame slot. *)
Theorem registers_within_n h (list : InsnList) n :
  1 ≤ n → well_formed False h (head list) →
  ∃ h', allocate_registers h (Some list) n = Returned h' ∧
        (length h ≤ length h')%nat ∧
        (∀ x, (x < length h)%nat → allocated_insn n (h !!! x) (h' !!! x)) ∧
        (∀ x, (length h ≤ x < length h')%nat → spill_code n (h' !!! x)).
Proof.
  intros Hn Hwf.
  destruct (allocate_registers_returns False h list n Hn Hwf) as (st & done & Hret & _).
  exists (heap st). split; [exact Hret|].
  apply allocate_registers_grows in Hret as (Hlen & Hall & Hnew & _). auto.
Qed.

(** X13: The pass neither drops nor reorders an instruction: the stream it
    leaves behind starts at the same head and, with the nodes it added
    left out, is the input stream. *)
Theorem stream_order_kept h (list : InsnList) n :
  1 ≤ n → well_formed False h (head list) →
  ∃ h' l l', allocate_registers h (Some list) n = Returned h' ∧
             stream_addrs (length h) h (head list) = Some l ∧
             stream_addrs (length h') h' (head list) = Some l' ∧
             old_nodes h l' = l.
Proof.
  intros Hn Hwf.
  destruct (allocate_registers_returns False h list n Hn Hwf) as (st & done & Hret & _).
  destruct Hwf as (l & Hseg & _).
  pose proof (allocate_registers_grows n _ _ _ Hret) as (_ & _ & _ & Hext).
  destruct (Hext _ _ Hseg) as (l' & Hseg' & Hold).
  exists (heap st), l, l'. split; [exact Hret|].
  split; [|split; [|exact Hold]]; apply stream_addrs_lseg; eauto using lseg_length.
Qed.

Lemma no_vr_vr_free i : no_vr i → vr_free i.
Proof.
  unfold no_vr, ops. rewrite !Forall_cons. intros (H0 & H1 & H2 & _).
  assert (Hop : ∀ s, type (op i s) ≠ VIRTUAL_REG) by (intros [|[|s]]; auto).
  split.
  - unfold ILOCInsn_get_read_registers. apply Forall_fmap, Forall_forall. intros s _. simpl.
    destruct (reads (form i) s); [apply Hop | discriminate].
  - unfold ILOCInsn_get_write_register. destruct (writes (form i)); [apply Hop | discriminate].
Qed.

Lemma allocate_loop_idle n (Hn : 1 ≤ n) l : ∀ fuel st la prev hd,
  lseg (heap st) hd l None → Forall vr_free (nodes (heap st) l) →
  regs_inv n st → all_free (phys_reg_map st) → (length l ≤ fuel)%nat →
  allocate_loop fuel st n la prev hd = Some st.
Proof.
  induction l as [|a l IH]; intros fuel st la prev hd Hseg Hfree R Hall Hfuel.
  - simpl in Hseg. subst hd. destruct fuel; reflexivity.
  - destruct fuel as [|fuel]; [simpl in Hfuel; lia|].
    pose proof Hseg as Hseg0. simpl in Hseg. destruct Hseg as (-> & i & Hi & Hrest).
    rewrite nodes_cons, Forall_cons in Hfree. destruct Hfree as [Hfa Hfree].
    rewrite (list_lookup_total_correct _ _ _ Hi) in Hfa.
    destruct (find_local_allocator_spec (heap st) a l i la Hseg0 Hi) as (la' & Hla & _).
    simpl.
    rewrite (process_insn_eq n st a la prev i la' st Hi Hla
               (loop_step_idle n st la' prev a i Hi R Hall Hfa)).
    cbn [mbind option_bind]. rewrite Hi. cbn [mbind option_bind].
    apply IH; auto. simpl in Hfuel. lia.
Qed.

Lemma allocate_registers_idle h (list : InsnList) n l :
  1 ≤ n → lseg h (head list) l None → Forall vr_free (nodes h l) →
  allocate_registers h (Some list) n = Returned h.
Proof.
  intros Hn Hseg Hfree. unfold allocate_registers. rewrite decide_False by lia.
  rewrite (allocate_loop_idle n Hn l); auto.
  - split; simpl.
    + rewrite length_replicate. lia.
    + apply Forall_replicate. auto.
    + rewrite length_replicate. lia.
  - apply Forall_replicate. reflexivity.
  - simpl. eapply lseg_length; eauto.
Qed.

(** X14: A NULL-terminated stream in which no instruction reads or writes a
    virtual register, the empty stream included, goes through the pass
    unchanged: nothing is inserted and no node is modified. *)
Theorem physical_code_unchanged h (list : InsnList) n l :
  1 ≤ n → lseg h (head list) l None → Forall vr_free (nodes h l) →
  allocate_registers h (Some list) n = Returned h.
Proof. apply allocate_registers_idle. Qed.

(** X15: The pass is idempotent: run on its own output, with whatever
    number of registers, it returns and changes nothing. *)
Theorem allocate_registers_idempotent h (list : InsnList) n m :
  1 ≤ n → 1 ≤ m → well_formed True h (head list) →
  ∃ h', allocate_registers h (Some list) n = Returned h' ∧
        allocate_registers h' (Some list) m = Returned h'.
Proof.
  intros Hn Hm Hwf.
  destruct (allocate_registers_returns True h list n Hn Hwf) as (st & done & Hret & Hseg & Hnv).
  exists (heap st). split; [exact Hret|].
  apply (allocate_registers_idle _ _ _ done); auto.
  eapply Forall_impl; [apply Hnv; exact I|]. apply no_vr_vr_free.
Qed.

End PassProperties.

(** ** The operands of one instruction *)

Section Operands.

Context {T : Target}.

Lemma allocate_offsets_length st n vr cur la prev pr st' :
  allocate st n vr cur la prev = Some (pr, st') →
  length (offset_arr st') = length (offset_arr st).
Proof.
  unfold allocate. destruct (find_reg _ _ _) as [[i|]|]; simpl; [| |discriminate].
  - destruct (arr_set _ _ _); simpl; [|discriminate]. now intros [= _ <-].
  - destruct (find_max_dist _ _ _ _ _ _) as [[mp md]|]; simpl; [|discriminate].
    destruct (spill mp prev la st) as [st1|] eqn:Hs; simpl; [|discriminate].
    destruct (arr_set _ _ _); simpl; [|discriminate]. intros [= _ <-]. simpl.
    apply spill_effect in Hs as (v & off & _ & _ & _ & -> & _). apply length_insert.
Qed.

(** X16: [ensure] reads [offset_arr[vr]] of a virtual register that is not
    resident without a check: for an id that is no index of the spill
    table the call has no defined result, whether or not a register
    could be found. *)
Theorem ensure_unknown_register st n vr cur la prev :
  find_reg (phys_reg_map st) vr (seqZ 0 n) = Some None →
  ¬ (0 ≤ vr < Z.of_nat (length (offset_arr st))) →
  ensure st n vr cur la prev = None.
Proof.
  intros Hf Hout. unfold ensure. rewrite Hf. cbn [mbind option_bind].
  destruct (allocate st n vr cur la prev) as [[pr st1]|] eqn:Ha; [|reflexivity].
  cbn [mbind option_bind]. apply allocate_offsets_length in Ha.
  destruct (arr_get (offset_arr st1) vr) as [off|] eqn:Hoff; [|reflexivity].
  apply arr_get_length in Hoff. rewrite Ha in Hoff. contradiction.
Qed.

Lemma replace_operand_hit vr pr o :
  type o = VIRTUAL_REG → id o = vr →
  replace_operand vr pr o = mkOperand PHYSICAL_REG pr (imm o).
Proof.
  intros Ht Hi. unfold replace_operand, is_vr.
  rewrite bool_decide_eq_true_2 by exact Ht. rewrite Hi, Z.eqb_refl. reflexivity.
Qed.

Lemma replace_operand_miss vr pr o :
  type o ≠ VIRTUAL_REG ∨ id o ≠ vr → replace_operand vr pr o = o.
Proof.
  intros H. apply replace_operand_no_match. unfold is_vr.
  destruct H as [H|H].
  - now rewrite bool_decide_eq_false_2.
  - apply andb_false_iff. right. now apply Z.eqb_neq.
Qed.

Lemma reads_vr_view vr i i' : view i' = view i → reads_vr vr i' = reads_vr vr i.
Proof.
  unfold view. intros [= F A B C]. unfold reads_vr, ILOCInsn_get_read_registers.
  simpl. now rewrite F, A, B, C.
Qed.

Lemma first_read_None_intro vr (L : list ILOCInsn) :
  (∀ i, i ∈ L → reads_vr vr i = false) → first_read vr L = None.
Proof.
  induction L as [|i L IH]; intros H; [reflexivity|]. simpl.
  rewrite (H i) by left. rewrite IH; [reflexivity|]. intros; apply H. now right.
Qed.

Lemma at_insn_insert_after a l p h new h' :
  at_insn a l p h → insert_after new (Some p) h = Some h' →
  at_insn a l p h' ∧ ∀ x, x ∈ a :: l → view (h' !!! x) = view (h !!! x).
Proof.
  intros [Hseg Hp Hout] Hins. split; [split|].
  - eapply insert_after_lseg_other; eauto. intros p' [= <-]. exact Hout.
  - apply insert_after_effect in Hins as (Hlen & _). lia.
  - exact Hout.
  - intros x Hx. apply insert_after_effect in Hins as (_ & Hold & _).
    apply Hold. eapply lseg_valid; eauto.
Qed.

Lemma at_insn_replace a l p h vr pr :
  at_insn a l p h →
  ∃ h', replace_register vr pr a h = Some h' ∧ at_insn a l p h' ∧
        h' !!! a = replace_insn vr pr (h !!! a) ∧
        ∀ x, x ∈ l → h' !!! x = h !!! x.
Proof.
  intros [Hseg Hp Hout]. pose proof Hseg as Hseg0. pose proof (lseg_NoDup _ _ _ Hseg) as Hnd.
  simpl in Hseg. destruct Hseg as (_ & i & Hi & Hrest).
  pose proof (lookup_lt_Some _ _ _ Hi) as Hlt.
  unfold replace_register. rewrite Hi. simpl. eexists. split; [reflexivity|].
  split; [split|split].
  - eapply lseg_ext; [|exact Hseg0]. intros x j _ Hj.
    destruct (decide (x = a)) as [->|Hne].
    + rewrite Hi in Hj. injection Hj as <-. eexists. split.
      * now apply list_lookup_insert_eq.
      * reflexivity.
    + exists j. split; [|reflexivity]. now rewrite list_lookup_insert_ne.
  - now rewrite length_insert.
  - exact Hout.
  - rewrite (list_lookup_total_correct _ _ _ Hi).
    apply list_lookup_total_correct. now apply list_lookup_insert_eq.
  - intros x Hx. apply total_lookup_eq. apply list_lookup_insert_ne.
    apply NoDup_cons in Hnd as [Hnot _]. intros ->. contradiction.
Qed.

Lemma at_insn_dist a l p h vr :
  at_insn a l p h →
  dist h vr a = Some (match first_read vr (nodes h l) with
                      | Some k => 1 + Z.of_nat k
                      | None => MAX_VIRTUAL_REGS
                      end).
Proof.
  intros [Hseg _ _]. simpl in Hseg. destruct Hseg as (_ & i & Hi & Hrest).
  now apply (dist_spec h vr a i l).
Qed.

(** [ensure] for a virtual register that is not resident, with the
    lowest free register [f]: it takes [f] and, if the register has a
    slot, adds its reload. *)
Lemma ensure_takes_free st n v cur la p f :
  0 ≤ f < n → arr_get (phys_reg_map st) f = Some (-1) →
  (∀ j, 0 ≤ j < f → arr_get (phys_reg_map st) j ≠ Some (-1)) →
  find_reg (phys_reg_map st) v (seqZ 0 n) = Some None →
  0 ≤ v < Z.of_nat (length (offset_arr st)) →
  (p < length (heap st))%nat →
  ∃ h1, ensure st n v cur la (Some p)
        = Some (f, mkState h1 (<[Z.to_nat f := v]> (phys_reg_map st)) (offset_arr st)) ∧
        (h1 = heap st ∨ ∃ new, insert_after new (Some p) (heap st) = Some h1).
Proof.
  intros Hf Hfree Hlow Hout Hv Hp. unfold ensure. rewrite Hout. cbn [mbind option_bind].
  unfold allocate. rewrite (find_reg_first _ _ f) by auto. cbn [mbind option_bind].
  rewrite arr_set_Some by (eapply arr_get_length; eauto).
  cbn [mbind option_bind set_map offset_arr].
  destruct (arr_get_is_Some (offset_arr st) v Hv) as [off Hoff]. rewrite Hoff.
  cbn [mbind option_bind]. destruct (off =? -1).
  - exists (heap st). split; [reflexivity|now left].
  - unfold insert_load. cbn [heap set_map].
    destruct (insert_after_total
                (ILOCInsn_new_3op LOAD_AI base_register (int_const off) (physical_register f))
                p (heap st) Hp) as [h1 Hins].
    exists h1. split; [rewrite Hins; reflexivity|]. right. eauto.
Qed.

(** X17: A register freed at the last use of its virtual register is free
    for the next operand of the same instruction.  When an instruction
    reads the virtual registers [v1] and [v2] in its first two slots,
    neither is resident, and [v1] is not read again, both operands are
    rewritten to the same register, the lowest free one. *)
Theorem last_use_register_taken_again st n a l la p i v1 v2 f :
  lseg (heap st) (Some a) (a :: l) None →
  (p < length (heap st))%nat → p ∉ a :: l →
  heap st !! a = Some i →
  reads (form i) 0 = true → reads (form i) 1 = true → reads (form i) 2 = false →
  type (op0 i) = VIRTUAL_REG → id (op0 i) = v1 →
  type (op1 i) = VIRTUAL_REG → id (op1 i) = v2 → v1 ≠ v2 →
  (∀ x, x ∈ l → reads_vr v1 (heap st !!! x) = false) →
  0 ≤ f < n → arr_get (phys_reg_map st) f = Some (-1) →
  (∀ j, 0 ≤ j < f → arr_get (phys_reg_map st) j ≠ Some (-1)) →
  find_reg (phys_reg_map st) v1 (seqZ 0 n) = Some None →
  find_reg (phys_reg_map st) v2 (seqZ 0 n) = Some None →
  0 ≤ v1 < Z.of_nat (length (offset_arr st)) →
  0 ≤ v2 < Z.of_nat (length (offset_arr st)) →
  ∃ st', process_reads st n a la (Some p) (ILOCInsn_get_read_registers i) = Some st' ∧
         op0 (heap st' !!! a) = mkOperand PHYSICAL_REG f (imm (op0 i)) ∧
         op1 (heap st' !!! a) = mkOperand PHYSICAL_REG f (imm (op1 i)).
Proof.
  intros Hseg Hp Hpout Hi R0 R1 R2 T0 I0 T1 I1 Hne Hlast Hf Hfree Hlow Hn1 Hn2 Hv1 Hv2.
  pose proof (list_lookup_total_correct _ _ _ Hi) as Hi'.
  assert (K0 : at_insn a l p (heap st)) by (split; auto).
  unfold ILOCInsn_get_read_registers. simpl. rewrite R0, R1, R2. simpl.
  rewrite decide_True by exact T0. rewrite I0.
  (* first operand *)
  destruct (ensure_takes_free st n v1 a la p f Hf Hfree Hlow Hn1 Hv1 Hp) as (h1 & He1 & Hh1).
  rewrite He1. cbn [mbind option_bind heap].
  assert (K1 : at_insn a l p h1 ∧ ∀ x, x ∈ a :: l → view (h1 !!! x) = view (heap st !!! x)).
  { destruct Hh1 as [->|[new Hins]]; [auto|]. eapply at_insn_insert_after; eauto. }
  destruct K1 as [K1 V1].
  destruct (at_insn_replace a l p h1 v1 f K1) as (h2 & Hr1 & K2 & Ha2 & Hl2).
  rewrite Hr1. cbn [mbind option_bind].
  rewrite (at_insn_dist a l p h2 v1 K2).
  rewrite first_read_None_intro.
  2: { intros j Hj. unfold nodes in Hj. apply list_elem_of_fmap in Hj as (x & -> & Hx).
       rewrite Hl2 by auto. rewrite (reads_vr_view v1 (heap st !!! x)); [auto|].
       apply V1. now right. }
  cbn [mbind option_bind]. rewrite Z.eqb_refl. cbn [phys_reg_map offset_arr].
  rewrite arr_set_Some by (rewrite length_insert; eapply arr_get_length; eauto).
  cbn [mbind option_bind]. rewrite list_insert_insert_eq.
  rewrite list_insert_id by (apply arr_get_Some in Hfree; tauto).
  (* second operand *)
  rewrite decide_True by exact T1. rewrite I1.
  set (st3 := mkState h2 (phys_reg_map st) (offset_arr st)).
  destruct (ensure_takes_free st3 n v2 a la p f Hf Hfree Hlow Hn2 Hv2) as (h3 & He2 & Hh3).
  { apply K2. }
  rewrite He2. cbn [mbind option_bind heap].
  assert (K3 : at_insn a l p h3 ∧ ∀ x, x ∈ a :: l → view (h3 !!! x) = view (h2 !!! x)).
  { destruct Hh3 as [->|[new Hins]]; [auto|]. eapply at_insn_insert_after; eauto. }
  destruct K3 as [K3 V3].
  destruct (at_insn_replace a l p h3 v2 f K3) as (h4 & Hr2 & K4 & Ha4 & Hl4).
  rewrite Hr2. cbn [mbind option_bind].
  rewrite (at_insn_dist a l p h4 v2 K4). cbn [mbind option_bind].
  assert (Hops : op0 (h4 !!! a) = mkOperand PHYSICAL_REG f (imm (op0 i)) ∧
                 op1 (h4 !!! a) = mkOperand PHYSICAL_REG f (imm (op1 i))).
  { rewrite Ha4. pose proof (V3 a ltac:(left)) as V3a. rewrite Ha2 in V3a.
    pose proof (V1 a ltac:(left)) as V1a. rewrite Hi' in V1a.
    unfold view in V3a, V1a. injection V3a as _ A3 B3 _. injection V1a as _ A1 B1 _.
    simpl in A3, B3. rewrite A1 in A3. rewrite B1 in B3. simpl. rewrite A3, B3.
    rewrite (replace_operand_hit v1 f (op0 i)) by auto.
    rewrite (replace_operand_miss v1 f (op1 i)) by (right; congruence).
    rewrite (replace_operand_hit v2 f (op1 i)) by auto.
    split; [|reflexivity]. apply replace_operand_miss. left. simpl. discriminate. }
  destruct (_ =? MAX_VIRTUAL_REGS).
  - rewrite arr_set_Some
      by (simpl; rewrite length_insert; simpl; eapply arr_get_length; eauto).
    cbn [mbind option_bind]. try rewrite decide_False by discriminate.
    eexists. split; [reflexivity|]. exact Hops.
  - cbn [mbind option_bind]. try rewrite decide_False by discriminate.
    eexists. split; [reflexivity|]. exact Hops.
Qed.

End Operands.

(** ** The register map and the rewritten instruction *)

Section Binding.

Context {T : Target}.

Lemma same_sig_trans i1 i2 i3 : same_sig i1 i2 → same_sig i2 i3 → same_sig i1 i3.
Proof.
  unfold same_sig, same_op. intros (F & (A & A') & (B & B') & (C & C')).
  intros (F2 & (A2 & A2') & (B2 & B2') & (C2 & C2')). repeat split; congruence.
Qed.

Lemma view_same_sig i i' : view i' = view i → same_sig i i'.
Proof.
  unfold view. intros [= F A B C]. unfold same_sig, same_op. rewrite F, A, B, C. tauto.
Qed.

Lemma keeps_refl h : keeps h h.
Proof. split; [lia|]. intros. apply same_sig_refl. Qed.

Lemma keeps_trans h1 h2 h3 : keeps h1 h2 → keeps h2 h3 → keeps h1 h3.
Proof.
  intros [L12 S12] [L23 S23]. split; [lia|].
  intros x Hx. eapply same_sig_trans; [apply S12 | apply S23]; lia.
Qed.

Lemma insert_after_keeps new prev h h' : insert_after new prev h = Some h' → keeps h h'.
Proof.
  intros H. apply insert_after_effect in H as (Hlen & Hold & _).
  split; [lia|]. intros x Hx. apply view_same_sig. auto.
Qed.

Lemma insert_spill_keeps pr prev la h off h' :
  insert_spill pr prev la h = Some (off, h') → keeps h h'.
Proof.
  intros H. apply insert_spill_effect in H as (l & _ & Hl & _ & Hlen & _ & Hold & Hla).
  split; [lia|]. intros x Hx. destruct (decide (x = l)) as [->|Hne].
  - eapply same_sig_trans; [apply same_sig_set_op1_imm|]. apply view_same_sig. exact Hla.
  - apply view_same_sig. auto.
Qed.

(** The register [allocate] returns is one of the [n] and holds [vr];
    the nodes of the heap keep their forms and the tags and ids of
    their operands. *)
Lemma allocate_holds st n vr cur la prev pr st' :
  allocate st n vr cur la prev = Some (pr, st') →
  0 ≤ pr < n ∧ arr_get (phys_reg_map st') pr = Some vr ∧ keeps (heap st) (heap st').
Proof.
  intros H. split; [eapply allocate_range; eauto|]. revert H. unfold allocate.
  destruct (find_reg _ _ _) as [[i|]|]; simpl; [| |discriminate].
  - destruct (arr_set _ _ _) as [map|] eqn:Hm; simpl; [|discriminate]. intros [= <- <-].
    apply arr_set_inv in Hm as [Hi ->]. simpl. split; [|apply keeps_refl].
    rewrite arr_get_set by lia. now rewrite decide_True.
  - destruct (find_max_dist _ _ _ _ _ _) as [[mp md]|]; simpl; [|discriminate].
    destruct (spill mp prev la st) as [st1|] eqn:Hs; simpl; [|discriminate].
    destruct (arr_set _ _ _) as [map|] eqn:Hm; simpl; [|discriminate]. intros [= <- <-].
    apply arr_set_inv in Hm as [Hi ->]. simpl.
    split; [rewrite arr_get_set by lia; now rewrite decide_True|].
    apply spill_effect in Hs as (_ & off & _ & Hsp & _). eapply insert_spill_keeps; eauto.
Qed.

Lemma ensure_holds st n vr cur la prev pr st' :
  ensure st n vr cur la prev = Some (pr, st') →
  0 ≤ pr < n ∧ arr_get (phys_reg_map st') pr = Some vr ∧ keeps (heap st) (heap st').
Proof.
  unfold ensure. destruct (find_reg _ _ _) as [[i|]|] eqn:Hf; cbn [mbind option_bind];
    [| |discriminate].
  - intros [= <- <-]. apply find_reg_Some_inv in Hf as [Hin Hx].
    apply elem_of_seqZ in Hin. split; [lia|]. split; [exact Hx|apply keeps_refl].
  - destruct (allocate st n vr cur la prev) as [[pr1 st1]|] eqn:Ha;
      cbn [mbind option_bind]; [|discriminate].
    apply allocate_holds in Ha as (Hpr & Hx & Hk).
    destruct (arr_get (offset_arr st1) vr) as [off|]; cbn [mbind option_bind]; [|discriminate].
    destruct (off =? -1).
    + intros [= <- <-]. auto.
    + destruct (insert_load off pr1 prev (heap st1)) as [h|] eqn:Hl;
        cbn [mbind option_bind]; [|discriminate].
      intros [= <- <-]. split; [exact Hpr|]. split; [exact Hx|]. simpl.
      eapply keeps_trans; [exact Hk|]. eapply insert_after_keeps; eauto.
Qed.

Lemma op_replace_insn vr pr i s :
  op (replace_insn vr pr i) s = replace_operand vr pr (op i s).
Proof. destruct s as [|[|s]]; reflexivity. Qed.

Lemma is_vr_same_op vr o o' : same_op o o' → is_vr vr o' = is_vr vr o.
Proof. unfold is_vr. intros [-> ->]. reflexivity. Qed.

(** After [replace_register] on a node that kept its operands, every
    operand that named [vr] names the register [pr]. *)
Lemma replace_register_names vr pr a h i h1 h2 :
  h !! a = Some i → keeps h h1 → replace_register vr pr a h1 = Some h2 →
  ∀ s, is_vr vr (op i s) = true →
       type (op (h2 !!! a) s) = PHYSICAL_REG ∧ id (op (h2 !!! a) s) = pr.
Proof.
  intros Hi [Hlen Hsig] Hr s Hs. pose proof (lookup_lt_Some _ _ _ Hi) as Hlt.
  specialize (Hsig a Hlt). rewrite (list_lookup_total_correct _ _ _ Hi) in Hsig.
  unfold replace_register in Hr. destruct (h1 !! a) as [i1|] eqn:Hi1; [|discriminate].
  simpl in Hr. injection Hr as <-.
  rewrite (list_lookup_total_correct _ _ _ Hi1) in Hsig.
  rewrite (list_lookup_total_correct _ _ (replace_insn vr pr i1))
    by (apply list_lookup_insert_eq; eapply lookup_lt_Some; eauto).
  rewrite op_replace_insn. unfold replace_operand.
  rewrite (is_vr_same_op vr (op i s) (op i1 s)) by (now apply same_sig_op).
  rewrite Hs. split; reflexivity.
Qed.

(** X18: After the write of an instruction has been handled, the register
    map and the instruction agree: the register that every operand
    naming the written virtual register has been rewritten to is one of
    the [n] and holds that virtual register. *)
Theorem write_binds_register st n a la prev st' i :
  heap st !! a = Some i →
  type (ILOCInsn_get_write_register i) = VIRTUAL_REG →
  process_write st n a la prev = Some st' →
  ∃ pr, 0 ≤ pr < n ∧
        arr_get (phys_reg_map st') pr = Some (id (ILOCInsn_get_write_register i)) ∧
        ∀ s, is_vr (id (ILOCInsn_get_write_register i)) (op i s) = true →
             type (op (heap st' !!! a) s) = PHYSICAL_REG ∧ id (op (heap st' !!! a) s) = pr.
Proof.
  intros Hi Hw H. unfold process_write in H. rewrite Hi in H. cbn [mbind option_bind] in H.
  rewrite decide_True in H by exact Hw.
  destruct (allocate _ _ _ _ _ _) as [[pr st1]|] eqn:Ha; cbn [mbind option_bind] in H;
    [|discriminate].
  destruct (replace_register _ _ _ _) as [h2|] eqn:Hr; cbn [mbind option_bind] in H;
    [|discriminate].
  injection H as <-. apply allocate_holds in Ha as (Hpr & Hx & Hk).
  exists pr. split; [exact Hpr|]. split; [exact Hx|]. simpl.
  eapply replace_register_names; eauto.
Qed.

Lemma process_reads_skip st n a la prev pre rest :
  Forall (λ o, type o ≠ VIRTUAL_REG) pre →
  process_reads st n a la prev (pre ++ rest) = process_reads st n a la prev rest.
Proof.
  induction pre as [|o pre IH]; intros H; [reflexivity|].
  apply Forall_cons in H as [Ho H]. simpl. rewrite decide_False by exact Ho. auto.
Qed.

(** X19: When an instruction reads one virtual register, then once its
    reads have been handled every operand that named it names one
    register among the [n]; that register holds the virtual register if
    a later instruction reads it, and is free if none does. *)
Theorem read_binds_or_frees st n a la prev st' i pre o post :
  heap st !! a = Some i →
  ILOCInsn_get_read_registers i = pre ++ o :: post →
  Forall (λ o', type o' ≠ VIRTUAL_REG) pre →
  Forall (λ o', type o' ≠ VIRTUAL_REG) post →
  type o = VIRTUAL_REG →
  process_reads st n a la prev (ILOCInsn_get_read_registers i) = Some st' →
  ∃ pr d, 0 ≤ pr < n ∧
          (∀ s, is_vr (id o) (op i s) = true →
                type (op (heap st' !!! a) s) = PHYSICAL_REG ∧
                id (op (heap st' !!! a) s) = pr) ∧
          dist (heap st') (id o) a = Some d ∧
          arr_get (phys_reg_map st') pr
          = Some (if d =? MAX_VIRTUAL_REGS then -1 else id o).
Proof.
  intros Hi Hregs Hpre Hpost Ho H. rewrite Hregs in H.
  rewrite process_reads_skip in H by exact Hpre. simpl in H.
  rewrite decide_True in H by exact Ho.
  destruct (ensure st n (id o) a la prev) as [[pr st1]|] eqn:He;
    cbn [mbind option_bind] in H; [|discriminate].
  destruct (replace_register (id o) pr a (heap st1)) as [h2|] eqn:Hr;
    cbn [mbind option_bind] in H; [|discriminate].
  destruct (dist h2 (id o) a) as [d|] eqn:Hd; cbn [mbind option_bind] in H; [|discriminate].
  apply ensure_holds in He as (Hpr & Hx & Hk).
  pose proof (replace_register_names _ _ _ _ _ _ _ Hi Hk Hr) as Hnames.
  exists pr, d. split; [exact Hpr|].
  destruct (d =? MAX_VIRTUAL_REGS) eqn:E.
  - destruct (arr_set _ _ _) as [map|] eqn:Hm; cbn [mbind option_bind] in H; [|discriminate].
    rewrite process_reads_no_vr in H by exact Hpost. injection H as <-. simpl.
    split; [exact Hnames|]. split; [exact Hd|].
    apply arr_set_inv in Hm as [Hi' ->]. rewrite arr_get_set by lia. now rewrite decide_True.
  - cbn [mbind option_bind] in H.
    rewrite process_reads_no_vr in H by exact Hpost. injection H as <-. simpl.
    split; [exact Hnames|]. split; [exact Hd|exact Hx].
Qed.

End Binding.

(** ** The frame allocator in force *)

Section Latch.

Context {T : Target}.

(** X20: The test that latches the frame allocator never follows a NULL
    link: on a NULL-terminated stream it returns, with the third
    instruction as the new frame allocator when the stream from the
    current instruction on starts with a PUSH, an I2I and an ADD_I, and
    with the frame allocator unchanged in every other case, a stream
    that ends after one or two instructions included. *)
Theorem frame_allocator_latch h a rest i la :
  lseg h (Some a) (a :: rest) None → h !! a = Some i →
  (is_prologue (nodes h (a :: rest)) →
   ∃ a1 a2 rest', rest = a1 :: a2 :: rest' ∧
                  find_local_allocator h i la = Some (Some a2)) ∧
  (¬ is_prologue (nodes h (a :: rest)) → find_local_allocator h i la = Some la).
Proof.
  intros (_ & i' & Hi' & Hr) Hi. rewrite Hi in Hi'. injection Hi' as <-.
  unfold find_local_allocator, nodes. simpl.
  rewrite (list_lookup_total_correct _ _ _ Hi).
  destruct (decide (form i = PUSH)) as [Hf|Hf].
  2: { split; [|reflexivity]. destruct rest as [|? [|? ?]]; simpl; tauto. }
  destruct rest as [|a1 rest]; simpl in Hr.
  { rewrite Hr. split; [simpl; tauto | reflexivity]. }
  destruct Hr as (-> & i1 & Hi1 & Hr). rewrite Hi1. simpl.
  rewrite (list_lookup_total_correct _ _ _ Hi1).
  destruct (decide (form i1 = I2I)) as [Hf1|Hf1].
  2: { split; [|reflexivity]. destruct rest as [|? ?]; simpl; tauto. }
  destruct rest as [|a2 rest]; simpl in Hr.
  { rewrite Hr. split; [simpl; tauto | reflexivity]. }
  destruct Hr as (-> & i2 & Hi2 & Hr). rewrite Hi2. simpl.
  rewrite (list_lookup_total_correct _ _ _ Hi2).
  destruct (decide (form i2 = ADD_I)) as [Hf2|Hf2].
  - split; [|tauto]. intros _. exists a1, a2, rest. auto.
  - split; [tauto|reflexivity].
Qed.

End Latch.

(** * The pass on concrete streams *)

Lemma reaches_run_loop {T : Target} k n c0 c :
  run_loop k n c0 = Some c → reaches n c0 c.
Proof.
  assert (Htrans : ∀ c1 c2 c3, loop_next n c1 = Some c2 → reaches n c2 c3 → reaches n c1 c3).
  { intros c1 c2 c3 H12 H23. induction H23; [eapply reaches_step; eauto; constructor|].
    eapply reaches_step; eauto. }
  revert c0. induction k as [|k IH]; intros c0; simpl.
  - intros [= <-]. constructor.
  - destruct (loop_next n c0) as [c1|] eqn:E; simpl; [|discriminate].
    intros H. eapply Htrans; eauto.
Qed.

Lemma ex_call_well_formed strict :
  @well_formed iloc strict (build ex_call) (Some 0%nat).
Proof.
  exists (seq 0 (length ex_call)). split; [exact (build_lseg ex_call)|].
  unfold nodes. simpl. split; [solve_insn_pred|]. split.
  - split; [solve_insn_pred|]. left. simpl. auto.
  - intros _. solve_insn_pred.
Qed.

Lemma no_virtual_registers_remain_witness :
  1 ≤ 2 ∧ @well_formed iloc True (build ex_call) (Some 0%nat) ∧
  ∃ h' out,
    @allocate_registers iloc (build ex_call) (Some (mkList (Some 0%nat))) 2 = Returned h' ∧
    stream h' (Some 0%nat) = Some out ∧
    Forall (λ '(_, a, b, c), type a ≠ VIRTUAL_REG ∧ type b ≠ VIRTUAL_REG ∧
                             type c ≠ VIRTUAL_REG) out ∧
    ∀ x i, build ex_call !! x = Some i → ∃ i', h' !! x = Some i' ∧ @shrinks i i'.
Proof.
  split; [lia|]. split; [apply ex_call_well_formed|].
  apply (@no_virtual_registers_remain iloc (build ex_call) (mkList (Some 0%nat)) 2);
    [lia | apply ex_call_well_formed].
Defined.

Lemma configuration_error_only_witness :
  @allocate_registers iloc (build ex_call) (list_of ex_call) 0
    = Exit 1 no_registers_message (build ex_call) ∧
  ∃ h', @allocate_registers iloc (build ex_call) (list_of ex_call) 2 = Returned h'.
Proof.
  split.
  - apply (@configuration_error_only iloc (build ex_call) (list_of ex_call) 0). lia.
  - apply (@configuration_error_only iloc (build ex_call) (list_of ex_call) 2); [lia|].
    intros l [= <-]. apply ex_call_well_formed.
Defined.

(** C8 as stated fails: with one register the second write of
    [ex_no_frame], a NULL-terminated stream with ids in range, needs a
    spill; no frame allocator has been seen, [spill] is called with a
    NULL [local_allocator], and the call does not return. *)
Lemma undefined_without_frame_allocator :
  lseg (build ex_no_frame) (Some 0%nat) [0; 1]%nat None ∧
  Forall (@ids_ok iloc) (build ex_no_frame) ∧
  @allocate_registers iloc (build ex_no_frame) (list_of ex_no_frame) 1 = Undefined.
Proof.
  split; [exact (build_lseg ex_no_frame)|]. split; [|vm_compute; reflexivity].
  simpl. solve_insn_pred.
Qed.

Lemma null_list_returns_witness :
  1 ≤ 2 ∧ @allocate_registers iloc (build ex_call) None 2 = Returned (build ex_call).
Proof.
  split; [lia|]. apply (@null_list_returns iloc (build ex_call) 2). lia.
Defined.


Lemma frame_reservation_per_spill_witness :
  let c0 := @initial_config iloc (build ex_locals) (mkList (Some 0%nat)) 2 in
  ∃ c', (2 < length (heap (c_state c0)))%nat ∧
        @reaches_latched iloc 2 2%nat c0 c' ∧
        c_insn c' = None ∧
        frame_imm (heap (c_state c0)) (Some 2%nat) = -16 ∧
        stores (drop (length (heap (c_state c0))) (heap (c_state c'))) = 1%nat ∧
        frame_imm (heap (c_state c')) (Some 2%nat) = -16 - 8 * 1.
Proof.
  intros c0. eexists. split; [vm_compute; lia|].
  assert (Hreach : @reaches_latched iloc 2 2%nat c0
                     (default c0 (@run_loop iloc 6 2 c0))).
  { do 6 (eapply latched_step; [vm_compute; reflexivity | reflexivity |]).
    vm_compute. apply latched_refl. }
  split; [exact Hreach|]. split; [reflexivity|]. split; [reflexivity|].
  split; [reflexivity|].
  destruct (proj2 (@frame_reservation_per_spill iloc) 2 2%nat c0 _
              ltac:(vm_compute; lia) Hreach) as [_ H].
  destruct H as (E & _); [vm_compute; discriminate.. |].
  etransitivity; [exact E | vm_compute; reflexivity].
Defined.

(** C9 as stated fails: in [ex_locals] the frame already reserves 16
    bytes; after the one spill of the pass the reservation is 24 bytes,
    not one word. *)
Lemma frame_reservation_counts_locals :
  ∃ h', @allocate_registers iloc (build ex_locals) (list_of ex_locals) 2 = Returned h' ∧
        stores (drop (length (build ex_locals)) h') = 1%nat ∧
        frame_imm h' (Some 2%nat) = -24 ∧
        Z.abs (frame_imm h' (Some 2%nat)) ≠ @WORD_SIZE iloc * 1.
Proof.
  eexists. split; [vm_compute; reflexivity|].
  split; [reflexivity|]. split; [reflexivity|]. vm_compute. discriminate.
Qed.

Lemma example_well_formed (l : list insn_view) :
  Forall (@ids_ok iloc) (nodes (build l) (seq 0 (length l))) →
  @safe_start iloc (nodes (build l) (seq 0 (length l))) →
  Forall (@covered iloc) (nodes (build l) (seq 0 (length l))) →
  @well_formed iloc True (build l) (match l with [] => None | _ => Some 0%nat end).
Proof.
  intros Hids Hsafe Hcov. exists (seq 0 (length l)).
  split; [exact (build_lseg l)|]. auto.
Qed.

(** C6 fails on [ex_rewrite], a well-formed stream: after the second
    write of virtual register 1 both registers hold it, and the read
    that follows is rewritten to register 0, which holds the value of
    the first write. *)
Theorem rewritten_register_is_resident_twice :
  @well_formed iloc True (build ex_rewrite) (Some 0%nat) ∧
  (∃ c, @reaches iloc 2 (@initial_config iloc (build ex_rewrite) (mkList (Some 0%nat)) 2) c ∧
        c_insn c = Some 5%nat ∧
        phys_reg_map (c_state c) = [1; 1]) ∧
  run iloc ex_rewrite 2 = Some
    [ (PUSH, BP, E, E);
      (I2I, SP, BP, E);
      (ADD_I, SP, int_const 0, SP);
      (LOAD_AI, BP, int_const 8, physical_register 0);
      (LOAD_AI, BP, int_const 16, physical_register 1);
      (PUSH, physical_register 0, E, E) ].
Proof.
  split; [|split].
  - apply (example_well_formed ex_rewrite); unfold nodes; simpl.
    + solve_insn_pred.
    + split; [solve_insn_pred|]. left. simpl. auto.
    + solve_insn_pred.
  - eexists. split; [apply (reaches_run_loop 5); vm_compute; reflexivity|].
    split; reflexivity.
  - vm_compute. reflexivity.
Qed.

(** C2 fails on [ex_evict], a well-formed stream: virtual register 3 is
    spilled to offset -16 by the store that precedes [storeAI], and the
    only load from -16 of the whole output comes before that store;
    between the store and the two instructions that read virtual
    register 3 afterwards there is no reload. *)
Theorem reload_precedes_its_spill :
  @well_formed iloc True (build ex_evict) (Some 0%nat) ∧
  run iloc ex_evict 2 = Some
    [ (PUSH, BP, E, E);
      (I2I, SP, BP, E);
      (ADD_I, SP, int_const (-16), SP);
      (LOAD_AI, BP, int_const 8, physical_register 0);
      (STORE_AI, physical_register 0, BP, int_const (-8));
      (CALL, E, E, E);
      (LOAD_AI, BP, int_const 16, physical_register 0);
      (LOAD_AI, BP, int_const 24, physical_register 1);
      (LOAD_AI, BP, int_const (-16), physical_register 1);
      (LOAD_AI, BP, int_const (-8), physical_register 1);
      (STORE_AI, physical_register 1, BP, int_const (-16));
      (STORE_AI, physical_register 1, physical_register 1, int_const 0);
      (PUSH, physical_register 0, E, E);
      (PUSH, physical_register 1, E, E) ].
Proof.
  split.
  - apply (example_well_formed ex_evict); unfold nodes; simpl.
    + solve_insn_pred.
    + split; [solve_insn_pred|]. left. simpl. auto.
    + solve_insn_pred.
  - vm_compute. reflexivity.
Qed.

(** C5 as stated fails: in [ex_twice] virtual register 1 is spilled at
    both calls; its recorded offset is -8 after the first and -16 after
    the second. *)
Lemma offset_changes_on_second_spill :
  ∃ c1 c2,
    @reaches iloc 2 (@initial_config iloc (build ex_twice) (mkList (Some 0%nat)) 2) c1 ∧
    @reaches iloc 2 c1 c2 ∧
    arr_get (offset_arr (c_state c1)) 1 = Some (-8) ∧
    arr_get (offset_arr (c_state c2)) 1 = Some (-16).
Proof.
  eexists _, _. split; [apply (reaches_run_loop 5); vm_compute; reflexivity|].
  split; [apply (reaches_run_loop 2); vm_compute; reflexivity|].
  split; reflexivity.
Qed.

Lemma offsets_change_by_spill_only_witness :
  let c0 := @initial_config iloc (build ex_twice) (mkList (Some 0%nat)) 2 in
  let c := default c0 (@run_loop iloc 6 2 c0) in
  ∃ c', @loop_next iloc 2 c = Some c' ∧
        c_local_allocator c' = Some 2%nat ∧
        (2 < length (heap (c_state c)))%nat ∧
        arr_get (offset_arr (c_state c)) 1 = Some (-8) ∧
        arr_get (offset_arr (c_state c')) 1 = Some (-16) ∧
        arr_get (offset_arr (c_state c')) 2 = arr_get (offset_arr (c_state c)) 2 ∧
        (arr_get (offset_arr (c_state c')) 1 = arr_get (offset_arr (c_state c)) 1 ∨
         ∃ k, (1 ≤ k ≤ stores (drop (length (heap (c_state c))) (heap (c_state c'))))%nat ∧
              arr_get (offset_arr (c_state c')) 1
              = Some (@nth_slot iloc k (frame_imm (heap (c_state c)) (Some 2%nat)))).
Proof.
  intros c0 c.
  destruct (@loop_next iloc 2 c) as [c'|] eqn:Hnext; [|vm_compute in Hnext; discriminate].
  exists c'. split; [reflexivity|].
  pose proof (proj1 (proj2 (@offsets_change_by_spill_only iloc)) 2 c c' 1 Hnext) as Hrel.
  vm_compute in Hnext. injection Hnext as <-.
  split; [reflexivity|]. split; [vm_compute; lia|].
  split; [reflexivity|]. split; [reflexivity|]. split; [reflexivity|].
  apply Hrel. vm_compute. lia.
Defined.

(** * The further properties on concrete streams *)

Lemma replace_register_once_witness :
  replace_register 1 0 0%nat (build ex_call) = Some (build ex_call) ∧
  ∃ h', replace_register 1 0 5%nat (build ex_call) = Some h' ∧
        view <$> h' !! 5%nat = Some (PUSH, physical_register 0, E, E) ∧
        replace_register 1 7 5%nat h' = Some h'.
Proof.
  split.
  - eapply (proj1 (replace_register_once 1 0 0 0%nat (build ex_call))); [reflexivity|].
    intros [|[|s]]; reflexivity.
  - eexists. split; [reflexivity|]. split; [reflexivity|].
    apply (proj2 (replace_register_once 1 0 7 5%nat (build ex_call))). reflexivity.
Defined.

Lemma replace_register_commute_witness :
  1 ≠ 3 ∧
  (h1 ← replace_register 1 3 7%nat (build ex_evict); replace_register 3 0 7%nat h1)
  = (h2 ← replace_register 3 0 7%nat (build ex_evict); replace_register 1 3 7%nat h2).
Proof.
  split; [lia|]. apply (replace_register_commute 1 3 3 0 7%nat 7%nat (build ex_evict)). lia.
Defined.

Lemma insert_load_position_witness :
  lseg (build ex_call) (Some 0%nat) ([0; 1; 2; 3]%nat ++ 4%nat :: [5%nat]) None ∧
  ∃ h', insert_load (-8) 0 (Some 4%nat) (build ex_call) = Some h' ∧
        stream h' (Some 0%nat)
        = Some ((view <$> nodes (build ex_call) ([0; 1; 2; 3]%nat ++ [4%nat]))
                ++ (LOAD_AI, base_register, int_const (-8), physical_register 0)
                   :: (view <$> nodes (build ex_call) [5%nat])).
Proof.
  split; [exact (build_lseg ex_call)|].
  apply (insert_load_position (-8) 0 4%nat (build ex_call) (Some 0%nat)).
  exact (build_lseg ex_call).
Defined.

Lemma insert_spill_position_witness :
  lseg (build ex_locals) (Some 0%nat) ([0; 1; 2]%nat ++ 3%nat :: [4; 5]%nat) None ∧
  ∃ h', @insert_spill iloc 0 (Some 3%nat) (Some 2%nat) (build ex_locals) = Some (-24, h') ∧
        frame_imm h' (Some 2%nat) = -24 ∧
        (INT_MIN ≤ -16 - 8 ≤ INT_MAX → -24 = -16 - 8) ∧
        stream h' (Some 0%nat)
        = Some [ (PUSH, BP, E, E);
                 (I2I, SP, BP, E);
                 (ADD_I, SP, int_const (-24), SP);
                 (LOAD_AI, BP, int_const 8, vreg 1);
                 (STORE_AI, physical_register 0, BP, int_const (-24));
                 (CALL, E, E, E);
                 (PUSH, vreg 1, E, E) ].
Proof.
  split; [exact (build_lseg ex_locals)|].
  exact (@insert_spill_position iloc 0 3%nat 2%nat
           (mkInsn ADD_I SP (int_const (-16)) SP (Some 3%nat))
           (build ex_locals) (Some 0%nat) [0; 1; 2]%nat [4; 5]%nat
           (build_lseg ex_locals) eq_refl).
Defined.

Lemma spill_defined_witness :
  is_Some (@spill iloc 0 (Some 3%nat) (Some 2%nat) st_tie) ∧
  ¬ is_Some (@spill iloc 0 (Some 3%nat) None st_tie) ∧
  ¬ is_Some (@spill iloc 0 (Some 3%nat) (Some 2%nat)
               (mkState (build ex_tie) [-1; 11; 12; 13] (replicate 2048 (-1)))).
Proof.
  split; [|split].
  - apply (proj2 (@spill_defined iloc 0 (Some 3%nat) (Some 2%nat) st_tie)).
    split; [exists 3%nat; split; [reflexivity | vm_compute; lia]|].
    split; [exists 2%nat; split; [reflexivity | vm_compute; lia]|].
    exists 10. split; [reflexivity | split; [lia | reflexivity]].
  - intros H. apply (proj1 (@spill_defined iloc 0 (Some 3%nat) None st_tie)) in H.
    destruct H as (_ & (l & Hl & _) & _). discriminate.
  - intros H. apply (proj1 (@spill_defined iloc _ _ _ _)) in H.
    destruct H as (_ & _ & (v & Hv & Hrange)). injection Hv as <-. lia.
Defined.

Lemma dist_first_reader_witness :
  lseg (build ex_tie) (Some 3%nat) (3%nat :: [4; 5; 6; 7; 8; 9; 10]%nat) None ∧
  @dist iloc (build ex_tie) 11 3%nat = Some 7 ∧
  @dist iloc (build ex_tie) 99 3%nat = Some 2048 ∧
  ((∃ k i, @dist iloc (build ex_tie) 11 3%nat = Some (Z.of_nat k + 1) ∧
           nodes (build ex_tie) [4; 5; 6; 7; 8; 9; 10]%nat !! k = Some i ∧
           @reads_vr iloc 11 i = true ∧
           ∀ j i', (j < k)%nat →
                   nodes (build ex_tie) [4; 5; 6; 7; 8; 9; 10]%nat !! j = Some i' →
                   @reads_vr iloc 11 i' = false) ∨
   (@dist iloc (build ex_tie) 11 3%nat = Some (@MAX_VIRTUAL_REGS iloc) ∧
    ∀ i, i ∈ nodes (build ex_tie) [4; 5; 6; 7; 8; 9; 10]%nat → @reads_vr iloc 11 i = false)).
Proof.
  assert (Hseg : lseg (build ex_tie) (Some 3%nat) (3%nat :: [4; 5; 6; 7; 8; 9; 10]%nat) None)
    by solve_lseg.
  split; [exact Hseg|]. split; [reflexivity|]. split; [reflexivity|].
  exact (@dist_first_reader iloc (build ex_tie) 11 3%nat _ Hseg).
Defined.

Lemma allocate_result_witness :
  ∃ st', @allocate iloc st_tie 4 99 3%nat (Some 2%nat) (Some 2%nat) = Some (1, st') ∧
         phys_reg_map st' = [10; 99; 12; 13] ∧
         0 ≤ 1 < 4 ∧
         arr_get (phys_reg_map st') 1 = Some 99 ∧
         length (phys_reg_map st') = length (phys_reg_map st_tie) ∧
         (∀ j, j ≠ 1 → arr_get (phys_reg_map st') j = arr_get (phys_reg_map st_tie) j).
Proof.
  destruct (@allocate iloc st_tie 4 99 3%nat (Some 2%nat) (Some 2%nat)) as [[pr st']|] eqn:Ha;
    [|vm_compute in Ha; discriminate].
  pose proof (@allocate_result iloc st_tie 4 99 3%nat (Some 2%nat) (Some 2%nat) pr st' Ha)
    as (H1 & H2 & H3 & H4 & _).
  vm_compute in Ha. injection Ha as <- <-.
  eexists. split; [reflexivity|]. split; [reflexivity|].
  split; [exact H1|]. split; [exact H2|]. split; [exact H3|exact H4].
Defined.

Lemma ensure_resident_witness :
  let st := mkState (build ex_call) [7; 1; 1] [] in
  @ensure iloc st 3 1 5%nat None None = Some (1, st).
Proof.
  intros st. apply (@ensure_resident iloc st 3 1 5%nat None None 1).
  - lia.
  - reflexivity.
  - intros j Hj. assert (j = 0) as -> by lia. discriminate.
Defined.

Lemma ensure_reload_precedes_store_witness :
  let c0 := @initial_config iloc (build ex_evict) (mkList (Some 0%nat)) 2 in
  let c := default c0 (@run_loop iloc 7 2 c0) in
  c_insn c = Some 7%nat ∧ c_last_processed c = Some 6%nat ∧
  phys_reg_map (c_state c) = [2; 3] ∧
  ∃ st', @ensure iloc (c_state c) 2 1 7%nat (Some 2%nat) (Some 6%nat) = Some (1, st') ∧
         lseg (heap st') (Some 0%nat)
              ([0; 1; 2; 3; 10; 4; 5]%nat ++ 6%nat :: 12%nat :: 11%nat :: [7; 8; 9]%nat) None ∧
         view (heap st' !!! 12%nat)
         = (LOAD_AI, base_register, int_const (-8), physical_register 1) ∧
         view (heap st' !!! 11%nat)
         = (STORE_AI, physical_register 1, base_register, int_const (-16)).
Proof.
  intros c0 c. split; [reflexivity|]. split; [reflexivity|]. split; [reflexivity|].
  destruct (@ensure iloc (c_state c) 2 1 7%nat (Some 2%nat) (Some 6%nat)) as [[pr st']|] eqn:He;
    [|vm_compute in He; discriminate].
  assert (Hseg : lseg (heap (c_state c)) (Some 0%nat)
                      ([0; 1; 2; 3; 10; 4; 5]%nat ++ 6%nat :: [7; 8; 9]%nat) None)
    by (vm_compute; solve_lseg).
  pose proof (@ensure_reload_precedes_store iloc (c_state c) 2 1 7%nat (Some 2%nat) 6%nat
                pr st' (-8) (Some 0%nat) _ _ Hseg eq_refl eq_refl eq_refl
                ltac:(discriminate) He) as H.
  vm_compute in He. injection He as <- <-. eexists. split; [reflexivity|]. exact H.
Defined.

Lemma spill_then_ensure_reloads_witness :
  ∃ st1, @spill iloc 1 (Some 2%nat) (Some 2%nat) st_tie = Some st1 ∧
         phys_reg_map st1 = [10; -1; 12; 13] ∧
         arr_get (offset_arr st1) 11 = Some (-8) ∧
         -8 = @next_slot iloc (frame_imm (heap st_tie) (Some 2%nat)) ∧
         view (heap st1 !!! length (heap st_tie))
         = (STORE_AI, physical_register 1, base_register, int_const (-8)) ∧
         ∃ pr' st2,
           @ensure iloc st1 4 11 9%nat None (Some 8%nat) = Some (pr', st2) ∧
           0 ≤ pr' ≤ 1 ∧
           arr_get (phys_reg_map st2) pr' = Some 11 ∧
           offset_arr st2 = offset_arr st1 ∧
           length (heap st2) = S (length (heap st1)) ∧
           view (heap st2 !!! length (heap st1))
           = (LOAD_AI, base_register, int_const (-8), physical_register pr').
Proof.
  destruct (@spill iloc 1 (Some 2%nat) (Some 2%nat) st_tie) as [st1|] eqn:Hs;
    [|vm_compute in Hs; discriminate].
  assert (Hmap : phys_reg_map st1 = [10; -1; 12; 13])
    by (vm_compute in Hs; injection Hs as <-; reflexivity).
  assert (Hrec : arr_get (offset_arr st1) 11 = Some (-8))
    by (vm_compute in Hs; injection Hs as <-; reflexivity).
  assert (Hp : (8 < length (heap st1))%nat)
    by (vm_compute in Hs; injection Hs as <-; vm_compute; lia).
  exists st1. split; [reflexivity|]. split; [exact Hmap|]. split; [exact Hrec|].
  apply (@spill_then_ensure_reloads iloc st_tie 4 1 11 (Some 2%nat) (Some 2%nat) st1
           9%nat None 8%nat (-8)).
  - reflexivity.
  - reflexivity.
  - intros j Hj H. apply arr_get_Some in H as [H0 H].
    destruct (Z.to_nat j) as [|[|[|[|k]]]] eqn:E; simpl in H; try discriminate. lia.
  - exact Hs.
  - exact Hrec.
  - discriminate.
  - exact Hp.
Defined.

Lemma call_spills_stream_order_witness :
  ∃ st', @process_call iloc st_tie 4 5%nat (Some 2%nat) (Some 4%nat) = Some st' ∧
         lseg (heap st') (Some 0%nat)
              ([0; 1; 2; 3]%nat ++ 4%nat :: [14; 13; 12; 11]%nat ++ [5; 6; 7; 8; 9; 10]%nat)
              None ∧
         view <$> nodes (heap st') [11; 12; 13; 14]%nat
         = [ (STORE_AI, physical_register 0, base_register, int_const (-8));
             (STORE_AI, physical_register 1, base_register, int_const (-16));
             (STORE_AI, physical_register 2, base_register, int_const (-24));
             (STORE_AI, physical_register 3, base_register, int_const (-32)) ].
Proof.
  destruct (@process_call iloc st_tie 4 5%nat (Some 2%nat) (Some 4%nat)) as [st'|] eqn:Hc;
    [|vm_compute in Hc; discriminate].
  pose proof (@call_spills_stream_order iloc st_tie 4 5%nat (Some 2%nat) 4%nat st'
                (Some 0%nat) [0; 1; 2; 3]%nat [5; 6; 7; 8; 9; 10]%nat
                (build_lseg ex_tie) eq_refl Hc) as [H1 H2].
  vm_compute in Hc. injection Hc as <-. eexists. split; [reflexivity|].
  split; [exact H1|exact H2].
Defined.

Lemma registers_within_n_witness :
  1 ≤ 2 ∧ @well_formed iloc False (build ex_call) (Some 0%nat) ∧
  ∃ h', @allocate_registers iloc (build ex_call) (Some (mkList (Some 0%nat))) 2 = Returned h' ∧
        (length (build ex_call) ≤ length h')%nat ∧
        (∀ x, (x < length (build ex_call))%nat →
              allocated_insn 2 (build ex_call !!! x) (h' !!! x)) ∧
        (∀ x, (length (build ex_call) ≤ x < length h')%nat → spill_code 2 (h' !!! x)).
Proof.
  split; [lia|]. split; [apply ex_call_well_formed|].
  apply (@registers_within_n iloc (build ex_call) (mkList (Some 0%nat)) 2);
    [lia | apply ex_call_well_formed].
Defined.

Lemma stream_order_kept_witness :
  1 ≤ 2 ∧ @well_formed iloc False (build ex_call) (Some 0%nat) ∧
  ∃ h', @allocate_registers iloc (build ex_call) (Some (mkList (Some 0%nat))) 2 = Returned h' ∧
        stream_addrs (length (build ex_call)) (build ex_call) (Some 0%nat)
        = Some [0; 1; 2; 3; 4; 5]%nat ∧
        stream_addrs (length h') h' (Some 0%nat) = Some [0; 1; 2; 3; 6; 4; 7; 5]%nat ∧
        old_nodes (build ex_call) [0; 1; 2; 3; 6; 4; 7; 5]%nat = [0; 1; 2; 3; 4; 5]%nat.
Proof.
  split; [lia|]. split; [apply ex_call_well_formed|].
  destruct (@stream_order_kept iloc (build ex_call) (mkList (Some 0%nat)) 2)
    as (h' & l & l' & Hret & Hl & Hl' & Hold); [lia | apply ex_call_well_formed |].
  vm_compute in Hret. injection Hret as <-.
  vm_compute in Hl. injection Hl as <-. vm_compute in Hl'. injection Hl' as <-.
  eexists. split; [vm_compute; reflexivity|].
  split; [reflexivity|]. split; [reflexivity|]. exact Hold.
Defined.

Lemma physical_code_unchanged_witness :
  1 ≤ 2 ∧
  lseg (build ex_physical) (Some 0%nat) [0; 1; 2; 3; 4; 5]%nat None ∧
  @allocate_registers iloc (build ex_physical) (Some (mkList (Some 0%nat))) 2
  = Returned (build ex_physical).
Proof.
  split; [lia|]. split; [exact (build_lseg ex_physical)|].
  apply (@physical_code_unchanged iloc (build ex_physical) (mkList (Some 0%nat)) 2
           [0; 1; 2; 3; 4; 5]%nat); [lia | exact (build_lseg ex_physical) |].
  unfold nodes. simpl. solve_insn_pred.
Defined.

Lemma allocate_registers_idempotent_witness :
  ∃ h', @allocate_registers iloc (build ex_call) (Some (mkList (Some 0%nat))) 2 = Returned h' ∧
        @allocate_registers iloc h' (Some (mkList (Some 0%nat))) 1 = Returned h'.
Proof.
  apply (@allocate_registers_idempotent iloc (build ex_call) (mkList (Some 0%nat)) 2 1);
    [lia | lia | apply ex_call_well_formed].
Defined.

Lemma ensure_unknown_register_witness :
  let st := @initial_state iloc (build ex_call) 2 in
  find_reg (phys_reg_map st) 2048 (seqZ 0 2) = Some None ∧
  @ensure iloc st 2 2048 5%nat (Some 2%nat) (Some 4%nat) = None.
Proof.
  intros st. split; [reflexivity|].
  apply (@ensure_unknown_register iloc st 2 2048 5%nat (Some 2%nat) (Some 4%nat)).
  - reflexivity.
  - intros [_ H]. vm_compute in H. discriminate.
Defined.

Lemma last_use_register_taken_again_witness :
  let c0 := @initial_config iloc (build ex_last_use) (mkList (Some 0%nat)) 2 in
  let c := default c0 (@run_loop iloc 6 2 c0) in
  c_insn c = Some 6%nat ∧ c_last_processed c = Some 5%nat ∧
  phys_reg_map (c_state c) = [-1; -1] ∧
  view (heap (c_state c) !!! 6%nat) = (STORE_AI, vreg 1, vreg 2, int_const 0) ∧
  ∃ st', @process_reads iloc (c_state c) 2 6%nat (Some 2%nat) (Some 5%nat)
           (@ILOCInsn_get_read_registers iloc (heap (c_state c) !!! 6%nat)) = Some st' ∧
         op0 (heap st' !!! 6%nat) = physical_register 0 ∧
         op1 (heap st' !!! 6%nat) = physical_register 0.
Proof.
  intros c0 c. split; [reflexivity|]. split; [reflexivity|]. split; [reflexivity|].
  split; [reflexivity|].
  enough (H : ∃ st', @process_reads iloc (c_state c) 2 6%nat (Some 2%nat) (Some 5%nat)
                       (@ILOCInsn_get_read_registers iloc (heap (c_state c) !!! 6%nat))
                     = Some st' ∧
                     op0 (heap st' !!! 6%nat)
                     = mkOperand PHYSICAL_REG 0 (imm (op0 (heap (c_state c) !!! 6%nat))) ∧
                     op1 (heap st' !!! 6%nat)
                     = mkOperand PHYSICAL_REG 0 (imm (op1 (heap (c_state c) !!! 6%nat))))
    by exact H.
  apply (@last_use_register_taken_again iloc (c_state c) 2 6%nat [] (Some 2%nat) 5%nat
           (heap (c_state c) !!! 6%nat) 1 2 0).
  - vm_compute. solve_lseg.
  - vm_compute. lia.
  - vm_compute. intros H. apply elem_of_cons in H as [H|H]; [discriminate|inversion H].
  - reflexivity.
  - reflexivity.
  - reflexivity.
  - reflexivity.
  - reflexivity.
  - reflexivity.
  - reflexivity.
  - reflexivity.
  - lia.
  - intros x Hx. inversion Hx.
  - lia.
  - reflexivity.
  - intros j Hj. lia.
  - reflexivity.
  - reflexivity.
  - split; [lia | reflexivity].
  - split; [lia | reflexivity].
Defined.

Lemma write_binds_register_witness :
  let c0 := @initial_config iloc (build ex_call) (mkList (Some 0%nat)) 2 in
  let c := default c0 (@run_loop iloc 3 2 c0) in
  ∃ st', @process_write iloc (c_state c) 2 3%nat (Some 2%nat) (Some 2%nat) = Some st' ∧
         view (heap st' !!! 3%nat) = (LOAD_AI, BP, int_const 8, physical_register 0) ∧
         ∃ pr, 0 ≤ pr < 2 ∧
               arr_get (phys_reg_map st') pr = Some 1 ∧
               ∀ s, is_vr 1 (op (heap (c_state c) !!! 3%nat) s) = true →
                    type (op (heap st' !!! 3%nat) s) = PHYSICAL_REG ∧
                    id (op (heap st' !!! 3%nat) s) = pr.
Proof.
  intros c0 c.
  destruct (@process_write iloc (c_state c) 2 3%nat (Some 2%nat) (Some 2%nat)) as [st'|] eqn:Hw;
    [|vm_compute in Hw; discriminate].
  pose proof (@write_binds_register iloc (c_state c) 2 3%nat (Some 2%nat) (Some 2%nat) st'
                (heap (c_state c) !!! 3%nat) eq_refl eq_refl Hw) as H.
  vm_compute in Hw. injection Hw as <-.
  eexists. split; [reflexivity|]. split; [reflexivity|]. exact H.
Defined.

Lemma read_binds_or_frees_witness :
  let c0 := @initial_config iloc (build ex_twice) (mkList (Some 0%nat)) 2 in
  let c := default c0 (@run_loop iloc 5 2 c0) in
  let i := heap (c_state c) !!! 5%nat in
  view i = (PUSH, vreg 1, E, E) ∧
  ∃ st', @process_reads iloc (c_state c) 2 5%nat (Some 2%nat) (Some 4%nat)
           (@ILOCInsn_get_read_registers iloc i) = Some st' ∧
         view (heap st' !!! 5%nat) = (PUSH, physical_register 0, E, E) ∧
         @dist iloc (heap st') 1 5%nat = Some 2 ∧
         arr_get (phys_reg_map st') 0 = Some 1 ∧
         ∃ pr d, 0 ≤ pr < 2 ∧
                 (∀ s, is_vr 1 (op i s) = true →
                       type (op (heap st' !!! 5%nat) s) = PHYSICAL_REG ∧
                       id (op (heap st' !!! 5%nat) s) = pr) ∧
                 @dist iloc (heap st') 1 5%nat = Some d ∧
                 arr_get (phys_reg_map st') pr
                 = Some (if d =? @MAX_VIRTUAL_REGS iloc then -1 else 1).
Proof.
  intros c0 c i. split; [reflexivity|].
  destruct (@process_reads iloc (c_state c) 2 5%nat (Some 2%nat) (Some 4%nat)
              (@ILOCInsn_get_read_registers iloc i)) as [st'|] eqn:Hr;
    [|vm_compute in Hr; discriminate].
  pose proof (@read_binds_or_frees iloc (c_state c) 2 5%nat (Some 2%nat) (Some 4%nat) st'
                i [] (vreg 1) [empty_operand; empty_operand] eq_refl eq_refl
                ltac:(constructor) ltac:(repeat constructor; discriminate) eq_refl Hr) as H.
  vm_compute in Hr. injection Hr as <-.
  eexists. split; [reflexivity|]. split; [reflexivity|]. split; [reflexivity|].
  split; [reflexivity|]. exact H.
Defined.

Lemma frame_allocator_latch_witness :
  lseg (build ex_call) (Some 0%nat) (0%nat :: [1; 2; 3; 4; 5]%nat) None ∧
  (∃ a1 a2 rest', [1; 2; 3; 4; 5]%nat = a1 :: a2 :: rest' ∧
                  find_local_allocator (build ex_call) (build ex_call !!! 0%nat) None
                  = Some (Some a2)) ∧
  find_local_allocator (build ex_call) (build ex_call !!! 5%nat) (Some 2%nat)
  = Some (Some 2%nat).
Proof.
  split; [exact (build_lseg ex_call)|]. split.
  - apply (frame_allocator_latch (build ex_call) 0%nat [1; 2; 3; 4; 5]%nat
             (build ex_call !!! 0%nat) None (build_lseg ex_call) eq_refl).
    simpl. auto.
  - apply (frame_allocator_latch (build ex_call) 5%nat [] (build ex_call !!! 5%nat)
             (Some 2%nat)); [solve_lseg | reflexivity |].
    simpl. tauto.
Defined.
